(** * Named-entity-recognition notebook: corpus reader, vocabulary,
      batching, evaluation and prediction

    A shallow embedding of the Python code of [neural_ner.ipynb].

    - Python [str] is [string]; a character is its code point below 256.
    - A Python exception is a value of [exn] (class name and message);
      fallible code returns [result].
    - A [dict] is a [gmap]; [defaultdict(lambda: 0)] is a [gmap] whose
      subscript operation [dd_getitem] stores the default on a miss.
    - numpy arrays and torch tensors are [tensor]s: a dtype, a shape and the
      row-major contents.  Ids and counts are natural numbers: an id is
      below the size of its dictionary, and the width of the machine
      integers that store it plays no part.
    - Module-level names read by the functions ([token2idx], [tag2idx],
      [idx2tag], [true_tags], [ner_tagger], [batch_size]) are fields of
      [globals] or explicit arguments. *)

From Stdlib Require Import ZArith QArith.
From stdpp Require Import base option list gmap strings fin_maps pretty.

Local Open Scope string_scope.
Local Open Scope nat_scope.
Local Open Scope list_scope.

(** ** Exceptions and results *)

Record exn := Exn { exn_class : string; exn_msg : string }.

Definition ValueError (msg : string) : exn := Exn "ValueError" msg.
Definition KeyError (msg : string) : exn := Exn "KeyError" msg.
Definition NameError (msg : string) : exn := Exn "NameError" msg.
Definition IndexError (msg : string) : exn := Exn "IndexError" msg.
Definition RuntimeError (msg : string) : exn := Exn "RuntimeError" msg.
Definition ZeroDivisionError (msg : string) : exn := Exn "ZeroDivisionError" msg.
Definition UnboundLocalError (msg : string) : exn := Exn "UnboundLocalError" msg.

Inductive result (A : Type) : Type :=
| Ok (a : A)
| Raise (e : exn).
Arguments Ok {A} a.
Arguments Raise {A} e.

Definition rbind {A B} (r : result A) (k : A → result B) : result B :=
  match r with
  | Ok a => k a
  | Raise e => Raise e
  end.

Global Instance result_ret : MRet result := fun A a => Ok a.
Global Instance result_bind : MBind result := fun A B k r => rbind r k.

Global Instance result_fmap : FMap result :=
  fun A B f r => rbind r (fun a => Ok (f a)).

Definition is_ok {A} (r : result A) : bool :=
  match r with Ok _ => true | Raise _ => false end.

(** ** Python string operations used by the reader *)

Module PyStr.

(** [str.isspace] on the code points below 256. *)
Definition isspace (c : Ascii.ascii) : bool :=
  let n := Ascii.nat_of_ascii c in
  ((9 <=? n) && (n <=? 13)) || ((28 <=? n) && (n <=? 32))
  || (n =? 133) || (n =? 160).

Fixpoint lstrip (s : string) : string :=
  match s with
  | String c s' => if isspace c then lstrip s' else s
  | EmptyString => EmptyString
  end.

Definition rstrip (s : string) : string :=
  String.rev (lstrip (String.rev s)).

(** [s.strip()] *)
Definition strip (s : string) : string := rstrip (lstrip s).

(** [s.split()]: the maximal runs of non-whitespace characters, in order.
    [cur] is the run being read, reversed. *)
Fixpoint split_go (cur : string) (s : string) : list string :=
  match s with
  | EmptyString =>
      match cur with
      | EmptyString => []
      | _ => [String.rev cur]
      end
  | String c s' =>
      if isspace c then
        match cur with
        | EmptyString => split_go EmptyString s'
        | _ => String.rev cur :: split_go EmptyString s'
        end
      else split_go (String c cur) s'
  end.

Definition split (s : string) : list string := split_go EmptyString s.

(** [s.startswith(p)] *)
Definition startswith (s p : string) : bool := String.prefix p s.

(** truth value of a string: non-empty *)
Definition truthy (s : string) : bool :=
  match s with EmptyString => false | _ => true end.

End PyStr.

(** ** Corpus reader: [read_data] *)

Module Reader.

(** The four list variables of [read_data]. *)
Record state := State {
  tokens : list (list string);
  tags : list (list string);
  tweet_tokens : list string;
  tweet_tags : list string
}.

Definition init : state := State [] [] [] [].

(** The exception of unpacking [n] values into two names. *)
Definition unpack_error (n : nat) : exn :=
  if n <? 2 then
    ValueError ("not enough values to unpack (expected 2, got "
                +:+ pretty n +:+ ")")
  else ValueError "too many values to unpack (expected 2)".

(** [token, tag = line.split()] *)
Definition unpack2 (fields : list string) : result (string * string) :=
  match fields with
  | [token; tag] => Ok (token, tag)
  | _ => Raise (unpack_error (length fields))
  end.

Definition normalize (token : string) : string :=
  let token :=
    if PyStr.startswith token "http://" || PyStr.startswith token "https://"
    then "<URL>" else token in
  if PyStr.startswith token "@" then "<USR>" else token.

(** One iteration of the [for line in open(...)] loop. *)
Definition step (st : state) (line : string) : result state :=
  let line := PyStr.strip line in
  if negb (PyStr.truthy line) then
    match tweet_tokens st with
    | [] => Ok (State (tokens st) (tags st) [] [])
    | _ :: _ =>
        Ok (State (tokens st ++ [tweet_tokens st])
                  (tags st ++ [tweet_tags st]) [] [])
    end
  else
    '(token, tag) ← unpack2 (PyStr.split line);
    let token := normalize token in
    Ok (State (tokens st) (tags st)
              (tweet_tokens st ++ [token]) (tweet_tags st ++ [tag])).

Fixpoint loop (st : state) (lines : list string) : result state :=
  match lines with
  | [] => Ok st
  | line :: rest => st' ← step st line; loop st' rest
  end.

(** [read_data], on the lines that iterating over the opened file yields. *)
Definition read_data (lines : list string)
  : result (list (list string) * list (list string)) :=
  st ← loop init lines;
  Ok (tokens st, tags st).

(** A line the loop body accepts: blank, or exactly two fields. *)
Definition blank (line : string) : bool := negb (PyStr.truthy (PyStr.strip line)).

Definition two_fields (line : string) : bool :=
  length (PyStr.split (PyStr.strip line)) =? 2.

Definition well_formed (line : string) : bool := blank line || two_fields line.

(** What the specification asks of a malformed line: an exception of class
    [ParseError] whose message contains the offending line. *)
Fixpoint is_substring (needle hay : string) : bool :=
  String.prefix needle hay ||
  match hay with
  | String _ hay' => is_substring needle hay'
  | EmptyString => false
  end.

Definition reports_parse_error {A} (line : string) (r : result A) : Prop :=
  ∃ msg, r = Raise (Exn "ParseError" msg) ∧ is_substring line msg = true.

End Reader.

(** ** Vocabulary: [build_dict] and the id conversions *)

Module Vocab.

(** [d[k]] on a [defaultdict(lambda: 0)]: a miss calls the factory, stores
    its value under [k] and returns it. *)
Definition dd_getitem (d : gmap string nat) (k : string)
  : nat * gmap string nat :=
  match d !! k with
  | Some v => (v, d)
  | None => (0, <[k := 0]> d)
  end.

(** The three variables of [build_dict]. *)
Record state := State {
  tok2idx : gmap string nat;
  idx2tok : gmap nat string;
  index : nat
}.

Definition init : state := State ∅ ∅ 0.

(** body of [for special_token in special_tokens] *)
Definition add_special (st : state) (special_token : string) : state :=
  State (<[special_token := index st]> (tok2idx st))
        (<[index st := special_token]> (idx2tok st))
        (S (index st)).

(** body of [for tok in seq] *)
Definition add_tok (st : state) (tok : string) : state :=
  match tok2idx st !! tok with
  | Some _ => st
  | None =>
      State (<[tok := index st]> (tok2idx st))
            (<[index st := tok]> (idx2tok st))
            (S (index st))
  end.

Definition build_state (tokens_or_tags : list (list string))
    (special_tokens : list string) : state :=
  foldl (foldl add_tok) (foldl add_special init special_tokens) tokens_or_tags.

Definition build_dict (tokens_or_tags : list (list string))
    (special_tokens : list string) : gmap string nat * gmap nat string :=
  let st := build_state tokens_or_tags special_tokens in
  (tok2idx st, idx2tok st).

(** [[d[k] for k in ks]] on a defaultdict, left to right. *)
Fixpoint dd_getitems (d : gmap string nat) (ks : list string)
  : list nat * gmap string nat :=
  match ks with
  | [] => ([], d)
  | k :: ks' =>
      let '(v, d1) := dd_getitem d k in
      let '(vs, d2) := dd_getitems d1 ks' in
      (v :: vs, d2)
  end.

(** [[d[i] for i in idxs]] on a plain dict: a miss raises [KeyError]. *)
Fixpoint getitems (d : gmap nat string) (idxs : list nat)
  : result (list string) :=
  match idxs with
  | [] => Ok []
  | i :: idxs' =>
      match d !! i with
      | Some s => rest ← getitems d idxs'; Ok (s :: rest)
      | None => Raise (KeyError (pretty i))
      end
  end.

(** The two dictionaries mirror each other and every id in use is below the
    next free one. *)
Definition consistent (st : state) : Prop :=
  (∀ s i, tok2idx st !! s = Some i ↔ idx2tok st !! i = Some s)
  ∧ (∀ i s, idx2tok st !! i = Some s → i < index st).

(** The value of the subscript [d[k]] on the default dictionary. *)
Definition view (d : gmap string nat) (k : string) : nat := default 0 (d !! k).

End Vocab.

(** ** The module-level names the helper functions read *)

Record globals := Globals {
  token2idx : gmap string nat;
  idx2token : gmap nat string;
  tag2idx : gmap string nat;
  idx2tag : gmap nat string;
  (** [true_tags] is bound only by the examples cell *)
  true_tags : option (list string)
}.

Definition set_token2idx (d : gmap string nat) (g : globals) : globals :=
  Globals d (idx2token g) (tag2idx g) (idx2tag g) (true_tags g).

Definition set_tag2idx (d : gmap string nat) (g : globals) : globals :=
  Globals (token2idx g) (idx2token g) d (idx2tag g) (true_tags g).

Definition words2idxs (tokens_list : list string) (g : globals)
  : list nat * globals :=
  let '(ids, d) := Vocab.dd_getitems (token2idx g) tokens_list in
  (ids, set_token2idx d g).

Definition tags2idxs (tags_list : list string) (g : globals)
  : list nat * globals :=
  let '(ids, d) := Vocab.dd_getitems (tag2idx g) tags_list in
  (ids, set_tag2idx d g).

Definition idxs2words (idxs : list nat) (g : globals) : result (list string) :=
  Vocab.getitems (idx2token g) idxs.

Definition idxs2tags (idxs : list nat) (g : globals) : result (list string) :=
  Vocab.getitems (idx2tag g) idxs.

(** The cell that builds the dictionaries. *)
Definition special_tokens : list string := ["<UNK>"; "<PAD>"].
Definition special_tags : list string := ["O"].

Definition make_globals (train_tokens validation_tokens train_tags
    : list (list string)) : globals :=
  let '(t2i, i2t) := Vocab.build_dict (train_tokens ++ validation_tokens)
                                      special_tokens in
  let '(g2i, i2g) := Vocab.build_dict train_tags special_tags in
  Globals t2i i2t g2i i2g None.

(** ** numpy arrays and torch tensors *)

Module Tensor.

Inductive dtype := Int32 | Int64 | Float32 | Bool.

Definition is_integer (dt : dtype) : bool :=
  match dt with Int32 | Int64 => true | _ => false end.

Record tensor (A : Type) := Tensor {
  dtype_of : dtype;
  shape : list nat;
  data : list A
}.
Arguments Tensor {A} _ _ _.
Arguments dtype_of {A} _.
Arguments shape {A} _.
Arguments data {A} _.

Definition numel (s : list nat) : nat := foldr Nat.mul 1 s.

(** multi-index of the [i]-th element in row-major order *)
Fixpoint unravel (s : list nat) (i : nat) : list nat :=
  match s with
  | [] => []
  | _ :: s' => (i / numel s') :: unravel s' (i mod numel s')
  end.

(** position of a multi-index in row-major order *)
Fixpoint ravel (s idx : list nat) : nat :=
  match s, idx with
  | _ :: s', k :: idx' => k * numel s' + ravel s' idx'
  | _, _ => 0
  end.

Definition get {A} `{Inhabited A} (t : tensor A) (idx : list nat) : A :=
  data t !!! ravel (shape t) idx.

Definition tabulate {A} (dt : dtype) (s : list nat) (f : list nat → A)
  : tensor A :=
  Tensor dt s ((λ i, f (unravel s i)) <$> seq 0 (numel s)).

(** [np.ones(s, dtype) * v] *)
Definition full {A} (dt : dtype) (s : list nat) (v : A) : tensor A :=
  Tensor dt s (replicate (numel s) v).

(** [torch.tensor(l)] on a list of Python ints; the empty list gives a
    tensor of the default floating-point dtype. *)
Definition of_list (l : list nat) : tensor nat :=
  Tensor (match l with [] => Float32 | _ => Int64 end) [length l] l.

(** [t.long()] *)
Definition long {A} (t : tensor A) : tensor A :=
  Tensor Int64 (shape t) (data t).

(** [t.unsqueeze(0)] *)
Definition unsqueeze0 {A} (t : tensor A) : tensor A :=
  Tensor (dtype_of t) (1 :: shape t) (data t).

(** [t.squeeze()]: every dimension of size one is removed. *)
Definition squeeze {A} (t : tensor A) : tensor A :=
  Tensor (dtype_of t) (filter (λ d, d ≠ 1) (shape t)) (data t).

(** [t.permute(0, 2, 1)] *)
Definition permute021 {A} `{Inhabited A} (t : tensor A) : result (tensor A) :=
  match shape t with
  | [b; l; c] =>
      Ok (tabulate (dtype_of t) [b; c; l]
            (λ m, match m with
                  | [i; k; j] => get t [i; j; k]
                  | _ => inhabitant
                  end))
  | _ => Raise (RuntimeError "number of dims don't match in permute")
  end.

(** The exception for a dimension [dim] that a tensor of [rank] dimensions
    does not have (a scalar counts as having one). *)
Definition dim_error (rank dim : nat) : exn :=
  IndexError ("Dimension out of range (expected to be in range of [-"
              +:+ pretty (rank `max` 1) +:+ ", "
              +:+ pretty (rank `max` 1 - 1) +:+ "], but got "
              +:+ pretty dim +:+ ")").

Section Argmax.
Context {A : Type} (ltb : A → A → bool).

Fixpoint argmax_go (best_i : nat) (best : A) (i : nat) (l : list A) : nat :=
  match l with
  | [] => best_i
  | a :: l' =>
      if ltb best a then argmax_go i a (S i) l'
      else argmax_go best_i best (S i) l'
  end.

(** index of the first greatest element *)
Definition argmax (l : list A) : nat :=
  match l with
  | [] => 0
  | a :: l' => argmax_go 0 a 1 l'
  end.

(** [t.max(dim)[1]] *)
Definition max_indices `{Inhabited A} (dim : nat) (t : tensor A)
  : result (tensor nat) :=
  match shape t !! dim with
  | None => Raise (dim_error (length (shape t)) dim)
  | Some 0 =>
      Raise (IndexError "max(): Expected reduction dim to have non-zero size")
  | Some n =>
      Ok (tabulate Int64 (delete dim (shape t))
            (λ m, argmax ((λ k, get t (take dim m ++ k :: drop dim m))
                            <$> seq 0 n)))
  end.
End Argmax.

(** broadcast of two shapes, both given innermost dimension first *)
Fixpoint broadcast_rev (s1 s2 : list nat) : option (list nat) :=
  match s1, s2 with
  | [], s => Some s
  | s, [] => Some s
  | a :: s1', b :: s2' =>
      if a =? b then cons a <$> broadcast_rev s1' s2'
      else if a =? 1 then cons b <$> broadcast_rev s1' s2'
      else if b =? 1 then cons a <$> broadcast_rev s1' s2'
      else None
  end.

Definition broadcast (s1 s2 : list nat) : option (list nat) :=
  reverse <$> broadcast_rev (reverse s1) (reverse s2).

(** index into a tensor of shape [s] for position [m] of the broadcast *)
Definition bidx (s m : list nat) : list nat :=
  zip_with (λ d k, if d =? 1 then 0 else k) s (drop (length m - length s) m).

(** [a.eq(b)] *)
Definition eq (a b : tensor nat) : result (tensor bool) :=
  match broadcast (shape a) (shape b) with
  | None =>
      Raise (RuntimeError "The size of tensor a must match the size of tensor b")
  | Some s =>
      Ok (tabulate Bool s
            (λ m, bool_decide (get a (bidx (shape a) m)
                               = get b (bidx (shape b) m))))
  end.

(** [t.sum()] of a boolean tensor *)
Definition sum (t : tensor bool) : nat := length (filter (λ b, b = true) (data t)).

(** [x[n, :u] = src] on a 2-D array of width [w] *)
Definition assign_row_prefix (w n u : nat) (src : list nat) (t : tensor nat)
  : result (tensor nat) :=
  let s := u `min` w in
  if length src =? s then
    Ok (Tensor (dtype_of t) (shape t)
          (take (n * w) (data t) ++ src ++ drop (n * w + s) (data t)))
  else if length src =? 1 then
    Ok (Tensor (dtype_of t) (shape t)
          (take (n * w) (data t) ++ replicate s (src !!! 0)
           ++ drop (n * w + s) (data t)))
  else Raise (ValueError "could not broadcast input array").

(** row [i] of a 2-D array of width [w] *)
Definition row {A} (w i : nat) (t : tensor A) : list A :=
  take w (drop (i * w) (data t)).

End Tensor.

Import Tensor.

(** ** Batch generator: [batches_generator] *)

Module Batching.

Definition batch : Type := tensor nat * tensor nat * tensor nat.

(** [order]: [perm] stands for the value [np.random.permutation(n_samples)]
    returns. *)
Definition order_of (shuffle : bool) (perm : list nat) (n_samples : nat)
  : list nat :=
  if shuffle then perm else seq 0 n_samples.

Definition n_batches_of (batch_size n_samples : nat)
    (allow_smaller_last_batch : bool) : result nat :=
  if batch_size =? 0 then
    Raise (ZeroDivisionError "integer division or modulo by zero")
  else
    let n_batches := n_samples / batch_size in
    if allow_smaller_last_batch && negb (n_samples mod batch_size =? 0)
    then Ok (S n_batches) else Ok n_batches.

(** [l[i]] on a Python list *)
Definition getitem {A} (l : list A) (i : nat) : result A :=
  match l !! i with
  | Some a => Ok a
  | None => Raise (IndexError "list index out of range")
  end.

(** The loop [for idx in order[batch_start: batch_end]]. *)
Fixpoint gather (tokens tags : list (list string)) (idxs : list nat)
    (x_list y_list : list (list nat)) (max_len_token : nat) (g : globals)
  : result (list (list nat) * list (list nat) * nat * globals) :=
  match idxs with
  | [] => Ok (x_list, y_list, max_len_token, g)
  | idx :: idxs' =>
      toks ← getitem tokens idx;
      let '(xs, g) := words2idxs toks g in
      tgs ← getitem tags idx;
      let '(ys, g) := tags2idxs tgs g in
      tgs' ← getitem tags idx;
      gather tokens tags idxs' (x_list ++ [xs]) (y_list ++ [ys])
             (max_len_token `max` length tgs') g
  end.

(** The loop [for n in range(current_batch_size)]; [ns] is the part of the
    range still to run. *)
Fixpoint fill (w : nat) (x_list y_list : list (list nat)) (ns : list nat)
    (x y lengths : tensor nat) : result batch :=
  match ns with
  | [] => Ok (x, y, lengths)
  | n :: ns' =>
      xs ← getitem x_list n;
      let utt_len := length xs in
      x ← assign_row_prefix w n utt_len xs x;
      let lengths :=
        Tensor (dtype_of lengths) (shape lengths)
               (<[n := utt_len]> (data lengths)) in
      ys ← getitem y_list n;
      y ← assign_row_prefix w n utt_len ys y;
      fill w x_list y_list ns' x y lengths
  end.

(** The body of [for k in range(n_batches)], up to its [yield]. *)
Definition batch_at (batch_size : nat) (tokens tags : list (list string))
    (order : list nat) (k : nat) (g : globals) : result (batch * globals) :=
  let n_samples := length tokens in
  let batch_start := k * batch_size in
  let batch_end := ((k + 1) * batch_size) `min` n_samples in
  let current_batch_size := batch_end - batch_start in
  '(x_list, y_list, max_len_token, g) ←
    gather tokens tags (take (batch_end - batch_start) (drop batch_start order))
           [] [] 0 g;
  let '(pad, d) := Vocab.dd_getitem (token2idx g) "<PAD>" in
  let g := set_token2idx d g in
  let x := full Int32 [current_batch_size; max_len_token] pad in
  let '(o, d) := Vocab.dd_getitem (tag2idx g) "O" in
  let g := set_tag2idx d g in
  let y := full Int32 [current_batch_size; max_len_token] o in
  let lengths := full Int32 [current_batch_size] 0 in
  b ← fill max_len_token x_list y_list (seq 0 current_batch_size) x y lengths;
  Ok (b, g).

(** The batches a consumer that exhausts the generator receives, from the
    [k]-th on. *)
Fixpoint batches_from (batch_size : nat) (tokens tags : list (list string))
    (order : list nat) (ks : list nat) (g : globals)
  : result (list batch * globals) :=
  match ks with
  | [] => Ok ([], g)
  | k :: ks' =>
      '(b, g) ← batch_at batch_size tokens tags order k g;
      '(bs, g) ← batches_from batch_size tokens tags order ks' g;
      Ok (b :: bs, g)
  end.

Definition batches_generator (batch_size : nat)
    (tokens tags : list (list string))
    (shuffle allow_smaller_last_batch : bool) (perm : list nat) (g : globals)
  : result (list batch * globals) :=
  let n_samples := length tokens in
  let order := order_of shuffle perm n_samples in
  n_batches ← n_batches_of batch_size n_samples allow_smaller_last_batch;
  batches_from batch_size tokens tags order (seq 0 n_batches) g.

End Batching.

(** ** Scalars: scores, losses and accuracies

    The numbers torch computes (floating-point scores and losses, the quotient
    of a count by a length) are kept abstract: an implementation of the
    arithmetic is an instance of [Scalar]. *)

Class Scalar (num : Type) := {
  num_inhabited :: Inhabited num;
  num_ltb : num → num → bool;
  num_add : num → num → num;
  num_mul : num → num → num;
  num_div : num → num → num;
  num_of_nat : nat → num
}.

(** What the functions print or send to the summary writer; [ForwardCall]
    records which module, by address, a forward pass was run on. *)
Inductive event (num : Type) : Type :=
| CorrectTags (correct total : nat)
| TestSummary (loss correct : num) (n_samples : nat) (accuracy : num)
| TrainProgress (epoch seen n_samples : nat) (percent loss : num)
| AddScalar (name : string) (value : num) (step : nat)
| Flush
| ForwardCall (callee : nat).
Arguments CorrectTags {num} _ _.
Arguments TestSummary {num} _ _ _ _.
Arguments TrainProgress {num} _ _ _ _ _.
Arguments AddScalar {num} _ _ _.
Arguments Flush {num}.
Arguments ForwardCall {num} _.

(** ** The tagger, prediction and evaluation *)

Section Model.
Context {num : Type} `{Scalar num}.

(** A [NERTagger] with its parameters fixed: the number of tags and, for an
    index batch [x], the score at each position [[b; l; t]] that the
    embedding, LSTM, linear and log-softmax layers compute. *)
Record tagger := Tagger {
  n_tags : nat;
  score_at : tensor nat → list nat → num
}.

(** [NERTagger.forward]: the embedding layer rejects indices that are not
    integers, the LSTM an input that is not a batch of non-empty
    sequences; the result has shape [[B; L; n_tags]]. *)
Definition forward (m : tagger) (sentence : tensor nat) : result (tensor num) :=
  if negb (is_integer (dtype_of sentence)) then
    Raise (RuntimeError
             "Expected tensor for argument #1 'indices' to have scalar type Long")
  else
    match shape sentence with
    | [b; l] =>
        if l =? 0 then
          Raise (RuntimeError
                   "Expected sequence length to be larger than 0 in RNN")
        else Ok (tabulate Float32 [b; l; n_tags m] (score_at m sentence))
    | _ => Raise (RuntimeError "input must have 3 dimensions")
    end.

(** [list(t.numpy())] as a list of dictionary keys: the elements of a 1-D
    array; a 0-d array cannot be iterated, and the rows of an array of more
    dimensions are arrays, which cannot be keys. *)
Definition to_list (t : tensor nat) : result (list nat) :=
  match shape t with
  | [] => Raise (Exn "TypeError" "iteration over a 0-d array")
  | [_] => Ok (data t)
  | rows :: _ =>
      if rows =? 0 then Ok []
      else Raise (Exn "TypeError" "unhashable type: 'numpy.ndarray'")
  end.

(** truth value of the [tags] argument *)
Definition tags_given (tags : option (list string)) : bool :=
  match tags with
  | Some (_ :: _) => true
  | _ => false
  end.

(** [predict_sentence(sentence, tags, verbosity)]; [ner_tagger] is the
    module-level tagger. The result carries what was printed. *)
Definition predict_sentence (ner_tagger : tagger) (sentence : list string)
    (tags : option (list string)) (verbosity : nat) (g : globals)
  : result (list string * list (event num) * globals) :=
  let '(ids, g) := words2idxs sentence g in
  let X := unsqueeze0 (of_list ids) in
  y_pred ← forward ner_tagger X;
  y_pred ← max_indices num_ltb 1 (squeeze y_pred);
  res ← to_list y_pred;
  res ← idxs2tags res g;
  if tags_given tags then
    match true_tags g with
    | None => Raise (NameError "name 'true_tags' is not defined")
    | Some gold =>
        let '(ids, g) := tags2idxs gold g in
        let y_true := of_list ids in
        c ← Tensor.eq y_pred y_true;
        let correct := Tensor.sum c in
        if verbosity =? 0 then Ok (res, [], g)
        else Ok (res, [CorrectTags correct (length res)], g)
    end
  else Ok (res, [], g).

(** The local variables of [test_model] that the loop updates. *)
Record test_state := TestState {
  ts_loss : num;
  ts_correct : num;
  ts_n : nat;
  ts_n_samples : nat;
  ts_globals : globals
}.

(** [t.shape[i]] *)
Definition shape_at {A} (t : tensor A) (i : nat) : result nat :=
  match shape t !! i with
  | Some d => Ok d
  | None => Raise (IndexError "tuple index out of range")
  end.

(** One iteration of the loop of [test_model], for the [k]-th batch. *)
Definition test_step (batch_size : nat) (order : list nat) (model : tagger)
    (tokens tags : list (list string))
    (criterion : tensor num → tensor nat → result num)
    (st : test_state) (k : nat) : result test_state :=
  '(x_batch, y_batch, lengths, g) ←
    Batching.batch_at batch_size tokens tags order k (ts_globals st);
  let x_batch := long x_batch in
  let y_batch := long y_batch in
  outputs ← forward model x_batch;
  outputs ← permute021 outputs;
  l ← criterion outputs y_batch;
  y_pred ← max_indices num_ltb 1 outputs;
  c ← Tensor.eq y_pred y_batch;
  w ← shape_at y_batch 1;
  b ← shape_at x_batch 0;
  Ok (TestState (num_add (ts_loss st) l)
                (num_add (ts_correct st)
                         (num_div (num_of_nat (Tensor.sum c)) (num_of_nat w)))
                (S (ts_n st))
                (ts_n_samples st + b)
                g).

Fixpoint test_loop (batch_size : nat) (order : list nat) (model : tagger)
    (tokens tags : list (list string))
    (criterion : tensor num → tensor nat → result num)
    (st : test_state) (ks : list nat) : result test_state :=
  match ks with
  | [] => Ok st
  | k :: ks' =>
      st' ← test_step batch_size order model tokens tags criterion st k;
      test_loop batch_size order model tokens tags criterion st' ks'
  end.

(** [test_model(model, tokens, tags, criterion, writer, device, epoch)].
    [batch_size] is the module-level batch size and [perm] the permutation
    drawn by the generator, which is called with its default
    [shuffle=True, allow_smaller_last_batch=True].  [model.eval()] changes
    no parameter and no layer of [NERTagger] depends on the mode.  The
    result is the accuracy, with what was printed and sent to the writer. *)
Definition test_model (batch_size : nat) (perm : list nat) (model : tagger)
    (tokens tags : list (list string))
    (criterion : tensor num → tensor nat → result num)
    (writer : bool) (epoch : nat) (g : globals)
  : result (num * list (event num) * globals) :=
  let st0 := TestState (num_of_nat 0) (num_of_nat 0) 0 0 g in
  n_batches ← Batching.n_batches_of batch_size (length tokens) true;
  st ← test_loop batch_size (Batching.order_of true perm (length tokens))
                 model tokens tags criterion st0 (seq 0 n_batches);
  if ts_n st =? 0 then Raise (ZeroDivisionError "division by zero")
  else
    let loss := num_div (ts_loss st) (num_of_nat (ts_n st)) in
    let accuracy :=
      num_div (num_mul (num_of_nat 100) (ts_correct st))
              (num_of_nat (ts_n_samples st)) in
    let printed :=
      [TestSummary loss (ts_correct st) (ts_n_samples st) accuracy] in
    let logged :=
      if writer then
        [AddScalar "Test/Loss" loss epoch;
         AddScalar "Test/Accuracy" accuracy epoch; Flush]
      else [] in
    Ok (accuracy, (printed ++ logged)%list, ts_globals st).

End Model.
Arguments tagger num : clear implicits.

(** ** Training: [train_one_epoch]

    Modules are objects in a heap, named by their address; the optimizer
    holds the parameters of one of them.  What torch computes with parameter
    values, gradients and optimizer state is an instance of [torch_ops]. *)

Section Training.
Context {num : Type} `{Scalar num}.
Context {P G S : Type}.

Record module_obj := ModuleObj {
  mod_training : bool;
  mod_params : P;
  mod_grad : option G
}.

Record torch_ops := TorchOps {
  (** the function a module computes, in a mode, with given parameters *)
  net : bool → P → tagger num;
  (** gradient of the loss of a batch in the parameters that produced the
      outputs *)
  grad_of : bool → P → tensor nat → tensor nat → G;
  (** [backward] adds to the stored gradient *)
  grad_acc : option G → G → option G;
  (** [optimizer.zero_grad()] on one stored gradient *)
  zero_grad : option G → option G;
  (** [optimizer.step()] on the parameters it holds *)
  opt_step : S → P → option G → P * S
}.

Record world := World {
  w_globals : globals;
  w_heap : gmap nat module_obj;
  w_opt : S;
  w_log : list (event num)
}.

(** The local variables of [train_one_epoch] that the loop updates. *)
Record train_state := TrainState {
  tr_correct : num;
  tr_running_loss : num;
  tr_loss : option num;
  tr_world : world
}.

Definition set_training (b : bool) (o : module_obj) : module_obj :=
  ModuleObj b (mod_params o) (mod_grad o).
Definition set_grad (gr : option G) (o : module_obj) : module_obj :=
  ModuleObj (mod_training o) (mod_params o) gr.
Definition set_params (p : P) (o : module_obj) : module_obj :=
  ModuleObj (mod_training o) p (mod_grad o).

Variable ops : torch_ops.

(** One iteration of the loop of [train_one_epoch]; [ner_tagger] is the
    address the module-level name is bound to, [optimizer] the address of
    the module whose parameters the optimizer holds. *)
Definition train_step (ner_tagger : nat) (batch_size : nat) (order : list nat)
    (train_tokens train_tags : list (list string))
    (criterion : tensor num → tensor nat → result num)
    (optimizer : nat) (epoch : nat)
    (st : train_state) (batch_id : nat) : result train_state :=
  let n_samples := length train_tokens in
  let w := tr_world st in
  '(x_batch, y_batch, lengths, g) ←
    Batching.batch_at batch_size train_tokens train_tags order batch_id
                      (w_globals w);
  let x_batch := long x_batch in
  let y_batch := long y_batch in
  (* optimizer.zero_grad() *)
  let heap :=
    alter (λ o, set_grad (zero_grad ops (mod_grad o)) o) optimizer (w_heap w) in
  (* outputs = ner_tagger(x_batch).permute(0, 2, 1) *)
  match heap !! ner_tagger with
  | None => Raise (NameError "name 'ner_tagger' is not defined")
  | Some tagger_obj =>
      let log := (w_log w ++ [ForwardCall ner_tagger])%list in
      outputs ← forward (net ops (mod_training tagger_obj)
                                 (mod_params tagger_obj)) x_batch;
      outputs ← permute021 outputs;
      loss ← criterion outputs y_batch;
      (* loss.backward() *)
      let heap :=
        <[ner_tagger :=
            set_grad (grad_acc ops (mod_grad tagger_obj)
                        (grad_of ops (mod_training tagger_obj)
                                 (mod_params tagger_obj) x_batch y_batch))
                     tagger_obj]> heap in
      (* optimizer.step() *)
      let '(heap, opt) :=
        match heap !! optimizer with
        | Some o =>
            let '(p, s) := opt_step ops (w_opt w) (mod_params o) (mod_grad o) in
            (<[optimizer := set_params p o]> heap, s)
        | None => (heap, w_opt w)
        end in
      y_pred ← max_indices num_ltb 1 outputs;
      c ← Tensor.eq y_pred y_batch;
      width ← shape_at y_batch 1;
      let correct :=
        num_add (tr_correct st)
                (num_div (num_of_nat (Tensor.sum c)) (num_of_nat width)) in
      let running_loss := num_add (tr_running_loss st) loss in
      if batch_id mod 100 =? 99 then
        let log :=
          (log ++ [AddScalar "training loss"
                     (num_div running_loss (num_of_nat 100))
                     (epoch * (n_samples / batch_size) + batch_id)])%list in
        b ← shape_at x_batch 0;
        if n_samples / batch_size =? 0 then
          Raise (ZeroDivisionError "float division by zero")
        else
          let log :=
            (log ++ [TrainProgress epoch (batch_id * b) n_samples
                       (num_div (num_mul (num_of_nat 100) (num_of_nat batch_id))
                                (num_of_nat (n_samples / batch_size)))
                       (num_div running_loss (num_of_nat 100));
                     Flush])%list in
          Ok (TrainState correct (num_of_nat 0) (Some loss)
                         (World g heap opt log))
      else
        Ok (TrainState correct running_loss (Some loss) (World g heap opt log))
  end.

Fixpoint train_loop (ner_tagger : nat) (batch_size : nat) (order : list nat)
    (train_tokens train_tags : list (list string))
    (criterion : tensor num → tensor nat → result num)
    (optimizer : nat) (epoch : nat)
    (st : train_state) (ks : list nat) : result train_state :=
  match ks with
  | [] => Ok st
  | k :: ks' =>
      st' ← train_step ner_tagger batch_size order train_tokens train_tags
                       criterion optimizer epoch st k;
      train_loop ner_tagger batch_size order train_tokens train_tags
                 criterion optimizer epoch st' ks'
  end.

(** [train_one_epoch(model, train_tokens, train_tags, batch_size, criterion,
    optimizer, writer, epoch)]; [model] is the address of the module passed,
    [ner_tagger] the address bound to the module-level name, [perm] the
    permutation the generator draws. *)
Definition train_one_epoch (ner_tagger : nat) (perm : list nat)
    (model : nat) (train_tokens train_tags : list (list string))
    (batch_size : nat)
    (criterion : tensor num → tensor nat → result num)
    (optimizer : nat) (epoch : nat) (w : world) : result world :=
  let n_samples := length train_tokens in
  (* model.train() *)
  match w_heap w !! model with
  | None => Raise (Exn "AttributeError" "object has no attribute 'train'")
  | Some o =>
      let w := World (w_globals w) (<[model := set_training true o]> (w_heap w))
                     (w_opt w) (w_log w) in
      let st0 := TrainState (num_of_nat 0) (num_of_nat 0) None w in
      n_batches ← Batching.n_batches_of batch_size n_samples true;
      st ← train_loop ner_tagger batch_size
                      (Batching.order_of true perm n_samples)
                      train_tokens train_tags criterion optimizer epoch st0
                      (seq 0 n_batches);
      match tr_loss st with
      | None =>
          Raise (UnboundLocalError
                   "local variable 'loss' referenced before assignment")
      | Some loss =>
          let w := tr_world st in
          Ok (World (w_globals w) (w_heap w) (w_opt w)
                    (w_log w ++ [AddScalar "Train/Loss" loss epoch; Flush])%list)
      end
  end.

End Training.

(** ** Batches in closed form *)

(** A row: the ids, then the fill value up to width [w]. *)
Definition padded {A} (w : nat) (pad : A) (xs : list A) : list A :=
  xs ++ replicate (w - length xs) pad.

(** The ids a default dictionary gives a list of symbols. *)
Definition ids_of (d : gmap string nat) (ws : list string) : list nat :=
  Vocab.view d <$> ws.

(** Two states of the globals in which every subscript on [token2idx] and
    on [tag2idx] has the same value. *)
Definition same_views (g g' : globals) : Prop :=
  (∀ k, Vocab.view (token2idx g') k = Vocab.view (token2idx g) k)
  ∧ (∀ k, Vocab.view (tag2idx g') k = Vocab.view (tag2idx g) k).

(** [order[batch_start: batch_end]] for the [k]-th batch. *)
Definition batch_indices (batch_size n_samples : nat) (order : list nat)
    (k : nat) : list nat :=
  take (((k + 1) * batch_size) `min` n_samples - k * batch_size)
       (drop (k * batch_size) order).

(** The greatest sequence length among the sequences [idxs]. *)
Definition batch_width (tokens : list (list string)) (idxs : list nat) : nat :=
  max_list ((λ idx, length (tokens !!! idx)) <$> idxs).

(** The batch made of the sequences [idxs], in closed form. *)
Definition batch_of (tokens tags : list (list string)) (idxs : list nat)
    (g : globals) : Batching.batch :=
  let w := batch_width tokens idxs in
  (Tensor Int32 [length idxs; w]
     (concat (padded w (Vocab.view (token2idx g) "<PAD>")
              <$> ((λ idx, ids_of (token2idx g) (tokens !!! idx)) <$> idxs))),
   Tensor Int32 [length idxs; w]
     (concat (padded w (Vocab.view (tag2idx g) "O")
              <$> ((λ idx, ids_of (tag2idx g) (tags !!! idx)) <$> idxs))),
   Tensor Int32 [length idxs] ((λ idx, length (tokens !!! idx)) <$> idxs)).


(** ** Accuracy in closed form *)

(** [idx] is a multi-index into an array of shape [s]. *)
Definition in_range (idx s : list nat) : Prop := Forall2 (λ k d, k < d) idx s.

(** The multi-indices of a matrix, row by row. *)
Definition positions (b w : nat) : list (nat * nat) :=
  concat ((λ i, (λ j, (i, j)) <$> seq 0 w) <$> seq 0 b).

Section EvaluationSpec.
Context {num : Type} `{Scalar num}.

(** The tag the model decodes at position [j] of row [i] of the batch [x]:
    the first tag with the greatest score. *)
Definition predicted_tag (model : tagger num) (x : tensor nat) (i j : nat) : nat :=
  argmax num_ltb ((λ t, score_at model x [i; j; t]) <$> seq 0 (n_tags model)).

(** The number of positions of a [b] by [w] batch at which the decoded tag
    id equals the tag id in [y]. *)
Definition matches (model : tagger num) (x y : tensor nat) : nat :=
  length (filter (λ p, predicted_tag model x p.1 p.2 = get y [p.1; p.2])
                 (positions (shape y !!! 0) (shape y !!! 1))).

(** The share of a batch in the sum of [test_model]: its count of matching
    positions divided by its width. *)
Definition batch_term (model : tagger num) (b : Batching.batch) : num :=
  let '(x, y, _) := b in
  num_div (num_of_nat (matches model (long x) (long y)))
          (num_of_nat (shape y !!! 1)).

(** 100 × (sum over the batches of their shares) / (number of sequences) *)
Definition accuracy_of (model : tagger num) (bs : list Batching.batch)
    (n_sequences : nat) : num :=
  num_div (num_mul (num_of_nat 100)
                   (foldl num_add (num_of_nat 0) (batch_term model <$> bs)))
          (num_of_nat n_sequences).

End EvaluationSpec.

(** The [k]-th batch of the generator. *)
Definition nth_batch (batch_size : nat) (tokens tags : list (list string))
    (order : list nat) (g : globals) (k : nat) : Batching.batch :=
  batch_of tokens tags (batch_indices batch_size (length tokens) order k) g.

(** ** Comparing two runs of the training loop *)

(** Both results are exceptions, and the same one, or both are values, and
    related. *)
Definition rel_result {A} (R : A → A → Prop) (r1 r2 : result A) : Prop :=
  match r1, r2 with
  | Ok a1, Ok a2 => R a1 a2
  | Raise e1, Raise e2 => e1 = e2
  | _, _ => False
  end.

Section TrainingSpec.
Context {num : Type} `{Scalar num}.
Context {P G S : Type}.

(** Two worlds that differ at most in the object at address [model] and, when
    the optimizer holds the parameters of that object, in the state of the
    optimizer: same dictionaries, same output, same objects elsewhere. *)
Definition agree_off (model optimizer : nat) (w1 w2 : @world num P G S) : Prop :=
  w_globals w1 = w_globals w2
  ∧ w_log w1 = w_log w2
  ∧ (∀ l, l ≠ model → w_heap w1 !! l = w_heap w2 !! l)
  ∧ (is_Some (w_heap w1 !! model) ↔ is_Some (w_heap w2 !! model))
  ∧ (optimizer ≠ model → w_opt w1 = w_opt w2).

Definition agree_states (model optimizer : nat)
    (st1 st2 : @train_state num P G S) : Prop :=
  tr_correct st1 = tr_correct st2
  ∧ tr_running_loss st1 = tr_running_loss st2
  ∧ tr_loss st1 = tr_loss st2
  ∧ agree_off model optimizer (tr_world st1) (tr_world st2).

(** The world with the object at [model] replaced by [o]. *)
Definition replace_obj (model : nat) (o : @module_obj P G)
    (w : @world num P G S) : @world num P G S :=
  World (w_globals w) (<[model := o]> (w_heap w)) (w_opt w) (w_log w).

(** Every forward call recorded in [log] was made on the module at [callee]. *)
Definition forward_calls_on (callee : nat) (log : list (event num)) : Prop :=
  ∀ c, ForwardCall c ∈ log → c = callee.

End TrainingSpec.

(** ** More on the corpus reader *)

(** A token that [read_data] leaves as it is: no user mention, no URL. *)
Definition plain_token (token : string) : Prop :=
  PyStr.startswith token "@" = false
  ∧ PyStr.startswith token "http://" = false
  ∧ PyStr.startswith token "https://" = false.

(** What holds of the four lists of [read_data] after any number of lines. *)
Definition reader_invariant (st : Reader.state) : Prop :=
  Forall2 (λ t s : list string, length t = length s)
          (Reader.tokens st) (Reader.tags st)
  ∧ Forall (λ t : list string, t ≠ []) (Reader.tokens st)
  ∧ length (Reader.tweet_tokens st) = length (Reader.tweet_tags st)
  ∧ Forall (Forall plain_token) (Reader.tokens st)
  ∧ Forall plain_token (Reader.tweet_tokens st).

(** ** Writing a corpus file *)

(** A string without whitespace. *)
Fixpoint no_space (s : string) : bool :=
  match s with
  | EmptyString => true
  | String c s' => negb (PyStr.isspace c) && no_space s'
  end.

(** A string of whitespace only. *)
Fixpoint all_space (s : string) : bool :=
  match s with
  | EmptyString => true
  | String c s' => PyStr.isspace c && all_space s'
  end.

(** A token or tag as it stands in a corpus file. *)
Definition is_word (s : string) : Prop := s ≠ "" ∧ no_space s = true.

(** The lines of a corpus file holding the sentences [sents], one pair per
    line with [sep] between token and tag and [eol] at the end of every
    line, and a line holding only [eol] after every sentence. *)
Definition corpus_lines (sep eol : string)
    (sents : list (list (string * string))) : list string :=
  concat ((λ sent, ((λ p, p.1 +:+ sep +:+ p.2 +:+ eol) <$> sent) ++ [eol])
          <$> sents).

(** ** More on the vocabulary *)

(** The next free id is the number of symbols, and the ids in use are the
    numbers below it. *)
Definition dense_ids (st : Vocab.state) : Prop :=
  Vocab.index st = size (Vocab.tok2idx st)
  ∧ ∀ i, is_Some (Vocab.idx2tok st !! i) ↔ i < Vocab.index st.

(** ** The cells that call the predictor *)

(** The number of positions at which two id lists agree. *)
Definition matching_ids (decoded gold : list nat) : nat :=
  length (filter (λ p, p.1 = p.2) (zip decoded gold)).

Section Cells.
Context {num : Type} `{Scalar num}.

(** The ids that the tagger's scores decode to for [sentence] in the state
    [g]: at each position the first tag of greatest score. *)
Definition decoded (ner_tagger : tagger num) (sentence : list string)
    (g : globals) : list nat :=
  predicted_tag ner_tagger (unsqueeze0 (of_list (words2idxs sentence g).1)) 0
  <$> seq 0 (length sentence).

(** The loop of the evaluation cell,
    [for ii, sent in enumerate(test_tokens): if len(sent) > 1: ...];
    [sents] is the part of [test_tokens] from index [ii] on. *)
Fixpoint collect_predictions (ner_tagger : tagger num)
    (test_tags : list (list string)) (ii : nat) (sents : list (list string))
    (y_pred y_test : list (list string)) (g : globals)
  : result (list (list string) * list (list string) * globals) :=
  match sents with
  | [] => Ok (y_pred, y_test, g)
  | sent :: rest =>
      if 1 <? length sent then
        '(res, _, g) ← predict_sentence ner_tagger sent None 0 g;
        gold ← Batching.getitem test_tags ii;
        collect_predictions ner_tagger test_tags (S ii) rest
                            (y_pred ++ [res]) (y_test ++ [gold]) g
      else
        collect_predictions ner_tagger test_tags (S ii) rest y_pred y_test g
  end.

(** One round of the loop of the examples cell, for the drawn index [idx]:
    [sentence = test_tokens[idx]; true_tags = test_tags[idx];
     predict_sentence(sentence, tags=true_tags, verbosity=1)];
    the result carries what [predict_sentence] printed. *)
Definition show_example (ner_tagger : tagger num)
    (test_tokens test_tags : list (list string)) (idx : nat) (g : globals)
  : result (list string * list (event num) * globals) :=
  sentence ← Batching.getitem test_tokens idx;
  gold ← Batching.getitem test_tags idx;
  let g := Globals (token2idx g) (idx2token g) (tag2idx g) (idx2tag g)
                   (Some gold) in
  predict_sentence ner_tagger sentence (Some gold) 1 g.

End Cells.

(** ** What an epoch of training leaves alone *)

Section TrainingFrame.
Context {num : Type} `{Scalar num}.
Context {P G S : Type}.

(** The object [o'] found at address [l] after a run that found [o] there:
    its mode is [mode o], its parameters are those of [o] unless the
    optimizer holds them, and its gradient is that of [o] unless [l] is the
    module the forward pass runs on or the one the optimizer holds. *)
Definition kept (ner_tagger optimizer : nat) (mode : @module_obj P G → bool)
    (l : nat) (o o' : @module_obj P G) : Prop :=
  mod_training o' = mode o
  ∧ (l ≠ optimizer → mod_params o' = mod_params o)
  ∧ (l ≠ ner_tagger → l ≠ optimizer → mod_grad o' = mod_grad o).

(** The same addresses are in use in both heaps, and every object is [kept];
    [mode l] gives the mode of the object at [l] afterwards. *)
Definition heap_frame (ner_tagger optimizer : nat)
    (mode : nat → @module_obj P G → bool)
    (h h' : gmap nat (@module_obj P G)) : Prop :=
  ∀ l, option_Forall2 (kept ner_tagger optimizer (mode l) l) (h !! l) (h' !! l).

(** Every object in the mode it was in. *)
Definition same_mode (l : nat) (o : @module_obj P G) : bool := mod_training o.

(** The mode [train_one_epoch] leaves: training for [model], as before for
    every other object. *)
Definition mode_after (model : nat) (l : nat) (o : @module_obj P G) : bool :=
  if decide (l = model) then true else mod_training o.

End TrainingFrame.

(** A record of a forward pass. *)
Definition is_forward_call {num} (e : event num) : bool :=
  match e with
  | ForwardCall _ => true
  | _ => false
  end.

(** ** Training over several epochs: [train_model] *)

Section Session.
Context {num : Type} `{Scalar num}.
Context {P G S : Type}.
Variable ops : @torch_ops num P G S.

(** [test_model(model, tokens, tags, criterion, writer, device, epoch)] on
    the module at address [model]: [model.eval()], then the loop on the
    function the module computes in evaluation mode.  What is printed and
    sent to the writer is added to the output of the world. *)
Definition test_model_at (batch_size : nat) (perm : list nat) (model : nat)
    (tokens tags : list (list string))
    (criterion : tensor num → tensor nat → result num)
    (writer : bool) (epoch : nat) (w : @world num P G S)
  : result (num * @world num P G S) :=
  match w_heap w !! model with
  | None => Raise (Exn "AttributeError" "object has no attribute 'eval'")
  | Some o =>
      let o := set_training false o in
      '(accuracy, out, g) ←
        test_model batch_size perm (net ops false (mod_params o)) tokens tags
                   criterion writer epoch (w_globals w);
      Ok (accuracy,
          World g (<[model := o]> (w_heap w)) (w_opt w) (w_log w ++ out)%list)
  end.

(** A call of [torch.save(model, ...)]: the epoch, the accuracy that caused
    it and the object written. *)
Record checkpoint := Checkpoint {
  ck_epoch : nat;
  ck_accuracy : num;
  ck_object : option (@module_obj P G)
}.

(** The local [best_acc] of [train_model], the calls of [torch.save] so far
    and the world. *)
Record session := Session {
  best_acc : num;
  saved : list checkpoint;
  s_world : @world num P G S
}.

(** One iteration of the loop of [train_model].  [batch_size] is the
    argument, [eval_batch_size] the module-level batch size that
    [test_model] reads; [perm_train] and [perm_test] give the permutations
    the two generators draw in each epoch.  The line printed at the start
    of the epoch and [writer.close()] are left out. *)
Definition train_epoch (ner_tagger eval_batch_size : nat)
    (perm_train perm_test : nat → list nat) (model : nat)
    (train_tokens train_tags validation_tokens validation_tags
       : list (list string))
    (batch_size : nat)
    (criterion : tensor num → tensor nat → result num)
    (optimizer : nat) (st : session) (epoch : nat) : result session :=
  w ← train_one_epoch ops ner_tagger (perm_train epoch) model train_tokens
                      train_tags batch_size criterion optimizer epoch
                      (s_world st);
  '(acc, w) ← test_model_at eval_batch_size (perm_test epoch) model
                            validation_tokens validation_tags criterion true
                            epoch w;
  if num_ltb (best_acc st) acc then
    Ok (Session acc
                (saved st ++ [Checkpoint epoch acc (w_heap w !! model)])%list
                w)
  else Ok (Session (best_acc st) (saved st) w).

Fixpoint train_epochs (ner_tagger eval_batch_size : nat)
    (perm_train perm_test : nat → list nat) (model : nat)
    (train_tokens train_tags validation_tokens validation_tags
       : list (list string))
    (batch_size : nat)
    (criterion : tensor num → tensor nat → result num)
    (optimizer : nat) (st : session) (epochs : list nat) : result session :=
  match epochs with
  | [] => Ok st
  | epoch :: epochs' =>
      st' ← train_epoch ner_tagger eval_batch_size perm_train perm_test model
                        train_tokens train_tags validation_tokens
                        validation_tags batch_size criterion optimizer st
                        epoch;
      train_epochs ner_tagger eval_batch_size perm_train perm_test model
                   train_tokens train_tags validation_tokens validation_tags
                   batch_size criterion optimizer st' epochs'
  end.

(** [train_model(model, train_tokens, train_tags, validation_tokens,
    validation_tags, batch_size, criterion, optimizer, writer, n_epochs)] *)
Definition train_model (ner_tagger eval_batch_size : nat)
    (perm_train perm_test : nat → list nat) (model : nat)
    (train_tokens train_tags validation_tokens validation_tags
       : list (list string))
    (batch_size : nat)
    (criterion : tensor num → tensor nat → result num)
    (optimizer : nat) (n_epochs : nat) (w : @world num P G S)
  : result session :=
  train_epochs ner_tagger eval_batch_size perm_train perm_test model
               train_tokens train_tags validation_tokens validation_tags
               batch_size criterion optimizer
               (Session (num_of_nat 0) [] w) (seq 0 n_epochs).

(** Each accuracy of [cks] is greater than the one before it, the first
    greater than [best]. *)
Fixpoint improving (best : num) (cks : list checkpoint) : Prop :=
  match cks with
  | [] => True
  | ck :: cks' =>
      num_ltb best (ck_accuracy ck) = true ∧ improving (ck_accuracy ck) cks'
  end.

(** The epochs of [cks] increase, from [first] or later. *)
Fixpoint ascending (first : nat) (cks : list checkpoint) : Prop :=
  match cks with
  | [] => True
  | ck :: cks' => first ≤ ck_epoch ck ∧ ascending (ck_epoch ck + 1) cks'
  end.

(** The accuracy of the last checkpoint, [best] when there is none. *)
Definition last_accuracy (best : num) (cks : list checkpoint) : num :=
  default best (ck_accuracy <$> last cks).

(** What the loop keeps true of the checkpoints. *)
Definition session_ok (bound : nat) (st : session) : Prop :=
  best_acc st = last_accuracy (num_of_nat 0) (saved st)
  ∧ improving (num_of_nat 0) (saved st)
  ∧ Forall (λ ck, ck_epoch ck < bound) (saved st)
  ∧ ascending 0 (saved st).

End Session.

(** * Sample data *)

Definition nl : string := String (Ascii.ascii_of_nat 10) EmptyString.
Definition tab : string := String (Ascii.ascii_of_nat 9) EmptyString.

(** The dictionaries of a corpus with the single training sentence
    [hello/O]. *)
Definition sample_globals : globals := make_globals [["hello"]] [] [["O"]].

(** Exact rational arithmetic as an instance of [Scalar]. *)
Global Instance Q_scalar : Scalar Q := {|
  num_inhabited := populate 0%Q;
  num_ltb a b := negb (Qle_bool b a);
  num_add := Qplus;
  num_mul := Qmult;
  num_div := Qdiv;
  num_of_nat n := inject_Z (Z.of_nat n)
|}.

(** A tagger with two tags that scores tag 0 highest at every position. *)
Definition always_outside : tagger Q :=
  Tagger 2 (λ _ m, match m with [_; _; 0] => 1%Q | _ => 0%Q end).

(** The state of the notebook when the examples cell runs: dictionaries of a
    two-token corpus, and [true_tags] bound to the tags of some sentence. *)
Definition bind_true_tags (gold : list string) (g : globals) : globals :=
  Globals (token2idx g) (idx2token g) (tag2idx g) (idx2tag g) (Some gold).

Definition example_globals : globals :=
  bind_true_tags ["O"; "O"]
    (make_globals [["hello"; "world"]] [] [["B-PER"; "O"]]).

(** The count the specification describes: positions at which the decoded
    tag equals the entry of the supplied [tags] argument. *)
Definition matching_positions (decoded supplied : list string) : nat :=
  length (filter (λ p, p.1 = p.2) (zip decoded supplied)).

(** Result and output of [predict_sentence], without the final globals. *)
Definition visible {num} (r : result (list string * list (event num) * globals))
  : result (list string * list (event num)) :=
  '(res, out, _) ← r; Ok (res, out).

(** Three sequences of lengths 2, 5 and 3. *)
Definition tokens3 : list (list string) :=
  [["hello"; "world"]; ["a"; "b"; "c"; "d"; "e"]; ["hello"; "a"; "world"]].
Definition tags3 : list (list string) :=
  [["O"; "B-PER"]; ["O"; "O"; "O"; "O"; "O"]; ["O"; "O"; "B-PER"]].

(** A criterion that puts every loss at zero. *)
Definition zero_loss : tensor Q → tensor nat → result Q := λ _ _, Ok 0%Q.

(** A toy numeric library: a parameter value [p] makes the module score tag
    [p] highest; every gradient is 1 and a step adds the gradient. *)
Definition sample_ops : @torch_ops Q nat nat nat :=
  TorchOps
    (λ _ p, Tagger 2 (λ _ m, match m with
                             | [_; _; t] => if t =? p then 1%Q else 0%Q
                             | _ => 0%Q
                             end))
    (λ _ _ _ _, 1)
    (λ og gr, Some (default 0 og + gr))
    (λ _, None)
    (λ s p og, (p + default 0 og, S s)).

(** Two modules, at addresses 0 and 1; nothing printed yet. *)
Definition sample_world : @world Q nat nat nat :=
  World example_globals
        {[0 := ModuleObj false 0 None; 1 := ModuleObj false 0 None]}
        0 [].

(** * Properties *)

(** ** Corpus reader *)

Example read_data_scenario :
  Reader.read_data
    ["Ian" +:+ tab +:+ "B-PER" +:+ nl; "Goodfellow" +:+ tab +:+ "I-PER" +:+ nl;
     "works" +:+ tab +:+ "O" +:+ nl; "for" +:+ tab +:+ "O" +:+ nl;
     "Google" +:+ tab +:+ "B-ORG" +:+ nl; "Brain" +:+ tab +:+ "I-ORG" +:+ nl; nl]
  = Ok ([["Ian"; "Goodfellow"; "works"; "for"; "Google"; "Brain"]],
        [["B-PER"; "I-PER"; "O"; "O"; "B-ORG"; "I-ORG"]]).
Proof. vm_compute. reflexivity. Qed.

Example read_data_normalizes :
  Reader.read_data ["@bob O" +:+ nl; "https://x.y O" +:+ nl; "http://x O"; ""]
  = Ok ([["<USR>"; "<URL>"; "<URL>"]], [["O"; "O"; "O"]]).
Proof. vm_compute. reflexivity. Qed.

Module ReaderFacts.
Import Reader.

Lemma loop_app st l1 l2 :
  loop st (l1 ++ l2) = (st' ← loop st l1; loop st' l2).
Proof.
  revert st. induction l1 as [|l l1 IH]; intros st; simpl; [done|].
  destruct (step st l) as [st'|e]; simpl; [apply IH | done].
Qed.

(** A line with two fields extends the open tweet and leaves the emitted
    sequences alone. *)
Lemma step_two_fields st line :
  blank line = false → two_fields line = true →
  ∃ token tag,
    step st line = Ok (State (tokens st) (tags st)
                             (tweet_tokens st ++ [token])
                             (tweet_tags st ++ [tag])).
Proof.
  unfold blank, two_fields, step. intros Hb Ht.
  apply negb_false_iff in Hb. rewrite Hb. simpl.
  apply Nat.eqb_eq in Ht.
  destruct (PyStr.split (PyStr.strip line)) as [|a [|b [|c fs]]]; try done.
  simpl. eauto.
Qed.

Lemma step_blank st line :
  blank line = true → ∃ st', step st line = Ok st'.
Proof.
  unfold blank, step. intros ->. destruct (tweet_tokens st); eauto.
Qed.

Lemma step_well_formed st line :
  well_formed line = true → ∃ st', step st line = Ok st'.
Proof.
  unfold well_formed. intros Hw.
  destruct (blank line) eqn:Hb.
  - by apply step_blank.
  - simpl in Hw. destruct (step_two_fields st line Hb Hw) as (?&?&->). eauto.
Qed.

Lemma loop_well_formed lines : ∀ st,
  Forall (λ l, well_formed l = true) lines → ∃ st', loop st lines = Ok st'.
Proof.
  induction lines as [|l lines IH]; intros st Hall; simpl; [eauto|].
  inversion Hall as [|? ? Hl Hrest]; subst.
  destruct (step_well_formed st l Hl) as [st1 ->]. simpl. by apply IH.
Qed.

Lemma step_malformed st line :
  blank line = false → two_fields line = false →
  step st line
  = Raise (unpack_error (length (PyStr.split (PyStr.strip line)))).
Proof.
  unfold blank, two_fields, step. intros Hb Ht.
  apply negb_false_iff in Hb. rewrite Hb. simpl.
  apply Nat.eqb_neq in Ht.
  destruct (PyStr.split (PyStr.strip line)) as [|a [|b [|c fs]]]; done.
Qed.

(** Lines of a block that has not been closed by a blank line change
    neither of the lists the function returns. *)
Lemma loop_open_block block : ∀ st,
  Forall (λ l, blank l = false ∧ two_fields l = true) block →
  ∃ st', loop st block = Ok st' ∧ tokens st' = tokens st ∧ tags st' = tags st.
Proof.
  induction block as [|l block IH]; intros st Hall; simpl; [eauto|].
  inversion Hall as [|? ? [Hb Ht] Hrest]; subst.
  destruct (step_two_fields st l Hb Ht) as (tok & tg & ->). simpl.
  match goal with |- context [loop ?s block] =>
    destruct (IH s Hrest) as (st' & -> & Htok & Htag) end.
  eauto.
Qed.

Lemma read_data_open_block pre block :
  is_ok (read_data pre) = true →
  Forall (λ l, blank l = false ∧ two_fields l = true) block →
  read_data (pre ++ block) = read_data pre.
Proof.
  unfold read_data. rewrite loop_app. intros Hok Hall.
  destruct (loop init pre) as [st|e]; [|done]. simpl.
  destruct (loop_open_block block st Hall) as (st' & Hl & Htok & Htag).
  rewrite Hl. simpl. by rewrite Htok, Htag.
Qed.

End ReaderFacts.

(** C1.  The specification wants a final block that no blank line follows to
    be emitted.  [read_data] returns [tokens, tags] straight after the loop,
    so on the one-line file ["Ian B-PER"] the block is lost: both lists are
    empty. *)
Theorem read_data_trailing_block_lost :
  Reader.read_data ["Ian B-PER"] = Ok ([], []).
Proof. vm_compute. reflexivity. Qed.

(** C9, as stated, fails: the one-field line ["lonely"] does not make
    [read_data] raise a ParseError naming the line. *)
Lemma read_data_no_parse_error :
  ¬ Reader.reports_parse_error "lonely" (Reader.read_data ["lonely"]).
Proof. intros (msg & Heq & _). vm_compute in Heq. discriminate. Qed.

(** C9, amended.  When the first line that is neither blank nor made of
    exactly two fields is reached, [read_data] aborts with the [ValueError]
    of the tuple unpacking; the exception depends on the number of fields
    only. *)
Theorem read_data_malformed_line (pre post : list string) (line : string) :
  Forall (λ l, Reader.well_formed l = true) pre →
  Reader.blank line = false →
  Reader.two_fields line = false →
  Reader.read_data (pre ++ line :: post)
  = Raise (Reader.unpack_error (length (PyStr.split (PyStr.strip line))))
  ∧ exn_class (Reader.unpack_error (length (PyStr.split (PyStr.strip line))))
    = "ValueError".
Proof.
  intros Hpre Hb Ht. split.
  - unfold Reader.read_data. rewrite ReaderFacts.loop_app.
    destruct (ReaderFacts.loop_well_formed pre Reader.init Hpre) as [st ->].
    simpl. by rewrite (ReaderFacts.step_malformed st line Hb Ht).
  - unfold Reader.unpack_error. by destruct (_ <? 2).
Qed.

Lemma read_data_malformed_line_witness :
  Reader.read_data (["a O"] ++ "x y z" :: ["b O"])
  = Raise (Reader.unpack_error (length (PyStr.split (PyStr.strip "x y z"))))
  ∧ exn_class (Reader.unpack_error (length (PyStr.split (PyStr.strip "x y z"))))
    = "ValueError".
Proof.
  apply (read_data_malformed_line ["a O"] ["b O"] "x y z").
  - repeat constructor.
  - reflexivity.
  - reflexivity.
Defined.

(** ** Vocabulary *)

Module VocabFacts.
Import Vocab.

Lemma consistent_init : consistent init.
Proof. split; intros *; simpl; rewrite ?lookup_empty; naive_solver. Qed.

(** Recording a symbol that has no id yet under the next free id. *)
Lemma consistent_fresh st tok :
  consistent st → tok2idx st !! tok = None →
  consistent (State (<[tok := index st]> (tok2idx st))
                    (<[index st := tok]> (idx2tok st))
                    (S (index st))).
Proof.
  intros [Hmirror Hbound] Hfresh.
  assert (idx2tok st !! index st = None) as Hfree.
  { destruct (idx2tok st !! index st) as [s|] eqn:E; [|done].
    apply Hbound in E. lia. }
  split; simpl.
  - intros s i. rewrite !lookup_insert.
    destruct (decide (tok = s)) as [->|Hs], (decide (index st = i)) as [<-|Hi].
    + done.
    + split; [intros [=]; done|].
      intros E. apply Hmirror in E. congruence.
    + split; [|intros [=]; done].
      intros E. apply Hmirror in E. congruence.
    + apply Hmirror.
  - intros i s. rewrite lookup_insert.
    destruct (decide (index st = i)) as [<-|Hi]; [lia|].
    intros E. apply Hbound in E. lia.
Qed.

Lemma consistent_add_tok st tok : consistent st → consistent (add_tok st tok).
Proof.
  intros Hc. unfold add_tok.
  destruct (tok2idx st !! tok) eqn:E; [done|]. by apply consistent_fresh.
Qed.

Lemma consistent_add_special st tok :
  consistent st → tok2idx st !! tok = None → consistent (add_special st tok).
Proof. intros. by apply consistent_fresh. Qed.

(** Keys of the symbol dictionary after the loops. *)
Lemma add_special_keys st tok s :
  is_Some (tok2idx (add_special st tok) !! s)
  ↔ s = tok ∨ is_Some (tok2idx st !! s).
Proof.
  simpl. rewrite lookup_insert.
  destruct (decide (tok = s)) as [->|Hne].
  - split; eauto.
  - split; [eauto|]. intros [->|?]; done.
Qed.

Lemma add_tok_keys st tok s :
  is_Some (tok2idx (add_tok st tok) !! s)
  ↔ s = tok ∨ is_Some (tok2idx st !! s).
Proof.
  unfold add_tok. destruct (tok2idx st !! tok) eqn:E.
  - split; [eauto|]. intros [->|?]; [by rewrite E|done].
  - apply (add_special_keys st tok s).
Qed.

Lemma specials_keys specials : ∀ st s,
  is_Some (tok2idx (foldl add_special st specials) !! s)
  ↔ s ∈ specials ∨ is_Some (tok2idx st !! s).
Proof.
  induction specials as [|t specials IH]; intros st s; simpl.
  - rewrite elem_of_nil. naive_solver.
  - rewrite IH, add_special_keys, elem_of_cons. naive_solver.
Qed.

Lemma seq_keys seq : ∀ st s,
  is_Some (tok2idx (foldl add_tok st seq) !! s)
  ↔ s ∈ seq ∨ is_Some (tok2idx st !! s).
Proof.
  induction seq as [|t seq IH]; intros st s; simpl.
  - rewrite elem_of_nil. naive_solver.
  - rewrite IH, add_tok_keys, elem_of_cons. naive_solver.
Qed.

Lemma seqs_keys seqs : ∀ st s,
  is_Some (tok2idx (foldl (foldl add_tok) st seqs) !! s)
  ↔ (∃ seq, seq ∈ seqs ∧ s ∈ seq) ∨ is_Some (tok2idx st !! s).
Proof.
  induction seqs as [|q seqs IH]; intros st s; simpl.
  - setoid_rewrite elem_of_nil. naive_solver.
  - rewrite IH, seq_keys. setoid_rewrite elem_of_cons. naive_solver.
Qed.

Lemma build_state_keys seqs specials s :
  is_Some (tok2idx (build_state seqs specials) !! s)
  ↔ s ∈ specials ∨ ∃ seq, seq ∈ seqs ∧ s ∈ seq.
Proof.
  unfold build_state. rewrite seqs_keys, specials_keys. simpl.
  rewrite lookup_empty. split; [|naive_solver].
  intros [?|[?|[? [=]]]]; eauto.
Qed.

Lemma consistent_specials specials : ∀ st,
  consistent st → NoDup specials →
  (∀ s, s ∈ specials → tok2idx st !! s = None) →
  consistent (foldl add_special st specials).
Proof.
  induction specials as [|t specials IH]; intros st Hc Hnd Hfresh; simpl;
    [done|].
  apply NoDup_cons in Hnd as [Hnotin Hnd].
  apply IH; [|done|].
  - apply consistent_add_special; [done|]. apply Hfresh. by left.
  - intros s Hs. simpl. rewrite lookup_insert_ne.
    + apply Hfresh. by right.
    + intros ->. done.
Qed.

Lemma consistent_seq seq : ∀ st,
  consistent st → consistent (foldl add_tok st seq).
Proof.
  induction seq as [|t seq IH]; intros st Hc; simpl; [done|].
  by apply IH, consistent_add_tok.
Qed.

Lemma consistent_seqs seqs : ∀ st,
  consistent st → consistent (foldl (foldl add_tok) st seqs).
Proof.
  induction seqs as [|q seqs IH]; intros st Hc; simpl; [done|].
  by apply IH, consistent_seq.
Qed.

Lemma consistent_build seqs specials :
  NoDup specials → consistent (build_state seqs specials).
Proof.
  intros Hnd. apply consistent_seqs, consistent_specials; [|done|].
  - apply consistent_init.
  - intros. apply lookup_empty.
Qed.

(** Entries are never overwritten by the corpus scan. *)
Lemma add_tok_keeps st tok s i :
  tok2idx st !! s = Some i → tok2idx (add_tok st tok) !! s = Some i.
Proof.
  intros Hs. unfold add_tok. destruct (tok2idx st !! tok) eqn:E; [done|].
  simpl. rewrite lookup_insert_ne; [done|]. intros ->. congruence.
Qed.

Lemma seq_keeps seq : ∀ st s i,
  tok2idx st !! s = Some i → tok2idx (foldl add_tok st seq) !! s = Some i.
Proof.
  induction seq as [|t seq IH]; intros st s i Hs; simpl; [done|].
  by apply IH, add_tok_keeps.
Qed.

Lemma seqs_keeps seqs : ∀ st s i,
  tok2idx st !! s = Some i →
  tok2idx (foldl (foldl add_tok) st seqs) !! s = Some i.
Proof.
  induction seqs as [|q seqs IH]; intros st s i Hs; simpl; [done|].
  by apply IH, seq_keeps.
Qed.

Lemma dd_getitem_fst d k : (dd_getitem d k).1 = view d k.
Proof. unfold dd_getitem, view. by destruct (d !! k). Qed.

Lemma dd_getitem_snd_lookup d k k' :
  (dd_getitem d k).2 !! k'
  = if decide (k = k' ∧ d !! k = None) then Some 0 else d !! k'.
Proof.
  unfold dd_getitem. destruct (d !! k) eqn:E; simpl.
  - rewrite decide_False; [done|]. naive_solver.
  - rewrite lookup_insert. destruct (decide (k = k')) as [->|Hne].
    + by rewrite decide_True.
    + rewrite decide_False; [done|]. naive_solver.
Qed.

Lemma dd_getitem_view d k k' : view (dd_getitem d k).2 k' = view d k'.
Proof.
  unfold view. rewrite dd_getitem_snd_lookup.
  case_decide as Hc; [|done]. destruct Hc as [-> ->]. done.
Qed.

Lemma dd_getitems_fst ks : ∀ d, (dd_getitems d ks).1 = view d <$> ks.
Proof.
  induction ks as [|k ks IH]; intros d; simpl; [done|].
  pose proof (dd_getitem_fst d k) as Hf.
  pose proof (dd_getitem_view d k) as Hv.
  destruct (dd_getitem d k) as [v d1]. simpl in *.
  specialize (IH d1). destruct (dd_getitems d1 ks) as [vs d2]. simpl in *.
  subst. f_equal. apply list_fmap_ext. intros; apply Hv.
Qed.

Lemma dd_getitems_snd_lookup ks : ∀ d k',
  (dd_getitems d ks).2 !! k'
  = match d !! k' with
    | Some v => Some v
    | None => if decide (k' ∈ ks) then Some 0 else None
    end.
Proof.
  induction ks as [|k ks IH]; intros d k'; cbn [dd_getitems].
  - cbn [snd]. destruct (d !! k'); [done|]. rewrite decide_False; [done|].
    apply not_elem_of_nil.
  - pose proof (dd_getitem_snd_lookup d k k') as Hs.
    destruct (dd_getitem d k) as [v d1]. cbn [snd] in Hs.
    specialize (IH d1 k'). destruct (dd_getitems d1 ks) as [vs d2].
    cbn [snd] in *. rewrite IH, Hs. clear IH Hs.
    destruct (decide (k = k' ∧ d !! k = None)) as [[-> Hn]|Hc].
    + rewrite Hn. rewrite decide_True; [done|]. by left.
    + destruct (d !! k') eqn:E; [done|].
      destruct (decide (k' ∈ ks)) as [Hin|Hnin].
      * rewrite decide_True; [done|]. by right.
      * rewrite decide_False; [done|]. rewrite elem_of_cons.
        intros [->|?]; [|done]. apply Hc. done.
Qed.

Lemma dd_getitems_view ks d k' : view (dd_getitems d ks).2 k' = view d k'.
Proof.
  unfold view. rewrite dd_getitems_snd_lookup.
  destruct (d !! k'); [done|]. by case_decide.
Qed.

End VocabFacts.

Lemma words2idxs_ids ws g :
  (words2idxs ws g).1 = Vocab.view (token2idx g) <$> ws.
Proof.
  unfold words2idxs. pose proof (VocabFacts.dd_getitems_fst ws (token2idx g)).
  by destruct (Vocab.dd_getitems (token2idx g) ws).
Qed.

Lemma words2idxs_globals ws g :
  (words2idxs ws g).2
  = set_token2idx (Vocab.dd_getitems (token2idx g) ws).2 g.
Proof.
  unfold words2idxs. by destruct (Vocab.dd_getitems (token2idx g) ws).
Qed.

Lemma tags2idxs_ids ws g :
  (tags2idxs ws g).1 = Vocab.view (tag2idx g) <$> ws.
Proof.
  unfold tags2idxs. pose proof (VocabFacts.dd_getitems_fst ws (tag2idx g)).
  by destruct (Vocab.dd_getitems (tag2idx g) ws).
Qed.

Lemma tags2idxs_globals ws g :
  (tags2idxs ws g).2 = set_tag2idx (Vocab.dd_getitems (tag2idx g) ws).2 g.
Proof.
  unfold tags2idxs. by destruct (Vocab.dd_getitems (tag2idx g) ws).
Qed.

Example build_dict_scenario :
  Vocab.build_dict [["hello"]] ["<UNK>"; "<PAD>"]
  = ({["<UNK>" := 0; "<PAD>" := 1; "hello" := 2]},
     {[0 := "<UNK>"; 1 := "<PAD>"; 2 := "hello"]}).
Proof. vm_compute. reflexivity. Qed.

(** C7.  When the reserved list has no duplicates, every reserved symbol and
    every corpus symbol [s] has an id [i] with [idx2tok[i] = s], and the two
    dictionaries [build_dict] returns are inverse to each other. *)
Theorem build_dict_round_trip (seqs : list (list string))
    (specials : list string) :
  NoDup specials →
  (∀ s, s ∈ specials ∨ (∃ seq, seq ∈ seqs ∧ s ∈ seq) →
        ∃ i, (Vocab.build_dict seqs specials).1 !! s = Some i
             ∧ (Vocab.build_dict seqs specials).2 !! i = Some s)
  ∧ (∀ s i, (Vocab.build_dict seqs specials).1 !! s = Some i
            ↔ (Vocab.build_dict seqs specials).2 !! i = Some s).
Proof.
  intros Hnd. destruct (VocabFacts.consistent_build seqs specials Hnd)
    as [Hmirror _].
  split; [|exact Hmirror].
  intros s Hs. apply VocabFacts.build_state_keys in Hs as [i Hi].
  exists i. split; [exact Hi|]. by apply Hmirror.
Qed.

Lemma build_dict_round_trip_witness :
  (∀ s, s ∈ ["<UNK>"; "<PAD>"]
        ∨ (∃ seq, seq ∈ [["hello"; "world"]; ["hello"]] ∧ s ∈ seq) →
        ∃ i, (Vocab.build_dict [["hello"; "world"]; ["hello"]]
                               ["<UNK>"; "<PAD>"]).1 !! s = Some i
             ∧ (Vocab.build_dict [["hello"; "world"]; ["hello"]]
                                 ["<UNK>"; "<PAD>"]).2 !! i = Some s)
  ∧ (∀ s i, (Vocab.build_dict [["hello"; "world"]; ["hello"]]
                              ["<UNK>"; "<PAD>"]).1 !! s = Some i
            ↔ (Vocab.build_dict [["hello"; "world"]; ["hello"]]
                                ["<UNK>"; "<PAD>"]).2 !! i = Some s).
Proof.
  apply (build_dict_round_trip [["hello"; "world"]; ["hello"]]
                               ["<UNK>"; "<PAD>"]).
  refine (bool_decide_unpack _ _). vm_compute. exact I.
Defined.

(** C8.  With the dictionary built by the notebook ([<UNK>] reserved first),
    and after any earlier lookups, a token that was given no id during the
    construction is mapped by [words2idxs] to 0, the id of [<UNK>];
    [words2idxs] has no failing case. *)
Theorem words2idxs_unknown_token (seqs : list (list string)) (g : globals)
    (earlier : list string) (t : string) (ws : list string) (i : nat) :
  token2idx g
  = (Vocab.dd_getitems (Vocab.build_dict seqs special_tokens).1 earlier).2 →
  t ∉ special_tokens →
  (∀ seq, seq ∈ seqs → t ∉ seq) →
  ws !! i = Some t →
  (words2idxs ws g).1 !! i = Some 0 ∧ token2idx g !! "<UNK>" = Some 0.
Proof.
  intros Hg Hspecial Hcorpus Hi. split.
  - rewrite words2idxs_ids, list_lookup_fmap, Hi. cbn. f_equal.
    rewrite Hg, VocabFacts.dd_getitems_view. unfold Vocab.view.
    destruct ((Vocab.build_dict seqs special_tokens).1 !! t) as [j|] eqn:E;
      [|done].
    assert (is_Some (Vocab.tok2idx (Vocab.build_state seqs special_tokens) !! t))
      as Hsome by (eexists; exact E).
    apply VocabFacts.build_state_keys in Hsome as [?|(seq & ? & ?)]; [done|].
    by destruct (Hcorpus seq).
  - rewrite Hg, VocabFacts.dd_getitems_snd_lookup.
    assert ((Vocab.build_dict seqs special_tokens).1 !! "<UNK>" = Some 0) as ->;
      [|done].
    apply VocabFacts.seqs_keeps. vm_compute. reflexivity.
Qed.

Lemma words2idxs_unknown_token_witness :
  (words2idxs ["hello"; "world"] sample_globals).1 !! 1 = Some 0
  ∧ token2idx sample_globals !! "<UNK>" = Some 0.
Proof.
  apply (words2idxs_unknown_token [["hello"]] sample_globals [] "world"
                                  ["hello"; "world"] 1).
  - vm_compute. reflexivity.
  - refine (bool_decide_unpack _ _). vm_compute. exact I.
  - intros seq Hseq. apply list_elem_of_singleton in Hseq. subst.
    refine (bool_decide_unpack _ _). vm_compute. exact I.
  - reflexivity.
Defined.

(** C3, as stated, fails: after the dictionaries are built, looking up the
    absent token ["world"] in [words2idxs] enlarges the key set of
    [token2idx]. *)
Lemma lookup_enlarges_vocabulary :
  dom (token2idx (words2idxs ["world"] sample_globals).2)
  ≠ dom (token2idx sample_globals).
Proof.
  intros Heq.
  assert ("world" ∈ dom (token2idx (words2idxs ["world"] sample_globals).2))
    as Hin.
  { apply elem_of_dom. vm_compute. eauto. }
  rewrite Heq in Hin. apply elem_of_dom in Hin. vm_compute in Hin.
  by destruct Hin.
Qed.

(** C3, amended.  A lookup by [words2idxs] never changes the id of a symbol
    that has one and never touches the other three dictionaries; a symbol
    without an id is added with id 0 exactly when it is looked up; if every
    symbol looked up has an id, [token2idx] is unchanged. *)
Theorem words2idxs_frame (ws : list string) (g : globals) :
  idx2token (words2idxs ws g).2 = idx2token g
  ∧ tag2idx (words2idxs ws g).2 = tag2idx g
  ∧ idx2tag (words2idxs ws g).2 = idx2tag g
  ∧ (∀ s i, token2idx g !! s = Some i →
            token2idx (words2idxs ws g).2 !! s = Some i)
  ∧ (∀ s, token2idx g !! s = None →
          token2idx (words2idxs ws g).2 !! s
          = if decide (s ∈ ws) then Some 0 else None)
  ∧ ((∀ s, s ∈ ws → is_Some (token2idx g !! s)) →
     token2idx (words2idxs ws g).2 = token2idx g).
Proof.
  rewrite words2idxs_globals. simpl. repeat split.
  - intros s i Hs. by rewrite VocabFacts.dd_getitems_snd_lookup, Hs.
  - intros s Hs. by rewrite VocabFacts.dd_getitems_snd_lookup, Hs.
  - intros Hall. apply map_eq. intros s.
    rewrite VocabFacts.dd_getitems_snd_lookup.
    destruct (token2idx g !! s) eqn:E; [done|].
    case_decide as Hin; [|done]. apply Hall in Hin. rewrite E in Hin.
    by destruct Hin.
Qed.

(** ** Batch generator *)

Lemma padded_length {A} w (pad : A) xs : length xs ≤ w → length (padded w pad xs) = w.
Proof. intros. unfold padded. rewrite length_app, length_replicate. lia. Qed.

Lemma concat_rows_length {A} w (rows : list (list A)) :
  Forall (λ r, length r = w) rows → length (concat rows) = length rows * w.
Proof.
  induction 1 as [|r rows Hr _ IH]; simpl; [done|].
  rewrite length_app, IH, Hr. lia.
Qed.

Lemma row_concat {A} w (rows : list (list A)) i r :
  Forall (λ r, length r = w) rows → rows !! i = Some r →
  take w (drop (i * w) (concat rows)) = r.
Proof.
  intros Hall. revert i. induction Hall as [|r0 rows Hr _ IH]; intros i Hi.
  - done.
  - destruct i as [|i].
    + injection Hi as <-. change (0 * w) with 0. rewrite drop_0.
      cbn [concat]. by rewrite take_app_length'.
    + cbn [concat]. cbn in Hi. rewrite drop_app_ge by (rewrite Hr; lia).
      rewrite Hr. replace (S i * w - w) with (i * w) by lia. by apply IH.
Qed.
Lemma same_views_refl g : same_views g g.
Proof. by split. Qed.

Lemma same_views_trans g1 g2 g3 :
  same_views g1 g2 → same_views g2 g3 → same_views g1 g3.
Proof.
  intros [H1 H2] [H3 H4]. split; intros k; [rewrite H3|rewrite H4]; done.
Qed.

Lemma ids_of_views d d' ws :
  (∀ k, Vocab.view d' k = Vocab.view d k) → ids_of d' ws = ids_of d ws.
Proof. intros Hv. apply list_fmap_ext. intros; apply Hv. Qed.

Lemma words2idxs_views ws g : same_views g (words2idxs ws g).2.
Proof.
  rewrite words2idxs_globals. split; intros k; simpl; [|done].
  apply VocabFacts.dd_getitems_view.
Qed.

Lemma tags2idxs_views ws g : same_views g (tags2idxs ws g).2.
Proof.
  rewrite tags2idxs_globals. split; intros k; simpl; [done|].
  apply VocabFacts.dd_getitems_view.
Qed.

Lemma getitem_lt {A} `{Inhabited A} (l : list A) i :
  i < length l → Batching.getitem l i = Ok (l !!! i).
Proof.
  intros Hi. unfold Batching.getitem.
  destruct (lookup_lt_is_Some_2 l i Hi) as [a Ha].
  rewrite Ha. by rewrite (list_lookup_total_correct _ _ _ Ha).
Qed.

Lemma gather_spec tokens tags :
  length tokens = length tags → ∀ idxs xl yl m g,
  Forall (λ idx, idx < length tokens) idxs →
  ∃ g', Batching.gather tokens tags idxs xl yl m g
        = Ok (xl ++ ((λ idx, ids_of (token2idx g) (tokens !!! idx)) <$> idxs),
              yl ++ ((λ idx, ids_of (tag2idx g) (tags !!! idx)) <$> idxs),
              m `max` max_list ((λ idx, length (tags !!! idx)) <$> idxs), g')
        ∧ same_views g g'.
Proof.
  intros Hlen. induction idxs as [|idx idxs IH]; intros xl yl m g Hall.
  - exists g. cbn. rewrite !app_nil_r, Nat.max_0_r. split; [done|].
    apply same_views_refl.
  - apply Forall_cons in Hall as [Hidx Hall].
    cbn [Batching.gather]. rewrite (getitem_lt tokens idx Hidx). cbn [mbind result_bind rbind].
    pose proof (words2idxs_ids (tokens !!! idx) g) as Hx.
    pose proof (words2idxs_views (tokens !!! idx) g) as Hv1.
    destruct (words2idxs (tokens !!! idx) g) as [xs g1]. cbn [fst snd] in *.
    rewrite (getitem_lt tags idx) by lia. cbn [mbind result_bind rbind].
    pose proof (tags2idxs_ids (tags !!! idx) g1) as Hy.
    pose proof (tags2idxs_views (tags !!! idx) g1) as Hv2.
    destruct (tags2idxs (tags !!! idx) g1) as [ys g2]. cbn [fst snd] in *.
    pose proof (same_views_trans _ _ _ Hv1 Hv2) as Hv.
    destruct (IH (xl ++ [xs]) (yl ++ [ys]) (m `max` length (tags !!! idx)) g2 Hall)
      as (g' & -> & Hv').
    exists g'. split; [|by eapply same_views_trans].
    assert (((λ i, ids_of (token2idx g2) (tokens !!! i)) <$> idxs)
            = ((λ i, ids_of (token2idx g) (tokens !!! i)) <$> idxs)) as ->.
    { apply list_fmap_ext. intros. apply ids_of_views, Hv. }
    assert (((λ i, ids_of (tag2idx g2) (tags !!! i)) <$> idxs)
            = ((λ i, ids_of (tag2idx g) (tags !!! i)) <$> idxs)) as ->.
    { apply list_fmap_ext. intros. apply ids_of_views, Hv. }
    rewrite !fmap_cons, <- !app_assoc. cbn [app max_list].
    rewrite Nat.max_assoc. subst xs ys. fold (ids_of (tag2idx g1) (tags !!! idx)).
    rewrite (ids_of_views (tag2idx g) (tag2idx g1)) by apply Hv1. done.
Qed.
Lemma assign_row_prefix_exact w n (src : list nat) t :
  length src ≤ w →
  assign_row_prefix w n (length src) src t
  = Ok (Tensor (dtype_of t) (shape t)
          (take (n * w) (data t) ++ src ++ drop (n * w + length src) (data t))).
Proof.
  intros Hle. unfold assign_row_prefix.
  rewrite Nat.min_l by done. by rewrite Nat.eqb_refl.
Qed.

Lemma padded_rows_length {A} w (pad : A) (rows : list (list A)) :
  Forall (λ r, length r ≤ w) rows →
  Forall (λ r, length r = w) (padded w pad <$> rows).
Proof.
  intros Hall. apply Forall_fmap. eapply Forall_impl; [exact Hall|].
  intros r Hr. by apply padded_length.
Qed.

(** Writing row [n] of an array whose first [n] rows are done and whose
    other rows still hold the fill value. *)
Lemma write_row {A} w (pad : A) (done_rows : list (list A)) (src : list A) n c :
  length done_rows = n →
  Forall (λ r, length r ≤ w) done_rows →
  length src ≤ w →
  take (n * w)
       (concat (padded w pad <$> done_rows) ++ replicate (S c * w) pad)
  ++ src
  ++ drop (n * w + length src)
          (concat (padded w pad <$> done_rows) ++ replicate (S c * w) pad)
  = concat (padded w pad <$> (done_rows ++ [src])) ++ replicate (c * w) pad.
Proof.
  intros <- Hrows Hsrc.
  pose proof (concat_rows_length w _ (padded_rows_length w pad _ Hrows)) as Hlen.
  rewrite length_fmap in Hlen.
  rewrite take_app_length' by done.
  rewrite drop_app_ge by lia.
  rewrite Hlen, drop_replicate.
  replace (length done_rows * w + length src - length done_rows * w)
    with (length src) by lia.
  rewrite fmap_app, concat_app. cbn [fmap list_fmap concat].
  rewrite app_nil_r, <- !app_assoc. f_equal. unfold padded.
  rewrite <- app_assoc. f_equal. rewrite <- replicate_add. f_equal. lia.
Qed.

Lemma fill_spec w pad o xl yl :
  Forall (λ r, length r ≤ w) xl →
  Forall (λ r, length r ≤ w) yl →
  Forall2 (λ xs ys, length xs = length ys) xl yl →
  ∀ cnt n x y lens,
    n + cnt = length xl →
    data x = concat (padded w pad <$> take n xl) ++ replicate (cnt * w) pad →
    data y = concat (padded w o <$> take n yl) ++ replicate (cnt * w) o →
    data lens = (length <$> take n xl) ++ replicate cnt 0 →
    Batching.fill w xl yl (seq n cnt) x y lens
    = Ok (Tensor (dtype_of x) (shape x) (concat (padded w pad <$> xl)),
          Tensor (dtype_of y) (shape y) (concat (padded w o <$> yl)),
          Tensor (dtype_of lens) (shape lens) (length <$> xl)).
Proof.
  intros Hx Hy Hxy. pose proof (Forall2_length _ _ _ Hxy) as Hlen.
  induction cnt as [|c IH]; intros n x y lens Hn Dx Dy Dl.
  - cbn [seq Batching.fill]. destruct x, y, lens. cbn in *.
    rewrite Dx, Dy, Dl.
    rewrite !firstn_all2 by lia. by rewrite !app_nil_r.
  - cbn [seq Batching.fill].
    assert (n < length xl) as Hnx by lia.
    assert (n < length yl) as Hny by lia.
    destruct (lookup_lt_is_Some_2 xl n Hnx) as [xs Hxs].
    destruct (lookup_lt_is_Some_2 yl n Hny) as [ys Hys].
    pose proof (Forall2_lookup_lr _ _ _ _ _ _ Hxy Hxs Hys) as Hsame.
    pose proof (Forall_lookup_1 _ _ _ _ Hx Hxs) as Hxw.
    pose proof (Forall_lookup_1 _ _ _ _ Hy Hys) as Hyw.
    unfold Batching.getitem. rewrite Hxs, Hys. cbn [mbind result_bind rbind].
    rewrite assign_row_prefix_exact by done. cbn [mbind result_bind rbind].
    rewrite Hsame, assign_row_prefix_exact by done. cbn [mbind result_bind rbind].
    assert (length (take n xl) = n) as Htx by (rewrite length_take; lia).
    assert (length (take n yl) = n) as Hty by (rewrite length_take; lia).
    rewrite (IH (S n)); cbn [dtype_of shape data]; try done; try lia.
    + rewrite Dx, (take_S_r _ _ _ Hxs). rewrite <- Hsame.
      apply write_row; [done| |done]. eapply Forall_take, Hx.
    + rewrite Dy, (take_S_r _ _ _ Hys).
      apply write_row; [done| |done]. eapply Forall_take, Hy.
    + rewrite Dl, (take_S_r _ _ _ Hxs), fmap_app. cbn [fmap list_fmap].
      rewrite insert_app_r_alt by (rewrite length_fmap; lia).
      rewrite length_fmap, Htx, Nat.sub_diag, <- app_assoc. cbn.
      by rewrite Hsame.
Qed.
Lemma same_length_lookup (tokens tags : list (list string)) idx :
  Forall2 (λ t s, length t = length s) tokens tags →
  length (tags !!! idx) = length (tokens !!! idx).
Proof.
  intros Hsame. destruct (tokens !! idx) as [t|] eqn:Et.
  - destruct (Forall2_lookup_l _ _ _ _ _ Hsame Et) as (s & Es & Hts).
    rewrite (list_lookup_total_correct _ _ _ Et).
    by rewrite (list_lookup_total_correct _ _ _ Es).
  - pose proof (Forall2_length _ _ _ Hsame) as Hlen.
    assert (tags !! idx = None) as Es.
    { apply lookup_ge_None. apply lookup_ge_None in Et. lia. }
    rewrite !list_lookup_total_alt, Et, Es. done.
Qed.

Lemma batch_at_spec batch_size tokens tags order k g :
  Forall2 (λ t s, length t = length s) tokens tags →
  Forall (λ idx, idx < length tokens) order →
  length order = length tokens →
  ∃ g', Batching.batch_at batch_size tokens tags order k g
        = Ok (batch_of tokens tags
                (batch_indices batch_size (length tokens) order k) g, g')
        ∧ same_views g g'.
Proof.
  intros Hsame Hvalid Horder.
  pose proof (Forall2_length _ _ _ Hsame) as Hlen.
  unfold Batching.batch_at.
  set (idxs := take _ (drop _ order)).
  assert (idxs = batch_indices batch_size (length tokens) order k) as Hidxs
    by done.
  assert (Forall (λ idx, idx < length tokens) idxs) as Hin.
  { subst idxs. by apply Forall_take, Forall_drop. }
  assert (length idxs
          = ((k + 1) * batch_size) `min` length tokens - k * batch_size) as HB.
  { subst idxs. rewrite length_take, length_drop. lia. }
  destruct (gather_spec tokens tags Hlen idxs [] [] 0 g Hin) as (g1 & -> & Hv1).
  cbn [mbind result_bind rbind app Nat.max].
  pose proof (VocabFacts.dd_getitem_fst (token2idx g1) "<PAD>") as Hpad.
  pose proof (VocabFacts.dd_getitem_view (token2idx g1) "<PAD>") as Hpv.
  destruct (Vocab.dd_getitem (token2idx g1) "<PAD>") as [pad d1].
  cbn [fst snd] in Hpad, Hpv.
  pose proof (VocabFacts.dd_getitem_fst (tag2idx g1) "O") as Ho.
  pose proof (VocabFacts.dd_getitem_view (tag2idx g1) "O") as Hov.
  cbn [tag2idx set_token2idx].
  destruct (Vocab.dd_getitem (tag2idx g1) "O") as [o d2].
  cbn [fst snd] in Ho, Hov.
  assert (max_list ((λ idx, length (tags !!! idx)) <$> idxs)
          = batch_width tokens idxs) as Hw.
  { unfold batch_width. f_equal. apply list_fmap_ext. intros.
    by apply same_length_lookup. }
  rewrite Hw. rewrite <- HB.
  set (w := batch_width tokens idxs).
  erewrite (fill_spec w pad o).
  - cbn [mbind result_bind rbind]. eexists. split.
    + rewrite <- Hidxs. unfold batch_of. fold w. cbn [dtype_of shape full].
      assert (length <$> ((λ idx, ids_of (token2idx g) (tokens !!! idx)) <$> idxs)
              = (λ idx, length (tokens !!! idx)) <$> idxs) as ->.
      { rewrite <- list_fmap_compose. apply list_fmap_ext. intros. cbn.
        unfold ids_of. by rewrite length_fmap. }
      subst pad o. rewrite (proj1 Hv1), (proj2 Hv1). reflexivity.
    + destruct Hv1 as [Ht Hg]. split; intros s; cbn.
      * by rewrite Hpv.
      * by rewrite Hov.
  - apply Forall_fmap, Forall_forall. intros idx Hidx. cbn.
    unfold ids_of. rewrite length_fmap. apply max_list_elem_of_le.
    apply (list_elem_of_fmap_2 (λ idx, length (tokens !!! idx))). done.
  - apply Forall_fmap, Forall_forall. intros idx Hidx. cbn.
    unfold ids_of. rewrite length_fmap, (same_length_lookup tokens tags) by done.
    apply max_list_elem_of_le.
    apply (list_elem_of_fmap_2 (λ idx, length (tokens !!! idx))). done.
  - apply Forall2_fmap, Forall_Forall2_diag, Forall_forall. intros idx Hidx.
    cbn. unfold ids_of. rewrite !length_fmap. symmetry.
    by apply same_length_lookup.
  - rewrite length_fmap. done.
  - cbn. by rewrite Nat.mul_1_r.
  - cbn. by rewrite Nat.mul_1_r.
  - cbn. by rewrite Nat.mul_1_r.
Qed.
Lemma batch_of_views tokens tags idxs g g' :
  same_views g g' → batch_of tokens tags idxs g' = batch_of tokens tags idxs g.
Proof.
  intros [Ht Hg]. unfold batch_of. rewrite Ht, Hg.
  assert (((λ idx, ids_of (token2idx g') (tokens !!! idx)) <$> idxs)
          = ((λ idx, ids_of (token2idx g) (tokens !!! idx)) <$> idxs)) as ->.
  { apply list_fmap_ext. intros. by apply ids_of_views. }
  assert (((λ idx, ids_of (tag2idx g') (tags !!! idx)) <$> idxs)
          = ((λ idx, ids_of (tag2idx g) (tags !!! idx)) <$> idxs)) as ->.
  { apply list_fmap_ext. intros. by apply ids_of_views. }
  done.
Qed.

Lemma batches_from_spec batch_size tokens tags order :
  Forall2 (λ t s, length t = length s) tokens tags →
  Forall (λ idx, idx < length tokens) order →
  length order = length tokens →
  ∀ ks g, ∃ g',
    Batching.batches_from batch_size tokens tags order ks g
    = Ok ((λ k, batch_of tokens tags
                  (batch_indices batch_size (length tokens) order k) g) <$> ks,
          g')
    ∧ same_views g g'.
Proof.
  intros Hsame Hvalid Horder. induction ks as [|k ks IH]; intros g.
  - exists g. split; [done|apply same_views_refl].
  - cbn [Batching.batches_from].
    destruct (batch_at_spec batch_size tokens tags order k g Hsame Hvalid Horder)
      as (g1 & -> & Hv1).
    cbn [mbind result_bind rbind].
    destruct (IH g1) as (g2 & -> & Hv2). cbn [mbind result_bind rbind].
    exists g2. split; [|by eapply same_views_trans].
    rewrite fmap_cons. do 2 f_equal. f_equal.
    apply list_fmap_ext. intros. by apply batch_of_views.
Qed.

Lemma order_of_valid shuffle perm n :
  perm ≡ₚ seq 0 n →
  Forall (λ idx, idx < n) (Batching.order_of shuffle perm n)
  ∧ length (Batching.order_of shuffle perm n) = n.
Proof.
  intros Hperm.
  assert (Forall (λ idx, idx < n) (seq 0 n)) as Hseq.
  { apply Forall_forall. intros i Hi. apply elem_of_seq in Hi. lia. }
  unfold Batching.order_of. destruct shuffle.
  - split; [by rewrite Hperm|]. by rewrite Hperm, length_seq.
  - split; [done|apply length_seq].
Qed.

Lemma n_batches_of_pos batch_size n allow :
  0 < batch_size →
  ∃ nb, Batching.n_batches_of batch_size n allow = Ok nb.
Proof.
  intros Hpos. unfold Batching.n_batches_of.
  destruct (batch_size =? 0) eqn:E; [apply Nat.eqb_eq in E; lia|].
  destruct (_ && _); eauto.
Qed.

Lemma batches_generator_spec batch_size tokens tags shuffle allow perm g :
  0 < batch_size →
  Forall2 (λ t s, length t = length s) tokens tags →
  perm ≡ₚ seq 0 (length tokens) →
  ∃ nb g',
    Batching.n_batches_of batch_size (length tokens) allow = Ok nb
    ∧ Batching.batches_generator batch_size tokens tags shuffle allow perm g
      = Ok ((λ k, batch_of tokens tags
                    (batch_indices batch_size (length tokens)
                       (Batching.order_of shuffle perm (length tokens)) k) g)
            <$> seq 0 nb, g')
    ∧ same_views g g'.
Proof.
  intros Hpos Hsame Hperm.
  destruct (order_of_valid shuffle perm _ Hperm) as [Hvalid Hlen].
  destruct (n_batches_of_pos batch_size (length tokens) allow Hpos) as [nb Hnb].
  unfold Batching.batches_generator. rewrite Hnb. cbn [mbind result_bind rbind].
  destruct (batches_from_spec batch_size tokens tags _ Hsame Hvalid Hlen
              (seq 0 nb) g) as (g' & -> & Hv).
  eauto.
Qed.
Lemma batch_of_row_x tokens tags idxs g i idx :
  idxs !! i = Some idx →
  row (batch_width tokens idxs) i (batch_of tokens tags idxs g).1.1
  = padded (batch_width tokens idxs) (Vocab.view (token2idx g) "<PAD>")
           (ids_of (token2idx g) (tokens !!! idx)).
Proof.
  intros Hi. unfold row, batch_of. cbn [fst data].
  apply row_concat.
  - apply padded_rows_length, Forall_fmap, Forall_forall. intros j Hj. cbn.
    unfold ids_of. rewrite length_fmap. apply max_list_elem_of_le.
    by apply (list_elem_of_fmap_2 (λ idx, length (tokens !!! idx))).
  - by rewrite !list_lookup_fmap, Hi.
Qed.

Lemma batch_of_row_y tokens tags idxs g i idx :
  Forall2 (λ t s, length t = length s) tokens tags →
  idxs !! i = Some idx →
  row (batch_width tokens idxs) i (batch_of tokens tags idxs g).1.2
  = padded (batch_width tokens idxs) (Vocab.view (tag2idx g) "O")
           (ids_of (tag2idx g) (tags !!! idx)).
Proof.
  intros Hsame Hi. unfold row, batch_of. cbn [fst snd data].
  apply row_concat.
  - apply padded_rows_length, Forall_fmap, Forall_forall. intros j Hj. cbn.
    unfold ids_of. rewrite length_fmap, (same_length_lookup tokens tags) by done.
    apply max_list_elem_of_le.
    by apply (list_elem_of_fmap_2 (λ idx, length (tokens !!! idx))).
  - by rewrite !list_lookup_fmap, Hi.
Qed.

(** C5.  Every batch the generator yields has, in row [i], the ids of the
    tokens (tags) of its [i]-th sequence in the first [lengths[i]] columns
    and the id of [<PAD>] (of [O]) in all the others; all rows have the
    greatest sequence length of the batch as width. *)
Theorem batches_generator_padding (batch_size : nat)
    (tokens tags : list (list string)) (shuffle allow_smaller_last_batch : bool)
    (perm : list nat) (g : globals) :
  0 < batch_size →
  Forall2 (λ t s, length t = length s) tokens tags →
  perm ≡ₚ seq 0 (length tokens) →
  ∃ bs g',
    Batching.batches_generator batch_size tokens tags shuffle
                               allow_smaller_last_batch perm g = Ok (bs, g')
    ∧ ∀ k x y lengths, bs !! k = Some (x, y, lengths) →
        let idxs := batch_indices batch_size (length tokens)
                      (Batching.order_of shuffle perm (length tokens)) k in
        let w := max_list ((λ idx, length (tokens !!! idx)) <$> idxs) in
        shape x = [length idxs; w] ∧ shape y = [length idxs; w]
        ∧ shape lengths = [length idxs]
        ∧ ∀ i idx, idxs !! i = Some idx →
            let n := length (tokens !!! idx) in
            data lengths !! i = Some n
            ∧ take n (row w i x) = Vocab.view (token2idx g) <$> tokens !!! idx
            ∧ drop n (row w i x)
              = replicate (w - n) (Vocab.view (token2idx g) "<PAD>")
            ∧ take n (row w i y) = Vocab.view (tag2idx g) <$> tags !!! idx
            ∧ drop n (row w i y) = replicate (w - n) (Vocab.view (tag2idx g) "O").
Proof.
  intros Hpos Hsame Hperm.
  destruct (batches_generator_spec batch_size tokens tags shuffle
              allow_smaller_last_batch perm g Hpos Hsame Hperm)
    as (nb & g' & _ & Hgen & _).
  eexists _, g'. split; [exact Hgen|].
  intros k x y lengths Hk idxs w.
  rewrite list_lookup_fmap in Hk.
  destruct (seq 0 nb !! k) as [k'|] eqn:Ek; [|done].
  apply lookup_seq in Ek as [-> _].
  change (Some (batch_of tokens tags idxs g) = Some (x, y, lengths)) in Hk.
  assert (batch_of tokens tags idxs g = (x, y, lengths)) as Hb by congruence.
  assert (x = (batch_of tokens tags idxs g).1.1) as Hx by (by rewrite Hb).
  assert (y = (batch_of tokens tags idxs g).1.2) as Hy by (by rewrite Hb).
  assert (lengths = (batch_of tokens tags idxs g).2) as Hl by (by rewrite Hb).
  fold (batch_width tokens idxs) in w.
  split; [by subst|]. split; [by subst|]. split; [by subst|].
  intros i idx Hi n.
  pose proof (batch_of_row_x tokens tags idxs g i idx Hi) as Hrx.
  pose proof (batch_of_row_y tokens tags idxs g i idx Hsame Hi) as Hry.
  rewrite <- Hx in Hrx. rewrite <- Hy in Hry. subst w.
  rewrite Hrx, Hry. unfold padded, ids_of.
  assert (length (Vocab.view (token2idx g) <$> tokens !!! idx) = n) as Hnx
    by apply length_fmap.
  assert (length (Vocab.view (tag2idx g) <$> tags !!! idx) = n) as Hny
    by (rewrite length_fmap; by apply same_length_lookup).
  rewrite !take_app_length', !drop_app_length' by done.
  rewrite Hnx, Hny. repeat split.
  rewrite Hl. cbn. by rewrite list_lookup_fmap, Hi.
Qed.

Lemma batches_generator_padding_witness :
  ∃ bs g',
    Batching.batches_generator 2 tokens3 tags3 true true [1; 0; 2]
                               example_globals = Ok (bs, g')
    ∧ ∀ k x y lengths, bs !! k = Some (x, y, lengths) →
        let idxs := batch_indices 2 (length tokens3)
                      (Batching.order_of true [1; 0; 2] (length tokens3)) k in
        let w := max_list ((λ idx, length (tokens3 !!! idx)) <$> idxs) in
        shape x = [length idxs; w] ∧ shape y = [length idxs; w]
        ∧ shape lengths = [length idxs]
        ∧ ∀ i idx, idxs !! i = Some idx →
            let n := length (tokens3 !!! idx) in
            data lengths !! i = Some n
            ∧ take n (row w i x)
              = Vocab.view (token2idx example_globals) <$> tokens3 !!! idx
            ∧ drop n (row w i x)
              = replicate (w - n) (Vocab.view (token2idx example_globals) "<PAD>")
            ∧ take n (row w i y)
              = Vocab.view (tag2idx example_globals) <$> tags3 !!! idx
            ∧ drop n (row w i y)
              = replicate (w - n) (Vocab.view (tag2idx example_globals) "O").
Proof.
  apply (batches_generator_padding 2 tokens3 tags3 true true [1; 0; 2]
                                   example_globals).
  - lia.
  - repeat constructor.
  - apply perm_swap.
Defined.

(** Three sequences of lengths 2, 5 and 3 in one batch: width 5, lengths
    [2; 5; 3], unknown tokens as 0, [<PAD>] as 1. *)
Example batches_generator_scenario :
  fst <$> Batching.batches_generator 3 tokens3 tags3 false true []
                                     example_globals
  = Ok [(Tensor Int32 [3; 5] [2; 3; 1; 1; 1; 0; 0; 0; 0; 0; 2; 0; 3; 1; 1],
         Tensor Int32 [3; 5] [0; 1; 0; 0; 0; 0; 0; 0; 0; 0; 0; 0; 1; 0; 0],
         Tensor Int32 [3] [2; 5; 3])].
Proof. vm_compute. reflexivity. Qed.

(** ** Predictor *)

Section PredictFacts.
Context {num : Type} `{Scalar num}.

Lemma words2idxs_length ws g : length (words2idxs ws g).1 = length ws.
Proof. by rewrite words2idxs_ids, length_fmap. Qed.

(** For an empty sentence the index tensor is a float tensor, which the
    embedding layer rejects. *)
Lemma predict_sentence_empty (ner_tagger : tagger num) tags verbosity g :
  is_ok (predict_sentence ner_tagger [] tags verbosity g) = false.
Proof. reflexivity. Qed.

(** For a one-token sentence the scores have shape [[1; 1; n_tags]]; after
    [squeeze()] at most one dimension is left and [max(1)] has nothing to
    reduce. *)
Lemma predict_sentence_singleton (ner_tagger : tagger num) tok tags verbosity g :
  predict_sentence ner_tagger [tok] tags verbosity g
  = Raise (IndexError
             "Dimension out of range (expected to be in range of [-1, 0], but got 1)").
Proof.
  unfold predict_sentence.
  pose proof (words2idxs_length [tok] g) as Hlen.
  destruct (words2idxs [tok] g) as [ids g1]. simpl in Hlen.
  destruct ids as [|v [|? ?]]; try done.
  cbn -[tabulate]. unfold max_indices, squeeze. cbn [shape tabulate].
  rewrite !filter_cons. repeat case_decide; done.
Qed.

End PredictFacts.

Lemma argmax_go_lt {A} (ltb : A → A → bool) (l : list A) : ∀ best_i best i,
  best_i < i → argmax_go ltb best_i best i l < i + length l.
Proof.
  induction l as [|a l IH]; intros best_i best i Hlt; cbn [argmax_go length].
  - lia.
  - destruct (ltb best a).
    + specialize (IH i a (S i)). lia.
    + specialize (IH best_i best (S i)). lia.
Qed.

Lemma argmax_lt {A} (ltb : A → A → bool) (l : list A) :
  l ≠ [] → argmax ltb l < length l.
Proof.
  destruct l as [|a l]; [done|]. intros _. unfold argmax.
  pose proof (argmax_go_lt ltb l 0 a 1). cbn [length]. lia.
Qed.

Lemma getitems_ok (d : gmap nat string) (idxs : list nat) :
  Forall (λ i, is_Some (d !! i)) idxs →
  ∃ res, Vocab.getitems d idxs = Ok res ∧ length res = length idxs.
Proof.
  induction 1 as [|i idxs [s Hs] _ (res & IH & Hlen)]; cbn [Vocab.getitems].
  - by exists [].
  - rewrite Hs, IH. cbn. exists (s :: res). cbn. by rewrite Hlen.
Qed.

(** For a sentence of two or more tokens and a tagger with two or more tags
    whose ids are all in [idx2tag], decoding succeeds with one tag per
    token. *)
Lemma predict_sentence_decodes {num : Type} `{Scalar num}
    (ner_tagger : tagger num) (sentence : list string) (verbosity : nat)
    (g : globals) :
  2 ≤ length sentence →
  2 ≤ n_tags ner_tagger →
  (∀ i, i < n_tags ner_tagger → is_Some (idx2tag g !! i)) →
  ∃ res g',
    predict_sentence ner_tagger sentence None verbosity g = Ok (res, [], g')
    ∧ length res = length sentence.
Proof.
  intros Hlen Htags Hdict. unfold predict_sentence.
  pose proof (words2idxs_length sentence g) as Hids.
  pose proof (words2idxs_globals sentence g) as Hg.
  destruct (words2idxs sentence g) as [ids g1]. cbn [fst snd] in Hids, Hg.
  assert (idx2tag g1 = idx2tag g) as Hi2t by (by subst g1).
  destruct ids as [|v ids]; [cbn in Hids; lia|].
  unfold forward, of_list, unsqueeze0.
  cbn [dtype_of shape is_integer negb].
  destruct (length (v :: ids) =? 0) eqn:E; [apply Nat.eqb_eq in E; done|].
  cbn [mbind result_bind rbind].
  unfold max_indices, squeeze. cbn [shape tabulate dtype_of].
  rewrite !filter_cons, filter_nil.
  rewrite decide_False by (intros Hn; by apply Hn).
  rewrite decide_True by lia. rewrite decide_True by lia.
  cbn [lookup list_lookup].
  destruct (n_tags ner_tagger) as [|t'] eqn:ET; [lia|]. rewrite <- ET.
  cbn [mbind result_bind rbind delete list_delete].
  unfold to_list. cbn [shape tabulate mbind result_bind rbind data].
  unfold idxs2tags. rewrite Hi2t.
  edestruct (getitems_ok (idx2tag g)) as (res & -> & Hres).
  2: { cbn [mbind result_bind rbind tags_given]. eexists _, _.
       split; [reflexivity|]. rewrite Hres, length_fmap, length_seq.
       cbn [numel foldr]. lia. }
  apply Forall_fmap, Forall_forall. intros i _. cbn. apply Hdict.
  eapply Nat.lt_le_trans; [apply argmax_lt|].
  - rewrite ET. done.
  - rewrite length_fmap, length_seq. lia.
Qed.

(** C10.  A sentence of exactly one token makes [predict_sentence] fail in the
    argmax step with "Dimension out of range", and a call that returns a tag
    list had a sentence of at least two tokens. *)
Theorem predict_sentence_partial {num : Type} `{Scalar num}
    (ner_tagger : tagger num) (sentence : list string)
    (tags : option (list string)) (verbosity : nat) (g : globals) :
  (length sentence = 1 →
   predict_sentence ner_tagger sentence tags verbosity g
   = Raise (IndexError
             "Dimension out of range (expected to be in range of [-1, 0], but got 1)"))
  ∧ (is_ok (predict_sentence ner_tagger sentence tags verbosity g) = true →
     2 ≤ length sentence).
Proof.
  split.
  - destruct sentence as [|tok [|? ?]]; try done. intros _.
    apply predict_sentence_singleton.
  - intros Hok. destruct sentence as [|tok [|? ?]].
    + by rewrite predict_sentence_empty in Hok.
    + by rewrite predict_sentence_singleton in Hok.
    + cbn [length]. lia.
Qed.

Lemma predict_sentence_partial_witness :
  (length ["hello"] = 1 →
   predict_sentence always_outside ["hello"] None 0 example_globals
   = Raise (IndexError
             "Dimension out of range (expected to be in range of [-1, 0], but got 1)"))
  ∧ (is_ok (predict_sentence always_outside ["hello"] None 0 example_globals)
     = true → 2 ≤ length ["hello"]).
Proof. apply (predict_sentence_partial always_outside ["hello"] None 0). Defined.

Example predict_sentence_two_tokens :
  visible (predict_sentence always_outside ["hello"; "there"] None 0
                            example_globals)
  = Ok (["O"; "O"], []).
Proof. vm_compute. reflexivity. Qed.

(** C2.  The specification wants the reported count to compare the decoded
    tags with the [tags] argument.  [predict_sentence] compares them with the
    module-level [true_tags] instead: with [true_tags] bound to [O O], the
    call with [tags = [B-PER; B-PER]] on a tagger that decodes [O O] reports
    2 correct tags out of 2, where no decoded tag equals the supplied one. *)
Theorem predict_sentence_counts_against_global :
  visible (predict_sentence always_outside ["hello"; "world"]
                            (Some ["B-PER"; "B-PER"]) 1 example_globals)
  = Ok (["O"; "O"], [CorrectTags 2 2])
  ∧ matching_positions ["O"; "O"] ["B-PER"; "B-PER"] = 0.
Proof. split; vm_compute; reflexivity. Qed.

(** With [true_tags] unbound the same call raises [NameError]. *)
Example predict_sentence_name_error :
  visible (predict_sentence always_outside ["hello"; "world"]
                            (Some ["B-PER"; "B-PER"]) 1
                            (make_globals [["hello"; "world"]] []
                                          [["B-PER"; "O"]]))
  = Raise (NameError "name 'true_tags' is not defined").
Proof. vm_compute. reflexivity. Qed.

(** ** Evaluator *)

Lemma ravel_lt s : ∀ idx, in_range idx s → ravel s idx < numel s.
Proof.
  induction s as [|d s IH]; intros idx Hr; inversion Hr as [|k ? idx' ? Hk Hr'];
    subst; cbn [ravel numel foldr].
  - lia.
  - specialize (IH idx' Hr'). fold (numel s). nia.
Qed.

Lemma unravel_ravel s : ∀ idx, in_range idx s → unravel s (ravel s idx) = idx.
Proof.
  induction s as [|d s IH]; intros idx Hr; inversion Hr as [|k ? idx' ? Hk Hr'];
    subst; cbn [ravel unravel]; [done|].
  pose proof (ravel_lt s idx' Hr') as Hlt.
  rewrite Nat.div_add_l by lia. rewrite Nat.div_small by done.
  rewrite Nat.add_0_r. f_equal.
  rewrite Nat.add_comm, Nat.Div0.mod_add, Nat.mod_small by done. by apply IH.
Qed.

Lemma unravel_in_range s : ∀ i, i < numel s → in_range (unravel s i) s.
Proof.
  induction s as [|d s IH]; intros i Hi; cbn [unravel]; [constructor|].
  cbn [numel foldr] in Hi. fold (numel s) in Hi.
  assert (numel s ≠ 0) as Hne by (intros E; rewrite E in Hi; lia).
  constructor.
  - apply Nat.Div0.div_lt_upper_bound. lia.
  - apply IH. apply Nat.mod_upper_bound. done.
Qed.

Lemma get_tabulate {A} `{Inhabited A} dt s (f : list nat → A) idx :
  in_range idx s → get (tabulate dt s f) idx = f idx.
Proof.
  intros Hr. unfold get, tabulate. cbn [data shape].
  pose proof (ravel_lt s idx Hr) as Hlt.
  rewrite list_lookup_total_alt, list_lookup_fmap.
  rewrite (lookup_seq_lt _ _ _ Hlt). cbn. by rewrite unravel_ravel.
Qed.

Lemma unravel_matrix b w :
  unravel [b; w] <$> seq 0 (numel [b; w])
  = (λ p, [p.1; p.2]) <$> positions b w.
Proof.
  unfold positions. cbn [numel foldr]. rewrite Nat.mul_1_r.
  induction b as [|b IH].
  - done.
  - rewrite seq_S, fmap_app, concat_app, fmap_app. cbn [fmap list_fmap concat].
    rewrite app_nil_r, <- IH.
    replace (S b * w) with (b * w + w) by lia.
    rewrite seq_app, fmap_app. f_equal. cbn [plus].
    rewrite <- list_fmap_compose.
    assert (seq (b * w) w = (λ x, b * w + x) <$> seq 0 w) as ->
      by (rewrite fmap_add_seq; f_equal; lia).
    rewrite <- list_fmap_compose.
    apply list_fmap_ext. intros i j Hj. apply lookup_seq in Hj as [-> Hj].
    unfold compose. cbn [unravel numel foldr fst snd].
    rewrite Nat.mul_1_r, Nat.div_1_r.
    rewrite (Nat.add_comm (b * w)), Nat.div_add by lia.
    rewrite Nat.Div0.mod_add, Nat.div_small, Nat.mod_small by lia. done.
Qed.

Lemma positions_in_range b w p :
  p ∈ positions b w → p.1 < b ∧ p.2 < w.
Proof.
  unfold positions. intros Hp.
  apply list_elem_of_In, in_concat in Hp as (l & Hl & Hp).
  apply list_elem_of_In in Hl, Hp.
  apply list_elem_of_fmap in Hl as (i & -> & Hi).
  apply list_elem_of_fmap in Hp as (j & -> & Hj).
  apply elem_of_seq in Hi, Hj. cbn. lia.
Qed.

Lemma sum_tabulate s (f : list nat → bool) (l : list (list nat)) :
  Tensor.sum (Tensor Bool s (f <$> l)) = length (filter (λ m, f m = true) l).
Proof.
  unfold Tensor.sum. cbn [data]. induction l as [|m l IH]; [done|].
  rewrite fmap_cons, !filter_cons. destruct (f m); repeat case_decide;
    try done; cbn; by rewrite IH.
Qed.

Lemma tabulate_unfold {A} dt s (f : list nat → A) :
  tabulate dt s f = Tensor dt s (f <$> (unravel s <$> seq 0 (numel s))).
Proof. unfold tabulate. by rewrite <- list_fmap_compose. Qed.

Lemma broadcast_rev_same s : broadcast_rev s s = Some s.
Proof.
  induction s as [|d s IH]; [done|]. cbn [broadcast_rev].
  by rewrite Nat.eqb_refl, IH.
Qed.

Lemma broadcast_same s : broadcast s s = Some s.
Proof.
  unfold broadcast. rewrite broadcast_rev_same. cbn. by rewrite reverse_involutive.
Qed.

Lemma bidx_in_range s m : in_range m s → bidx s m = m.
Proof.
  intros Hr. unfold bidx. rewrite (Forall2_length _ _ _ Hr), Nat.sub_diag, drop_0.
  induction Hr as [|k d m s Hk _ IH]; [done|]. cbn [zip_with]. rewrite IH.
  f_equal. destruct (d =? 1) eqn:E; [|done]. apply Nat.eqb_eq in E. lia.
Qed.

Lemma count_fmap_iff {A} (l : list A) (f : A → list nat) (G : list nat → bool)
    (Q : A → Prop) `{∀ a, Decision (Q a)} :
  (∀ a, a ∈ l → G (f a) = true ↔ Q a) →
  length (filter (λ m, G m = true) (f <$> l)) = length (filter Q l).
Proof.
  induction l as [|a l IH]; intros Hiff; [done|].
  rewrite fmap_cons, !filter_cons.
  pose proof (Hiff a (list_elem_of_here _ _)) as Ha.
  assert (∀ a', a' ∈ l → G (f a') = true ↔ Q a') as Hl
    by (intros; apply Hiff; by right).
  specialize (IH Hl).
  repeat case_decide; cbn [length]; rewrite ?IH; try done; tauto.
Qed.

Section Evaluation.
Context {num : Type} `{Scalar num}.

Lemma forward_matrix (model : tagger num) x b w :
  is_integer (dtype_of x) = true → shape x = [b; w] → w ≠ 0 →
  forward model x = Ok (tabulate Float32 [b; w; n_tags model] (score_at model x)).
Proof.
  intros Hdt Hs Hw. unfold forward. rewrite Hdt, Hs. cbn [negb].
  destruct (w =? 0) eqn:E; [apply Nat.eqb_eq in E; lia|done].
Qed.

Lemma decode_matches (model : tagger num) x y b w :
  is_integer (dtype_of x) = true → shape x = [b; w] → shape y = [b; w] →
  w ≠ 0 → n_tags model ≠ 0 →
  ∃ outputs,
    (forward model x ≫= permute021) = Ok outputs
    ∧ ∃ c, (max_indices num_ltb 1 outputs ≫= λ y_pred, Tensor.eq y_pred y) = Ok c
           ∧ Tensor.sum c = matches model x y.
Proof.
  intros Hdt Hx Hy Hw Ht.
  rewrite (forward_matrix model x b w Hdt Hx Hw). cbn [mbind result_bind rbind].
  unfold permute021. cbn [shape tabulate dtype_of].
  eexists. split; [reflexivity|].
  unfold max_indices. cbn [shape tabulate lookup list_lookup].
  destruct (n_tags model) as [|t'] eqn:ET; [done|]. rewrite <- ET.
  cbn [mbind result_bind rbind].
  unfold Tensor.eq. cbn [shape tabulate delete list_delete].
  rewrite Hy, broadcast_same.
  eexists. split; [reflexivity|].
  rewrite tabulate_unfold, unravel_matrix, sum_tabulate.
  unfold matches. rewrite Hy. cbn [lookup_total list_lookup_total].
  apply count_fmap_iff. intros [i j] Hp.
  apply positions_in_range in Hp as [Hi Hj]. cbn [fst snd] in *.
  assert (in_range [i; j] [b; w]) as Hr by (repeat constructor; done).
  rewrite bool_decide_eq_true, (bidx_in_range _ _ Hr), get_tabulate by done.
  cbn [take drop app].
  assert (((λ k, get (tabulate Float32 [b; n_tags model; w]
                   (λ m, match m with
                         | [i0; k0; j0] =>
                             get (tabulate Float32 [b; w; n_tags model]
                                    (score_at model x)) [i0; j0; k0]
                         | _ => inhabitant
                         end)) [i; k; j]) <$> seq 0 (n_tags model))
          = ((λ t, score_at model x [i; j; t]) <$> seq 0 (n_tags model))) as ->.
  { apply list_fmap_ext. intros n k Hk. apply lookup_seq in Hk as [-> Hk].
    cbn [plus]. rewrite get_tabulate by (repeat constructor; done).
    rewrite get_tabulate by (repeat constructor; done). done. }
  done.
Qed.

Lemma batch_indices_length batch_size n order k :
  length order = n →
  length (batch_indices batch_size n order k)
  = ((k + 1) * batch_size) `min` n - k * batch_size.
Proof.
  intros Hlen. unfold batch_indices. rewrite length_take, length_drop. lia.
Qed.

Lemma batch_width_pos tokens idxs :
  Forall (λ t : list string, t ≠ []) tokens →
  Forall (λ idx, idx < length tokens) idxs →
  idxs ≠ [] → batch_width tokens idxs ≠ 0.
Proof.
  intros Hne Hvalid Hidxs. destruct idxs as [|idx idxs]; [done|].
  apply Forall_cons in Hvalid as [Hidx _].
  destruct (lookup_lt_is_Some_2 tokens idx Hidx) as [t Ht].
  pose proof (Forall_lookup_1 _ _ _ _ Hne Ht) as Hnil.
  unfold batch_width. rewrite fmap_cons. cbn [max_list].
  rewrite (list_lookup_total_correct _ _ _ Ht). destruct t; [done|]. cbn. lia.
Qed.

Section Loop.
Context (batch_size : nat) (order : list nat) (model : tagger num)
  (tokens tags : list (list string))
  (criterion : tensor num → tensor nat → result num) (g : globals).
Hypothesis same_length : Forall2 (λ t s, length t = length s) tokens tags.
Hypothesis non_empty : Forall (λ t : list string, t ≠ []) tokens.
Hypothesis order_valid : Forall (λ idx, idx < length tokens) order.
Hypothesis order_length : length order = length tokens.
Hypothesis some_tag : n_tags model ≠ 0.
Hypothesis criterion_total : ∀ o y, is_ok (criterion o y) = true.

Lemma test_step_spec st k :
  k * batch_size < length tokens →
  0 < batch_size →
  same_views g (ts_globals st) →
  ∃ l g',
    test_step batch_size order model tokens tags criterion st k
    = Ok (TestState (num_add (ts_loss st) l)
                    (num_add (ts_correct st) (batch_term model (nth_batch batch_size tokens tags order g k)))
                    (S (ts_n st))
                    (ts_n_samples st
                     + length (batch_indices batch_size (length tokens) order k))
                    g')
    ∧ same_views g g'.
Proof.
  intros Hk Hpos Hv. unfold test_step.
  destruct (batch_at_spec batch_size tokens tags order k (ts_globals st)
              same_length order_valid order_length) as (g' & -> & Hv').
  rewrite (batch_of_views _ _ _ _ _ Hv). fold (nth_batch batch_size tokens tags order g k).
  set (idxs := batch_indices batch_size (length tokens) order k).
  assert (idxs ≠ []) as Hidxs.
  { intros E. apply (f_equal length) in E. subst idxs.
    rewrite batch_indices_length in E by done. cbn in E. nia. }
  assert (batch_width tokens idxs ≠ 0) as Hw.
  { apply batch_width_pos; [done| |done]. subst idxs. unfold batch_indices.
    by apply Forall_take, Forall_drop. }
  unfold nth_batch. fold idxs. unfold batch_of.
  cbn [mbind result_bind rbind].
  set (x := Tensor Int32 [length idxs; batch_width tokens idxs] _).
  set (y := Tensor Int32 [length idxs; batch_width tokens idxs] _).
  destruct (decode_matches model (long x) (long y) (length idxs)
              (batch_width tokens idxs)) as (outputs & Hout & c & Hc & Hsum);
    try done.
  destruct (forward model (long x)) as [o0|e0]; [|done].
  cbn [mbind result_bind rbind] in Hout |- *. rewrite Hout.
  cbn [mbind result_bind rbind].
  pose proof (criterion_total outputs (long y)) as Hcrit.
  destruct (criterion outputs (long y)) as [l|e1]; [|done].
  cbn [mbind result_bind rbind].
  destruct (max_indices num_ltb 1 outputs) as [y_pred|e2]; [|done].
  cbn [mbind result_bind rbind] in Hc |- *. rewrite Hc.
  cbn [mbind result_bind rbind shape_at long shape x y lookup list_lookup].
  exists l, g'. split; [|by eapply same_views_trans].
  unfold batch_term. by rewrite Hsum.
Qed.

Lemma test_loop_spec ks : ∀ st,
  Forall (λ k, k * batch_size < length tokens) ks →
  0 < batch_size →
  same_views g (ts_globals st) →
  ∃ st',
    test_loop batch_size order model tokens tags criterion st ks = Ok st'
    ∧ ts_correct st'
      = foldl num_add (ts_correct st) (batch_term model <$> (nth_batch batch_size tokens tags order g <$> ks))
    ∧ ts_n st' = ts_n st + length ks
    ∧ ts_n_samples st'
      = ts_n_samples st
        + sum_list ((λ k, length (batch_indices batch_size (length tokens)
                                    order k)) <$> ks)
    ∧ same_views g (ts_globals st').
Proof.
  induction ks as [|k ks IH]; intros st Hks Hpos Hv.
  - exists st. cbn [test_loop fmap list_fmap foldl sum_list length].
    split; [done|]. split; [done|]. split; [lia|]. split; [lia|done].
  - apply Forall_cons in Hks as [Hk Hks].
    destruct (test_step_spec st k Hk Hpos Hv) as (l & g' & Hstep & Hv').
    cbn [test_loop]. rewrite Hstep. cbn [mbind result_bind rbind].
    match goal with
    | |- context [test_loop _ _ _ _ _ _ ?s ks] =>
        destruct (IH s Hks Hpos Hv') as (st' & -> & Hc & Hn & Hs & Hv'')
    end.
    exists st'. cbn [ts_correct ts_n ts_n_samples ts_globals] in *.
    rewrite Hc, Hn, Hs. rewrite !fmap_cons.
    cbn [foldl sum_list sum_list_with length].
    split; [done|]. split; [done|]. split; [lia|]. split; [|done].
    unfold id. lia.
Qed.

End Loop.

End Evaluation.

Lemma sum_batch_sizes bs n m :
  sum_list ((λ k, ((k + 1) * bs) `min` n - k * bs) <$> seq 0 m)
  = (m * bs) `min` n.
Proof.
  induction m as [|m IH]; [done|].
  rewrite seq_S, fmap_app, sum_list_with_app, IH. cbn [fmap list_fmap sum_list
    sum_list_with plus]. unfold id. nia.
Qed.

Lemma n_batches_cover bs n nb :
  0 < bs → Batching.n_batches_of bs n true = Ok nb →
  n ≤ nb * bs ∧ (∀ k, k < nb → k * bs < n) ∧ (0 < n → 0 < nb).
Proof.
  intros Hpos. unfold Batching.n_batches_of.
  destruct (bs =? 0) eqn:E; [apply Nat.eqb_eq in E; lia|].
  pose proof (Nat.div_mod_eq n bs) as Hdm.
  pose proof (Nat.mod_upper_bound n bs ltac:(lia)) as Hmod.
  cbn [andb]. destruct (n mod bs =? 0) eqn:Em; cbn [negb]; intros [= <-].
  - apply Nat.eqb_eq in Em. repeat split; nia.
  - apply Nat.eqb_neq in Em. repeat split; nia.
Qed.

(** C4.  For a non-empty dataset of non-empty sequences, [test_model] returns
    100 × (sum over the batches of the generator of: number of positions of
    the padded batch where the decoded tag id equals the tag id, divided by
    the width of the batch) / (number of sequences). *)
Theorem test_model_accuracy {num : Type} `{Scalar num} (batch_size : nat)
    (perm : list nat) (model : tagger num) (tokens tags : list (list string))
    (criterion : tensor num → tensor nat → result num)
    (writer : bool) (epoch : nat) (g : globals) :
  0 < batch_size →
  tokens ≠ [] →
  Forall2 (λ t s, length t = length s) tokens tags →
  Forall (λ t : list string, t ≠ []) tokens →
  perm ≡ₚ seq 0 (length tokens) →
  n_tags model ≠ 0 →
  (∀ o y, is_ok (criterion o y) = true) →
  ∃ bs g0 out g',
    Batching.batches_generator batch_size tokens tags true true perm g
    = Ok (bs, g0)
    ∧ test_model batch_size perm model tokens tags criterion writer epoch g
      = Ok (accuracy_of model bs (length tokens), out, g').
Proof.
  intros Hpos Hne Hsame Hnonempty Hperm Htags Hcrit.
  destruct (batches_generator_spec batch_size tokens tags true true perm g
              Hpos Hsame Hperm) as (nb & g0 & Hnb & Hgen & _).
  destruct (order_of_valid true perm _ Hperm) as [Hvalid Hlen].
  destruct (n_batches_cover batch_size (length tokens) nb Hpos Hnb)
    as (Hcover & Hstart & Hsome).
  eexists _, g0. unfold test_model. rewrite Hnb. cbn [mbind result_bind rbind].
  edestruct (test_loop_spec batch_size (Batching.order_of true perm (length tokens))
               model tokens tags criterion g Hsame Hnonempty Hvalid Hlen Htags
               Hcrit (seq 0 nb)) as (st & -> & Hc & Hn & Hs & _).
  { apply Forall_forall. intros k Hk. apply elem_of_seq in Hk. apply Hstart. lia. }
  { done. }
  { apply same_views_refl. }
  cbn [ts_correct ts_n ts_n_samples ts_globals plus] in Hc, Hn, Hs.
  cbn [mbind result_bind rbind]. rewrite length_seq in Hn.
  assert (0 < length tokens) by (destruct tokens; [done|cbn; lia]).
  destruct (ts_n st =? 0) eqn:E; [apply Nat.eqb_eq in E; lia|].
  eexists _, _. split; [exact Hgen|]. do 3 f_equal.
  unfold accuracy_of. rewrite Hc. f_equal. f_equal. rewrite Hs.
  rewrite (list_fmap_ext _ (λ k, ((k + 1) * batch_size) `min` length tokens
                                 - k * batch_size) (seq 0 nb))
    by (intros; by apply batch_indices_length).
  rewrite sum_batch_sizes. lia.
Qed.

Lemma test_model_accuracy_witness :
  ∃ bs g0 out g',
    Batching.batches_generator 2 tokens3 tags3 true true [1; 0; 2]
                               example_globals
    = Ok (bs, g0)
    ∧ test_model 2 [1; 0; 2] always_outside tokens3 tags3 zero_loss false 0
                 example_globals
      = Ok (accuracy_of always_outside bs (length tokens3), out, g').
Proof.
  apply (test_model_accuracy 2 [1; 0; 2] always_outside tokens3 tags3 zero_loss
                             false 0 example_globals).
  - lia.
  - discriminate.
  - repeat constructor.
  - repeat constructor; discriminate.
  - apply perm_swap.
  - discriminate.
  - reflexivity.
Defined.

(** With the permutation [1; 0; 2] and batches of two, the tagger that always
    decodes [O] matches 9 of the 10 positions of the first batch (width 5)
    and 2 of the 3 of the second (width 3): 100 × (9/5 + 2/3) / 3. *)
Example test_model_scenario :
  (λ r, Qred r.1.1) <$> test_model 2 [1; 0; 2] always_outside tokens3 tags3
                                   zero_loss false 0 example_globals
  = Ok (Qred (100 * (9 / 5 + 2 / 3) / 3)).
Proof. vm_compute. reflexivity. Qed.

(** An empty dataset makes [test_model] fail in [loss /= n]. *)
Example test_model_empty :
  is_ok (test_model 2 [] always_outside [] [] zero_loss false 0 example_globals)
  = false.
Proof. vm_compute. reflexivity. Qed.

(** ** Training loop *)

Section TrainFacts.
Context {num : Type} `{Scalar num}.
Context {P G S : Type}.
Context (ops : @torch_ops num P G S).
Context (ner_tagger model optimizer : nat).
Context (batch_size : nat) (order : list nat)
  (train_tokens train_tags : list (list string))
  (criterion : tensor num → tensor nat → result num) (epoch : nat).
Hypothesis distinct : model ≠ ner_tagger.

Lemma rel_result_bind {A B} (R : A → A → Prop) (R' : B → B → Prop)
    (r1 r2 : result A) (k1 k2 : A → result B) :
  rel_result R r1 r2 →
  (∀ a1 a2, R a1 a2 → rel_result R' (k1 a1) (k2 a2)) →
  rel_result R' (r1 ≫= k1) (r2 ≫= k2).
Proof.
  destruct r1, r2; cbn; try done. intros Hr Hk. by apply Hk.
Qed.

Lemma rel_result_refl_eq {A} (r : result A) : rel_result (=) r r.
Proof. by destruct r. Qed.

Lemma train_step_agree st1 st2 batch_id :
  agree_states model optimizer st1 st2 →
  rel_result (agree_states model optimizer)
    (train_step ops ner_tagger batch_size order train_tokens train_tags
                criterion optimizer epoch st1 batch_id)
    (train_step ops ner_tagger batch_size order train_tokens train_tags
                criterion optimizer epoch st2 batch_id).
Proof.
  intros (Hc & Hr & Hl & Hg & Hlog & Hheap & Hsome & Hopt).
  unfold train_step. rewrite <- Hg, <- Hc, <- Hr, <- Hlog.
  destruct (Batching.batch_at _ _ _ _ _ _) as [[[[x y] lens] g]|e]; [|done].
  cbn [mbind result_bind rbind].
  set (h1 := alter _ optimizer (w_heap (tr_world st1))).
  set (h2 := alter _ optimizer (w_heap (tr_world st2))).
  assert (∀ l, l ≠ model → h1 !! l = h2 !! l) as Hh.
  { intros l Hne. subst h1 h2. rewrite !lookup_alter.
    case_decide; subst; by rewrite Hheap. }
  assert (is_Some (h1 !! model) ↔ is_Some (h2 !! model)) as Hs.
  { subst h1 h2. rewrite !lookup_alter.
    case_decide; subst; rewrite ?fmap_is_Some; done. }
  rewrite <- (Hh ner_tagger) by done.
  destruct (h1 !! ner_tagger) as [tagger_obj|]; [|done].
  destruct (forward _ _) as [o0|]; [|done]. cbn [mbind result_bind rbind].
  destruct (permute021 o0) as [outputs|]; [|done]. cbn [mbind result_bind rbind].
  destruct (criterion outputs (long y)) as [loss|]; [|done].
  cbn [mbind result_bind rbind].
  set (obj := set_grad _ tagger_obj).
  assert (∀ l, l ≠ model →
               <[ner_tagger := obj]> h1 !! l = <[ner_tagger := obj]> h2 !! l)
    as Hh'.
  { intros l Hne. rewrite !lookup_insert. case_decide; [done|by apply Hh]. }
  assert (is_Some (<[ner_tagger := obj]> h1 !! model)
          ↔ is_Some (<[ner_tagger := obj]> h2 !! model)) as Hs'.
  { by rewrite !lookup_insert_ne. }
  set (k1 := <[ner_tagger := obj]> h1) in *.
  set (k2 := <[ner_tagger := obj]> h2) in *.
  assert (∃ m1 s1 m2 s2,
    match k1 !! optimizer with
    | Some o => let '(p, s) := opt_step ops (w_opt (tr_world st1))
                                 (mod_params o) (mod_grad o) in
                (<[optimizer := set_params p o]> k1, s)
    | None => (k1, w_opt (tr_world st1))
    end = (m1, s1)
    ∧ match k2 !! optimizer with
      | Some o => let '(p, s) := opt_step ops (w_opt (tr_world st2))
                                   (mod_params o) (mod_grad o) in
                  (<[optimizer := set_params p o]> k2, s)
      | None => (k2, w_opt (tr_world st2))
      end = (m2, s2)
    ∧ (∀ l, l ≠ model → m1 !! l = m2 !! l)
    ∧ (is_Some (m1 !! model) ↔ is_Some (m2 !! model))
    ∧ (optimizer ≠ model → s1 = s2)) as (m1 & s1 & m2 & s2 & -> & -> & Hm & Hms & Hss).
  { destruct (decide (optimizer = model)) as [->|Hne].
    - destruct Hs' as [Hs1 Hs2].
      destruct (k1 !! model) as [o1|] eqn:E1, (k2 !! model) as [o2|] eqn:E2.
      + destruct (opt_step ops _ (mod_params o1) _) as [p1 s1].
        destruct (opt_step ops _ (mod_params o2) _) as [p2 s2].
        eexists _, _, _, _. split; [done|]. split; [done|].
        split; [|split; [|done]].
        * intros l Hne. rewrite !lookup_insert_ne by done. by apply Hh'.
        * by rewrite !lookup_insert_eq.
      + destruct Hs1 as [? [=]]; eauto.
      + destruct Hs2 as [? [=]]; eauto.
      + eexists _, _, _, _. split; [done|]. split; [done|].
        split; [done|]. split; [|done]. by rewrite E1, E2.
    - rewrite <- (Hh' optimizer), <- (Hopt Hne) by done.
      destruct (k1 !! optimizer) as [o|] eqn:E.
      + destruct (opt_step ops _ _ _) as [p s].
        eexists _, _, _, _. split; [done|]. split; [done|].
        split; [|split; [|done]].
        * intros l Hne2. rewrite !lookup_insert. case_decide; [done|by apply Hh'].
        * by rewrite !lookup_insert_ne.
      + eexists _, _, _, _. split; [done|]. split; [done|]. done. }
  destruct (max_indices num_ltb 1 outputs) as [y_pred|]; [|done].
  cbn [mbind result_bind rbind].
  destruct (Tensor.eq y_pred (long y)) as [c|]; [|done].
  cbn [mbind result_bind rbind].
  destruct (shape_at (long y) 1) as [width|]; [|done].
  cbn [mbind result_bind rbind].
  destruct (batch_id mod 100 =? 99).
  - destruct (shape_at (long x) 0) as [b|]; [|done].
    cbn [mbind result_bind rbind].
    destruct (_ =? 0); [done|]. cbn. unfold agree_states, agree_off. cbn.
    repeat split; try done; apply Hms.
  - cbn. unfold agree_states, agree_off. cbn.
    repeat split; try done; apply Hms.
Qed.

Lemma train_loop_agree ks : ∀ st1 st2,
  agree_states model optimizer st1 st2 →
  rel_result (agree_states model optimizer)
    (train_loop ops ner_tagger batch_size order train_tokens train_tags
                criterion optimizer epoch st1 ks)
    (train_loop ops ner_tagger batch_size order train_tokens train_tags
                criterion optimizer epoch st2 ks).
Proof.
  induction ks as [|k ks IH]; intros st1 st2 Hst; cbn [train_loop]; [done|].
  eapply rel_result_bind; [by apply train_step_agree|]. apply IH.
Qed.

(** What one iteration adds to the output: one forward call, on the module
    at [ner_tagger], and telemetry. *)
Lemma train_step_log st st' batch_id :
  train_step ops ner_tagger batch_size order train_tokens train_tags
             criterion optimizer epoch st batch_id = Ok st' →
  ∃ new, w_log (tr_world st') = w_log (tr_world st) ++ new
         ∧ forward_calls_on ner_tagger new.
Proof.
  unfold train_step. intros Hstep.
  destruct (Batching.batch_at _ _ _ _ _ _) as [[[[x y] lens] g]|e]; [|done].
  cbn [mbind result_bind rbind] in Hstep.
  destruct (_ !! ner_tagger) as [tagger_obj|]; [|done].
  destruct (forward _ _) as [o0|]; [|done].
  cbn [mbind result_bind rbind] in Hstep.
  destruct (permute021 o0) as [outputs|]; [|done].
  cbn [mbind result_bind rbind] in Hstep.
  destruct (criterion outputs (long y)) as [loss|]; [|done].
  cbn [mbind result_bind rbind] in Hstep.
  destruct (match _ !! optimizer with Some _ => _ | None => _ end) as [m s].
  destruct (max_indices num_ltb 1 outputs) as [y_pred|]; [|done].
  cbn [mbind result_bind rbind] in Hstep.
  destruct (Tensor.eq y_pred (long y)) as [c|]; [|done].
  cbn [mbind result_bind rbind] in Hstep.
  destruct (shape_at (long y) 1) as [width|]; [|done].
  cbn [mbind result_bind rbind] in Hstep.
  destruct (batch_id mod 100 =? 99).
  - destruct (shape_at (long x) 0) as [b|]; [|done].
    cbn [mbind result_bind rbind] in Hstep.
    destruct (_ =? 0); [done|]. injection Hstep as <-. cbn [tr_world w_log].
    rewrite <- !app_assoc. eexists. split; [reflexivity|].
    intros c0 Hin. rewrite !elem_of_app, !elem_of_cons, !elem_of_nil in Hin.
    destruct Hin as [[[=]|[]]|[[[=]|[]]|[[=]|[[=]|[]]]]]. done.
  - injection Hstep as <-. cbn [tr_world w_log].
    eexists. split; [reflexivity|].
    intros c0 Hin. apply list_elem_of_singleton in Hin. by injection Hin.
Qed.

Lemma forward_calls_on_app (l1 l2 : list (event num)) :
  forward_calls_on ner_tagger l1 → forward_calls_on ner_tagger l2 →
  forward_calls_on ner_tagger (l1 ++ l2).
Proof.
  intros H1 H2 c Hc. apply elem_of_app in Hc as [?|?]; eauto.
Qed.

Lemma train_loop_log ks : ∀ st st',
  train_loop ops ner_tagger batch_size order train_tokens train_tags
             criterion optimizer epoch st ks = Ok st' →
  ∃ new, w_log (tr_world st') = w_log (tr_world st) ++ new
         ∧ forward_calls_on ner_tagger new.
Proof.
  induction ks as [|k ks IH]; intros st st' Hloop; cbn [train_loop] in Hloop.
  - injection Hloop as <-. exists []. split; [by rewrite app_nil_r|].
    intros c Hc. by apply elem_of_nil in Hc.
  - destruct (train_step _ _ _ _ _ _ _ _ _ _ _) as [st1|] eqn:Hstep; [|done].
    cbn [mbind result_bind rbind] in Hloop.
    apply train_step_log in Hstep as (new1 & Hl1 & Hf1).
    apply IH in Hloop as (new2 & Hl2 & Hf2).
    exists (new1 ++ new2). split; [by rewrite Hl2, Hl1, app_assoc|].
    by apply forward_calls_on_app.
Qed.

End TrainFacts.

(** C6.  In [train_one_epoch] every forward pass is a call of the module the
    module-level name [ner_tagger] is bound to; and when [model] is another
    object, replacing that object by any other changes neither the outcome of
    the call, nor what is printed and sent to the writer, nor any other
    object (in particular the parameters and gradients of [ner_tagger]). *)
Theorem train_one_epoch_ignores_model {num : Type} `{Scalar num} {P G S : Type}
    (ops : @torch_ops num P G S) (ner_tagger : nat) (perm : list nat)
    (model : nat) (train_tokens train_tags : list (list string))
    (batch_size : nat) (criterion : tensor num → tensor nat → result num)
    (optimizer epoch : nat) (w : @world num P G S) (other : @module_obj P G) :
  model ≠ ner_tagger →
  is_Some (w_heap w !! model) →
  rel_result (agree_off model optimizer)
    (train_one_epoch ops ner_tagger perm model train_tokens train_tags
                     batch_size criterion optimizer epoch w)
    (train_one_epoch ops ner_tagger perm model train_tokens train_tags
                     batch_size criterion optimizer epoch
                     (replace_obj model other w))
  ∧ ∀ w', train_one_epoch ops ner_tagger perm model train_tokens train_tags
                          batch_size criterion optimizer epoch w = Ok w' →
          ∃ new, w_log w' = w_log w ++ new ∧ forward_calls_on ner_tagger new.
Proof.
  intros Hne [o Ho]. split.
  - unfold train_one_epoch. cbn [replace_obj w_heap w_globals w_opt w_log].
    rewrite Ho, lookup_insert_eq.
    destruct (Batching.n_batches_of batch_size (length train_tokens) true)
      as [n_batches|]; [|done].
    cbn [mbind result_bind rbind].
    eapply rel_result_bind.
    + apply train_loop_agree; [done|].
      unfold agree_states, agree_off. cbn.
      repeat split; try done.
      * intros l Hl. by rewrite !lookup_insert_ne.
      * by rewrite !lookup_insert_eq.
      * by rewrite !lookup_insert_eq.
    + intros st1 st2 (_ & _ & Hloss & Hg & Hlog & Hheap & Hsome & Hopt).
      rewrite <- Hloss. destruct (tr_loss st1); [|done].
      unfold rel_result, agree_off. cbn. rewrite Hg, Hlog. done.
  - intros w' Hrun. unfold train_one_epoch in Hrun. rewrite Ho in Hrun.
    destruct (Batching.n_batches_of batch_size (length train_tokens) true)
      as [n_batches|]; [|done].
    cbn [mbind result_bind rbind] in Hrun.
    destruct (train_loop _ _ _ _ _ _ _ _ _ _ _) as [st|] eqn:Hloop; [|done].
    cbn [mbind result_bind rbind] in Hrun.
    apply train_loop_log in Hloop as (new & Hl & Hf).
    destruct (tr_loss st) as [loss|]; [|done]. injection Hrun as <-.
    cbn [w_log tr_world] in *. rewrite Hl, <- app_assoc.
    eexists. split; [reflexivity|]. apply forward_calls_on_app; [done|].
    intros c Hc. rewrite !elem_of_cons, elem_of_nil in Hc.
    by destruct Hc as [[=]|[[=]|[]]].
Qed.

Lemma train_one_epoch_ignores_model_witness :
  rel_result (agree_off 1 0)
    (train_one_epoch sample_ops 0 [1; 0; 2] 1 tokens3 tags3 2 zero_loss 0 0
                     sample_world)
    (train_one_epoch sample_ops 0 [1; 0; 2] 1 tokens3 tags3 2 zero_loss 0 0
                     (replace_obj 1 (ModuleObj false 1 None) sample_world))
  ∧ ∀ w', train_one_epoch sample_ops 0 [1; 0; 2] 1 tokens3 tags3 2 zero_loss
                          0 0 sample_world = Ok w' →
          ∃ new, w_log w' = w_log sample_world ++ new
                 ∧ forward_calls_on 0 new.
Proof.
  apply (train_one_epoch_ignores_model sample_ops 0 [1; 0; 2] 1 tokens3 tags3 2
           zero_loss 0 0 sample_world (ModuleObj false 1 None)).
  - lia.
  - vm_compute. eauto.
Defined.

(** One epoch over two batches, called with the module at address 1 while
    [ner_tagger] is the module at address 0: both forward passes run on
    module 0. *)
Example train_one_epoch_scenario :
  w_log <$> train_one_epoch sample_ops 0 [1; 0; 2] 1 tokens3 tags3 2 zero_loss
                            0 0 sample_world
  = Ok [ForwardCall 0; ForwardCall 0; AddScalar "Train/Loss" 0%Q 0; Flush].
Proof. vm_compute. reflexivity. Qed.

(** ** More on the corpus reader *)

Module ReaderMore.
Import Reader.

Lemma normalize_plain token : plain_token (normalize token).
Proof.
  unfold normalize, plain_token.
  destruct (PyStr.startswith token "http://") eqn:E1;
    [cbn [orb]; vm_compute; done|].
  destruct (PyStr.startswith token "https://") eqn:E2;
    [cbn [orb]; vm_compute; done|].
  cbn [orb]. destruct (PyStr.startswith token "@") eqn:E3.
  - vm_compute. done.
  - done.
Qed.

Lemma normalize_of_plain token : plain_token token → normalize token = token.
Proof.
  intros (H1 & H2 & H3). unfold normalize. rewrite H2, H3. cbn [orb].
  by rewrite H1.
Qed.

Lemma step_invariant st line st' :
  step st line = Ok st' → reader_invariant st → reader_invariant st'.
Proof.
  unfold step. intros Hstep (Hal & Hne & Hlen & Hpl & Hpt).
  destruct (negb (PyStr.truthy (PyStr.strip line))).
  - destruct (tweet_tokens st) as [|t ts] eqn:Et; injection Hstep as <-;
      unfold reader_invariant; cbn [tokens tags tweet_tokens tweet_tags].
    + split; [done|]. split; [done|]. split; [done|]. split; [done|constructor].
    + split; [|split; [|split; [done|split; [|constructor]]]].
      * apply Forall2_app; [done|]. constructor; [done|constructor].
      * apply Forall_app. split; [done|]. constructor; [done|constructor].
      * apply Forall_app. split; [done|]. constructor; [done|constructor].
  - destruct (unpack2 _) as [[token tag]|]; [|done].
    injection Hstep as <-.
    unfold reader_invariant; cbn [tokens tags tweet_tokens tweet_tags].
    split; [done|]. split; [done|]. split; [|split; [done|]].
    + rewrite !length_app. cbn. lia.
    + apply Forall_app. split; [done|]. constructor; [|constructor].
      apply normalize_plain.
Qed.

Lemma loop_invariant lines : ∀ st st',
  loop st lines = Ok st' → reader_invariant st → reader_invariant st'.
Proof.
  induction lines as [|l lines IH]; intros st st' Hloop Hinv;
    cbn [loop] in Hloop.
  - by injection Hloop as <-.
  - destruct (step st l) as [st1|] eqn:Hstep; [|done].
    cbn [mbind result_bind rbind] in Hloop.
    eapply IH; [exact Hloop|]. by eapply step_invariant.
Qed.

Lemma init_invariant : reader_invariant init.
Proof. repeat split; constructor. Qed.

Lemma step_ok_well_formed st line :
  is_ok (step st line) = true → well_formed line = true.
Proof.
  intros Hok. unfold well_formed.
  destruct (blank line) eqn:Hb; [done|]. cbn [orb].
  destruct (two_fields line) eqn:Ht; [done|].
  by rewrite (ReaderFacts.step_malformed st line Hb Ht) in Hok.
Qed.

Lemma loop_ok_well_formed lines : ∀ st,
  is_ok (loop st lines) = true → Forall (λ l, well_formed l = true) lines.
Proof.
  induction lines as [|l lines IH]; intros st Hok; [constructor|].
  cbn [loop] in Hok.
  destruct (step st l) as [st1|] eqn:Hstep; [|done].
  cbn [mbind result_bind rbind] in Hok. constructor.
  - apply (step_ok_well_formed st). by rewrite Hstep.
  - by apply (IH st1).
Qed.

End ReaderMore.

(** X1.  [read_data] returns exactly when every line is blank or has two
    fields. *)
Theorem read_data_ok_iff (lines : list string) :
  is_ok (Reader.read_data lines) = true
  ↔ Forall (λ l, Reader.well_formed l = true) lines.
Proof.
  unfold Reader.read_data. split.
  - intros Hok. apply (ReaderMore.loop_ok_well_formed lines Reader.init).
    by destruct (Reader.loop Reader.init lines).
  - intros Hall.
    by destruct (ReaderFacts.loop_well_formed lines Reader.init Hall) as [st ->].
Qed.

(** X2.  On a file it accepts, [read_data] returns as many tag lists as token
    lists, each tag list as long as its token list, and no empty sequence. *)
Theorem read_data_aligned (lines : list string) :
  Forall (λ l, Reader.well_formed l = true) lines →
  ∃ tokens tags,
    Reader.read_data lines = Ok (tokens, tags)
    ∧ Forall2 (λ t s : list string, length t = length s) tokens tags
    ∧ Forall (λ t : list string, t ≠ []) tokens.
Proof.
  intros Hall. unfold Reader.read_data.
  destruct (ReaderFacts.loop_well_formed lines Reader.init Hall) as [st Hst].
  rewrite Hst. cbn. eexists _, _. split; [done|].
  destruct (ReaderMore.loop_invariant lines _ _ Hst ReaderMore.init_invariant)
    as (? & ? & _). done.
Qed.

Lemma read_data_aligned_witness :
  ∃ tokens tags,
    Reader.read_data ["a O"; "@b B-x"; ""; ""; "c O"; ""] = Ok (tokens, tags)
    ∧ Forall2 (λ t s : list string, length t = length s) tokens tags
    ∧ Forall (λ t : list string, t ≠ []) tokens.
Proof.
  apply (read_data_aligned ["a O"; "@b B-x"; ""; ""; "c O"; ""]).
  repeat constructor.
Defined.



Module RoundTrip.
Import Reader.

Lemma app_cons c (s t : string) : String c s +:+ t = String c (s +:+ t).
Proof. reflexivity. Qed.

Lemma app_empty_r (s : string) : s +:+ "" = s.
Proof. induction s as [|c s IH]; [done|]. rewrite app_cons. by f_equal. Qed.

Lemma app_assoc' (s1 s2 s3 : string) : (s1 +:+ s2) +:+ s3 = s1 +:+ (s2 +:+ s3).
Proof. induction s1 as [|c s1 IH]; [done|]. rewrite !app_cons. by f_equal. Qed.

Lemma rev_app_app s1 : ∀ s2 acc,
  String.rev_app (s1 +:+ s2) acc = String.rev_app s2 (String.rev_app s1 acc).
Proof.
  induction s1 as [|c s1 IH]; intros s2 acc; [done|].
  rewrite app_cons. cbn [String.rev_app]. apply IH.
Qed.

Lemma rev_app_rev_app s : ∀ a b,
  String.rev_app (String.rev_app s a) b = String.rev_app a (s +:+ b).
Proof.
  induction s as [|c s IH]; intros a b; cbn [String.rev_app]; [done|].
  rewrite IH. cbn [String.rev_app]. by rewrite app_cons.
Qed.

Lemma rev_rev s : String.rev (String.rev s) = s.
Proof.
  unfold String.rev. rewrite rev_app_rev_app. cbn [String.rev_app].
  apply app_empty_r.
Qed.

Lemma rev_app_nonempty s : ∀ acc, acc ≠ "" → String.rev_app s acc ≠ "".
Proof.
  induction s as [|c s IH]; intros acc Hacc; cbn [String.rev_app]; [done|].
  by apply IH.
Qed.

Lemma rev_word_nonempty w acc : w ≠ "" → String.rev_app w acc ≠ "".
Proof.
  destruct w as [|c w]; [done|]. intros _. cbn [String.rev_app].
  by apply rev_app_nonempty.
Qed.

Lemma lstrip_word w rest :
  is_word w → PyStr.lstrip (w +:+ rest) = w +:+ rest.
Proof.
  intros [Hne Hns]. destruct w as [|c w]; [done|].
  rewrite app_cons. cbn [no_space PyStr.lstrip] in *.
  apply andb_true_iff in Hns as [Hc _]. apply negb_true_iff in Hc.
  by rewrite Hc.
Qed.

Lemma lstrip_all_space e : all_space e = true → PyStr.lstrip e = "".
Proof.
  induction e as [|c e IH]; cbn [all_space PyStr.lstrip]; [done|].
  intros [Hc He]%andb_true_iff. rewrite Hc. by apply IH.
Qed.

Lemma lstrip_rev_all_space e : ∀ x,
  all_space e = true →
  PyStr.lstrip (String.rev_app e x) = PyStr.lstrip x.
Proof.
  induction e as [|c e IH]; intros x; cbn [all_space String.rev_app]; [done|].
  intros [Hc He]%andb_true_iff. rewrite IH by done. cbn [PyStr.lstrip].
  by rewrite Hc.
Qed.

Lemma lstrip_rev_word w : ∀ x,
  w ≠ "" → no_space w = true →
  PyStr.lstrip (String.rev_app w x) = String.rev_app w x.
Proof.
  induction w as [|c w IH]; intros x Hne Hns; [done|].
  cbn [no_space String.rev_app] in *.
  apply andb_true_iff in Hns as [Hc Hw]. apply negb_true_iff in Hc.
  destruct w as [|c' w].
  - cbn [String.rev_app PyStr.lstrip]. by rewrite Hc.
  - by apply IH.
Qed.

(** [strip] of a line with a pair. *)
Lemma strip_pair tok sep tag eol :
  is_word tok → is_word tag → all_space eol = true →
  PyStr.strip (tok +:+ sep +:+ tag +:+ eol) = tok +:+ sep +:+ tag.
Proof.
  intros Htok [Hne Hns] Heol. unfold PyStr.strip.
  rewrite lstrip_word by done. unfold PyStr.rstrip, String.rev.
  rewrite <- !app_assoc'. rewrite (rev_app_app _ eol).
  rewrite lstrip_rev_all_space by done.
  rewrite (rev_app_app _ tag). rewrite lstrip_rev_word by done.
  rewrite <- rev_app_app. fold (String.rev ((tok +:+ sep) +:+ tag)).
  fold (String.rev (String.rev ((tok +:+ sep) +:+ tag))).
  by rewrite rev_rev, app_assoc'.
Qed.

Lemma strip_blank eol : all_space eol = true → PyStr.strip eol = "".
Proof.
  intros Heol. unfold PyStr.strip. by rewrite lstrip_all_space.
Qed.

Lemma split_go_word w : ∀ cur rest,
  no_space w = true →
  PyStr.split_go cur (w +:+ rest) = PyStr.split_go (String.rev_app w cur) rest.
Proof.
  induction w as [|c w IH]; intros cur rest Hns; [done|].
  rewrite app_cons. cbn [no_space PyStr.split_go String.rev_app] in *.
  apply andb_true_iff in Hns as [Hc Hw]. apply negb_true_iff in Hc.
  rewrite Hc. by apply IH.
Qed.

Lemma split_go_spaces e : ∀ rest,
  all_space e = true →
  PyStr.split_go "" (e +:+ rest) = PyStr.split_go "" rest.
Proof.
  induction e as [|c e IH]; intros rest; [done|].
  rewrite app_cons. cbn [all_space PyStr.split_go].
  intros [Hc He]%andb_true_iff. rewrite Hc. by apply IH.
Qed.

Lemma split_go_end cur : cur ≠ "" → PyStr.split_go cur "" = [String.rev cur].
Proof. by destruct cur. Qed.

Lemma split_go_space_after cur e rest :
  cur ≠ "" → e ≠ "" → all_space e = true →
  PyStr.split_go cur (e +:+ rest) = String.rev cur :: PyStr.split_go "" rest.
Proof.
  intros Hcur He Hsp. destruct e as [|c e]; [done|].
  rewrite app_cons. cbn [all_space PyStr.split_go] in *.
  apply andb_true_iff in Hsp as [Hc Hsp]. rewrite Hc.
  destruct cur; [done|]. f_equal. by apply split_go_spaces.
Qed.

(** [split] of a stripped line with a pair. *)
Lemma split_pair tok sep tag :
  is_word tok → is_word tag → sep ≠ "" → all_space sep = true →
  PyStr.split (tok +:+ sep +:+ tag) = [tok; tag].
Proof.
  intros [Hne1 Hns1] [Hne2 Hns2] Hsep Hsp. unfold PyStr.split.
  rewrite split_go_word by done.
  rewrite split_go_space_after; [|by apply rev_word_nonempty|done|done].
  fold (String.rev tok). rewrite rev_rev. f_equal.
  replace (PyStr.split_go "" tag) with (PyStr.split_go "" (tag +:+ ""))
    by (by rewrite app_empty_r).
  rewrite split_go_word by done.
  rewrite split_go_end by (by apply rev_word_nonempty).
  fold (String.rev tag). by rewrite rev_rev.
Qed.

Section Lines.
Context (sep eol : string).
Hypothesis sep_nonempty : sep ≠ "".
Hypothesis sep_space : all_space sep = true.
Hypothesis eol_space : all_space eol = true.

Lemma step_pair st tok tag :
  is_word tok → is_word tag →
  step st (tok +:+ sep +:+ tag +:+ eol)
  = Ok (State (tokens st) (tags st)
              (tweet_tokens st ++ [normalize tok]) (tweet_tags st ++ [tag])).
Proof.
  intros Htok Htag. unfold step. rewrite strip_pair by done.
  assert (PyStr.truthy (tok +:+ sep +:+ tag) = true) as ->.
  { destruct Htok as [Hne _]. destruct tok; [done|]. by rewrite app_cons. }
  cbn [negb]. by rewrite split_pair.
Qed.

Lemma step_eol st :
  step st eol
  = Ok (match tweet_tokens st with
        | [] => State (tokens st) (tags st) [] []
        | _ :: _ => State (tokens st ++ [tweet_tokens st])
                          (tags st ++ [tweet_tags st]) [] []
        end).
Proof.
  unfold step. rewrite strip_blank by done. cbn. by destruct (tweet_tokens st).
Qed.

Lemma loop_pairs sent : ∀ st,
  Forall (λ p, is_word p.1 ∧ is_word p.2) sent →
  loop st ((λ p, p.1 +:+ sep +:+ p.2 +:+ eol) <$> sent)
  = Ok (State (tokens st) (tags st)
              (tweet_tokens st ++ ((λ p, normalize p.1) <$> sent))
              (tweet_tags st ++ ((λ p, p.2) <$> sent))).
Proof.
  induction sent as [|[tok tag] sent IH]; intros st Hall.
  - cbn. rewrite !app_nil_r. by destruct st.
  - apply Forall_cons in Hall as [[Htok Htag] Hall]. cbn [fst snd] in *.
    rewrite fmap_cons. cbn [loop fst snd]. rewrite step_pair by done.
    cbn [mbind result_bind rbind]. rewrite IH by done.
    cbn [tokens tags tweet_tokens tweet_tags]. rewrite <- !app_assoc. done.
Qed.

Lemma loop_corpus sents : ∀ toks tgs,
  Forall (λ sent, sent ≠ [] ∧ Forall (λ p, is_word p.1 ∧ is_word p.2) sent)
         sents →
  loop (State toks tgs [] []) (corpus_lines sep eol sents)
  = Ok (State (toks ++ ((λ sent : list (string * string),
                           (λ p, normalize p.1) <$> sent) <$> sents))
              (tgs ++ ((λ sent : list (string * string),
                          (λ p, p.2) <$> sent) <$> sents)) [] []).
Proof.
  induction sents as [|sent sents IH]; intros toks tgs Hall.
  - cbn. by rewrite !app_nil_r.
  - apply Forall_cons in Hall as [[Hne Hsent] Hall].
    unfold corpus_lines. rewrite fmap_cons. cbn [concat].
    rewrite <- !app_assoc, ReaderFacts.loop_app, loop_pairs by done.
    cbn [mbind result_bind rbind app loop tokens tags tweet_tokens tweet_tags].
    rewrite step_eol. cbn [mbind result_bind rbind tokens tags tweet_tokens
                            tweet_tags].
    destruct sent as [|p sent]; [done|]. rewrite !fmap_cons. cbn [app].
    fold (corpus_lines sep eol sents). rewrite IH by done.
    rewrite <- !app_assoc. done.
Qed.

End Lines.

End RoundTrip.

(** X4.  A corpus written one pair per line, with any whitespace between
    token and tag, any whitespace at the end of a line and a blank line after
    every sentence, is read back as it was written: the tags unchanged, the
    tokens with user mentions and URLs replaced. *)
Theorem read_data_corpus_lines (sep eol : string)
    (sents : list (list (string * string))) :
  sep ≠ "" → all_space sep = true → all_space eol = true →
  Forall (λ sent, sent ≠ [] ∧ Forall (λ p, is_word p.1 ∧ is_word p.2) sent)
         sents →
  Reader.read_data (corpus_lines sep eol sents)
  = Ok ((λ sent : list (string * string),
           (λ p, Reader.normalize p.1) <$> sent) <$> sents,
        (λ sent : list (string * string), (λ p, p.2) <$> sent) <$> sents).
Proof.
  intros Hsep Hsp Heol Hall. unfold Reader.read_data, Reader.init.
  by rewrite (RoundTrip.loop_corpus sep eol Hsep Hsp Heol sents [] [] Hall).
Qed.

Lemma read_data_corpus_lines_witness :
  Reader.read_data
    (corpus_lines tab nl [[("Ian", "B-PER"); ("@goodfellow", "I-PER")];
                          [("works", "O")]])
  = Ok ((λ sent : list (string * string),
           (λ p, Reader.normalize p.1) <$> sent)
          <$> [[("Ian", "B-PER"); ("@goodfellow", "I-PER")]; [("works", "O")]],
        (λ sent : list (string * string), (λ p, p.2) <$> sent)
          <$> [[("Ian", "B-PER"); ("@goodfellow", "I-PER")]; [("works", "O")]]).
Proof.
  apply (read_data_corpus_lines tab nl).
  - discriminate.
  - reflexivity.
  - reflexivity.
  - repeat constructor; discriminate.
Defined.

(** ** More on the vocabulary *)

Module VocabMore.
Import Vocab.

Lemma dense_init : dense_ids init.
Proof.
  split; [done|]. intros i. cbn. rewrite lookup_empty. split; [by intros [? [=]]|lia].
Qed.

Lemma dense_fresh st tok :
  dense_ids st → tok2idx st !! tok = None →
  dense_ids (State (<[tok := index st]> (tok2idx st))
               (<[index st := tok]> (idx2tok st))
               (S (index st))).
Proof.
  intros [Hsize Hids] Hfresh. split; cbn [index tok2idx idx2tok].
  - rewrite map_size_insert_None by done. by rewrite Hsize.
  - intros i. rewrite lookup_insert. case_decide as Hi.
    + subst. split; [lia|eauto].
    + rewrite Hids. lia.
Qed.

Lemma dense_add_tok st tok : dense_ids st → dense_ids (add_tok st tok).
Proof.
  intros Hd. unfold add_tok. destruct (tok2idx st !! tok) eqn:E; [done|].
  by apply dense_fresh.
Qed.

Lemma dense_seq seq : ∀ st, dense_ids st → dense_ids (foldl add_tok st seq).
Proof.
  induction seq as [|t seq IH]; intros st Hd; cbn [foldl]; [done|].
  by apply IH, dense_add_tok.
Qed.

Lemma dense_seqs seqs : ∀ st, dense_ids st → dense_ids (foldl (foldl add_tok) st seqs).
Proof.
  induction seqs as [|q seqs IH]; intros st Hd; cbn [foldl]; [done|].
  by apply IH, dense_seq.
Qed.

(** After the reserved symbols: [specials !! i] has id [index st + i]. *)
Lemma specials_state specials : ∀ st,
  dense_ids st → NoDup specials →
  (∀ s, s ∈ specials → tok2idx st !! s = None) →
  dense_ids (foldl add_special st specials)
  ∧ ∀ i s, specials !! i = Some s →
           tok2idx (foldl add_special st specials) !! s = Some (index st + i).
Proof.
  induction specials as [|t specials IH]; intros st Hd Hnd Hfresh; cbn [foldl].
  - split; [done|]. intros i s. by rewrite lookup_nil.
  - apply NoDup_cons in Hnd as [Hnotin Hnd].
    assert (tok2idx st !! t = None) as Ht by (apply Hfresh; by left).
    destruct (IH (add_special st t)) as [Hd' Hids]; [by apply dense_fresh|done| |].
    { intros s Hs. cbn. rewrite lookup_insert_ne; [apply Hfresh; by right|].
      by intros ->. }
    split; [done|]. intros [|i] s Hs; cbn in Hs.
    + injection Hs as <-. rewrite Nat.add_0_r.
      assert (∀ l st', tok2idx st' !! t = Some (index st) → t ∉ l →
                tok2idx (foldl add_special st' l) !! t = Some (index st)) as Hkeep.
      { induction l as [|u l IHl]; intros st' Hst' Hl; cbn [foldl]; [done|].
        apply IHl; [|by apply not_elem_of_cons in Hl as [_ ?]].
        cbn. rewrite lookup_insert_ne; [done|].
        apply not_elem_of_cons in Hl as [? _]. done. }
      apply Hkeep; [|done]. cbn. by rewrite lookup_insert_eq.
    + rewrite (Hids i s Hs). cbn. f_equal. lia.
Qed.

Lemma dense_build seqs specials :
  NoDup specials → dense_ids (build_state seqs specials).
Proof.
  intros Hnd. apply dense_seqs.
  apply (specials_state specials init dense_init Hnd).
  intros. apply lookup_empty.
Qed.

Lemma reserved_id seqs specials i s :
  NoDup specials → specials !! i = Some s →
  tok2idx (build_state seqs specials) !! s = Some i.
Proof.
  intros Hnd Hs. unfold build_state. apply VocabFacts.seqs_keeps.
  destruct (specials_state specials init dense_init Hnd) as [_ Hids];
    [intros; apply lookup_empty|].
  by rewrite (Hids i s Hs).
Qed.

Lemma foldl_concat seqs : ∀ st,
  foldl (foldl add_tok) st seqs = foldl add_tok st (concat seqs).
Proof.
  induction seqs as [|q seqs IH]; intros st; cbn [foldl concat]; [done|].
  by rewrite foldl_app, IH.
Qed.

Lemma seq_dom seq st :
  dom (tok2idx (foldl add_tok st seq))
  = dom (tok2idx st) ∪ (list_to_set seq : gset string).
Proof.
  apply set_eq. intros s.
  rewrite elem_of_dom, VocabFacts.seq_keys, elem_of_union, elem_of_dom,
    elem_of_list_to_set. tauto.
Qed.

Lemma specials_dom specials st :
  dom (tok2idx (foldl add_special st specials))
  = dom (tok2idx st) ∪ (list_to_set specials : gset string).
Proof.
  apply set_eq. intros s.
  rewrite elem_of_dom, VocabFacts.specials_keys, elem_of_union, elem_of_dom,
    elem_of_list_to_set. tauto.
Qed.

End VocabMore.

(** X5.  With no duplicate among the reserved symbols, the ids [build_dict]
    hands out are exactly the numbers below the number of symbols: every id
    in the symbol dictionary is below its size, and the id dictionary has the
    keys [0 .. size - 1]. *)
Theorem build_dict_dense (seqs : list (list string)) (specials : list string) :
  NoDup specials →
  (∀ s i, (Vocab.build_dict seqs specials).1 !! s = Some i →
          i < size (Vocab.build_dict seqs specials).1)
  ∧ (∀ i, is_Some ((Vocab.build_dict seqs specials).2 !! i)
          ↔ i < size (Vocab.build_dict seqs specials).1).
Proof.
  intros Hnd.
  destruct (VocabMore.dense_build seqs specials Hnd) as [Hsize Hids].
  destruct (VocabFacts.consistent_build seqs specials Hnd) as [Hmirror Hbound].
  unfold Vocab.build_dict. cbn [fst snd]. rewrite <- Hsize. split.
  - intros s i Hs. apply Hmirror in Hs. by apply Hbound in Hs.
  - exact Hids.
Qed.

Lemma build_dict_dense_witness :
  (∀ s i, (Vocab.build_dict [["hello"; "world"]; ["hello"]]
                            ["<UNK>"; "<PAD>"]).1 !! s = Some i →
          i < size (Vocab.build_dict [["hello"; "world"]; ["hello"]]
                                     ["<UNK>"; "<PAD>"]).1)
  ∧ (∀ i, is_Some ((Vocab.build_dict [["hello"; "world"]; ["hello"]]
                                     ["<UNK>"; "<PAD>"]).2 !! i)
          ↔ i < size (Vocab.build_dict [["hello"; "world"]; ["hello"]]
                                       ["<UNK>"; "<PAD>"]).1).
Proof.
  apply (build_dict_dense [["hello"; "world"]; ["hello"]] ["<UNK>"; "<PAD>"]).
  refine (bool_decide_unpack _ _). vm_compute. exact I.
Defined.

(** X6.  With no duplicate among them, the reserved symbols get the ids
    0, 1, ... in the order given, whatever the corpus holds. *)
Theorem build_dict_reserved (seqs : list (list string))
    (specials : list string) (i : nat) (s : string) :
  NoDup specials →
  specials !! i = Some s →
  (Vocab.build_dict seqs specials).1 !! s = Some i.
Proof. apply VocabMore.reserved_id. Qed.

Lemma build_dict_reserved_witness :
  (Vocab.build_dict [["<PAD>"; "hello"]] ["<UNK>"; "<PAD>"]).1 !! "<PAD>"
  = Some 1.
Proof.
  apply (build_dict_reserved [["<PAD>"; "hello"]] ["<UNK>"; "<PAD>"] 1 "<PAD>").
  - refine (bool_decide_unpack _ _). vm_compute. exact I.
  - reflexivity.
Defined.

(** X7.  Scanning more sequences never changes an id: the symbol dictionary
    built from [seqs] is contained in the one built from [seqs ++ more]. *)
Theorem build_dict_extends (seqs more : list (list string))
    (specials : list string) (s : string) (i : nat) :
  (Vocab.build_dict seqs specials).1 !! s = Some i →
  (Vocab.build_dict (seqs ++ more) specials).1 !! s = Some i.
Proof.
  unfold Vocab.build_dict, Vocab.build_state. cbn [fst]. rewrite foldl_app.
  apply VocabFacts.seqs_keeps.
Qed.

Lemma build_dict_extends_witness :
  (Vocab.build_dict ([["hello"]] ++ [["new"; "hello"]]) ["<UNK>"; "<PAD>"]).1
    !! "hello" = Some 2.
Proof.
  apply (build_dict_extends [["hello"]] [["new"; "hello"]] ["<UNK>"; "<PAD>"]).
  vm_compute. reflexivity.
Defined.

(** X8.  Ids follow the order of first occurrence: a corpus symbol that is
    not reserved gets as id the number of distinct symbols, reserved ones
    included, that come before its first occurrence. *)
Theorem build_dict_first_seen (seqs : list (list string))
    (specials pre post : list string) (s : string) :
  NoDup specials →
  concat seqs = pre ++ s :: post →
  s ∉ pre → s ∉ specials →
  (Vocab.build_dict seqs specials).1 !! s
  = Some (size (list_to_set (specials ++ pre) : gset string)).
Proof.
  intros Hnd Hcat Hpre Hspecial.
  unfold Vocab.build_dict, Vocab.build_state. cbn [fst].
  rewrite VocabMore.foldl_concat, Hcat, foldl_app. cbn [foldl].
  apply VocabFacts.seq_keeps.
  set (st0 := foldl Vocab.add_special Vocab.init specials).
  set (st1 := foldl Vocab.add_tok st0 pre).
  assert (dense_ids st1) as [Hsize _].
  { apply VocabMore.dense_seq.
    apply (VocabMore.specials_state specials Vocab.init VocabMore.dense_init Hnd).
    intros. apply lookup_empty. }
  assert (dom (Vocab.tok2idx st1) = list_to_set (specials ++ pre)) as Hdom.
  { subst st1 st0. rewrite VocabMore.seq_dom, VocabMore.specials_dom.
    cbn [Vocab.init Vocab.tok2idx]. rewrite dom_empty_L, list_to_set_app_L.
    set_solver. }
  assert (Vocab.tok2idx st1 !! s = None) as Hfresh.
  { apply not_elem_of_dom. rewrite Hdom, elem_of_list_to_set, elem_of_app.
    tauto. }
  unfold Vocab.add_tok. rewrite Hfresh. cbn [Vocab.tok2idx].
  rewrite lookup_insert_eq, Hsize, <- Hdom. by rewrite size_dom.
Qed.

Lemma build_dict_first_seen_witness :
  (Vocab.build_dict [["b"; "<PAD>"]; ["b"; "a"; "c"]] ["<UNK>"; "<PAD>"]).1 !! "a"
  = Some (size (list_to_set (["<UNK>"; "<PAD>"] ++ ["b"; "<PAD>"; "b"])
                : gset string)).
Proof.
  apply (build_dict_first_seen [["b"; "<PAD>"]; ["b"; "a"; "c"]]
                               ["<UNK>"; "<PAD>"] ["b"; "<PAD>"; "b"] ["c"] "a").
  - refine (bool_decide_unpack _ _). vm_compute. exact I.
  - reflexivity.
  - refine (bool_decide_unpack _ _). vm_compute. exact I.
  - refine (bool_decide_unpack _ _). vm_compute. exact I.
Defined.

Lemma getitems_fmap {A} (d : gmap nat string) (f : A → nat) (h : A → string)
    (l : list A) :
  (∀ a, a ∈ l → d !! f a = Some (h a)) →
  Vocab.getitems d (f <$> l) = Ok (h <$> l).
Proof.
  induction l as [|a l IH]; intros Hall; [done|].
  rewrite !fmap_cons. cbn [Vocab.getitems].
  rewrite (Hall a) by (by left). rewrite IH by (intros; apply Hall; by right).
  done.
Qed.

Lemma getitems_ok_iff (d : gmap nat string) (idxs : list nat) :
  is_ok (Vocab.getitems d idxs) = true ↔ Forall (λ i, is_Some (d !! i)) idxs.
Proof.
  split.
  - induction idxs as [|i idxs IH]; [constructor|]. cbn [Vocab.getitems].
    destruct (d !! i) as [s|] eqn:E; [|done]. intros Hok. constructor; [eauto|].
    apply IH. by destruct (Vocab.getitems d idxs).
  - intros Hall. by destruct (getitems_ok d idxs Hall) as (res & -> & _).
Qed.

Lemma NoDup_special_tokens : NoDup special_tokens.
Proof. refine (bool_decide_unpack _ _). vm_compute. exact I. Qed.

Lemma NoDup_special_tags : NoDup special_tags.
Proof. refine (bool_decide_unpack _ _). vm_compute. exact I. Qed.

Lemma make_globals_token2idx tr va tg :
  token2idx (make_globals tr va tg)
  = (Vocab.build_dict (tr ++ va) special_tokens).1.
Proof. reflexivity. Qed.

Lemma make_globals_idx2token tr va tg :
  idx2token (make_globals tr va tg)
  = (Vocab.build_dict (tr ++ va) special_tokens).2.
Proof. reflexivity. Qed.

Lemma make_globals_tag2idx tr va tg :
  tag2idx (make_globals tr va tg) = (Vocab.build_dict tg special_tags).1.
Proof. reflexivity. Qed.

Lemma make_globals_idx2tag tr va tg :
  idx2tag (make_globals tr va tg) = (Vocab.build_dict tg special_tags).2.
Proof. reflexivity. Qed.

(** Decoding the value of a subscript on a dictionary of [build_dict] whose
    first reserved symbol is [unk]. *)
Lemma decode_view seqs specials unk w :
  NoDup specials → specials !! 0 = Some unk →
  (Vocab.build_dict seqs specials).2
    !! Vocab.view (Vocab.build_dict seqs specials).1 w
  = Some (match (Vocab.build_dict seqs specials).1 !! w with
          | Some _ => w
          | None => unk
          end).
Proof.
  intros Hnd Hunk.
  destruct (VocabFacts.consistent_build seqs specials Hnd) as [Hmirror _].
  change (Vocab.build_dict seqs specials).1
    with (Vocab.tok2idx (Vocab.build_state seqs specials)).
  change (Vocab.build_dict seqs specials).2
    with (Vocab.idx2tok (Vocab.build_state seqs specials)).
  unfold Vocab.view.
  destruct (Vocab.tok2idx (Vocab.build_state seqs specials) !! w)
    as [i|] eqn:E; cbn.
  - by apply Hmirror.
  - apply Hmirror. by apply VocabMore.reserved_id.
Qed.

(** X9.  With the dictionaries of the notebook, decoding the ids of a list of
    tokens gives back every token of the vocabulary and [<UNK>] for every
    other token; the decoding never fails. *)
Theorem words_round_trip (train_tokens validation_tokens train_tags
    : list (list string)) (ws : list string) :
  idxs2words
    (words2idxs ws (make_globals train_tokens validation_tokens train_tags)).1
    (words2idxs ws (make_globals train_tokens validation_tokens train_tags)).2
  = Ok ((λ w, match token2idx (make_globals train_tokens validation_tokens
                                            train_tags) !! w with
              | Some _ => w
              | None => "<UNK>"
              end) <$> ws).
Proof.
  set (g := make_globals train_tokens validation_tokens train_tags).
  unfold idxs2words. rewrite words2idxs_ids, words2idxs_globals.
  cbn [set_token2idx idx2token]. apply getitems_fmap. intros w _.
  apply (decode_view _ special_tokens "<UNK>");
    [apply NoDup_special_tokens|done].
Qed.

(** X10.  A tag that does not occur in the training tags is mapped by
    [tags2idxs] to the id of [O] without any error, so that it decodes as
    [O]; every other tag decodes as itself. *)
Theorem tags_round_trip (train_tokens validation_tokens train_tags
    : list (list string)) (ts : list string) :
  idxs2tags
    (tags2idxs ts (make_globals train_tokens validation_tokens train_tags)).1
    (tags2idxs ts (make_globals train_tokens validation_tokens train_tags)).2
  = Ok ((λ t, match tag2idx (make_globals train_tokens validation_tokens
                                          train_tags) !! t with
              | Some _ => t
              | None => "O"
              end) <$> ts).
Proof.
  set (g := make_globals train_tokens validation_tokens train_tags).
  unfold idxs2tags. rewrite tags2idxs_ids, tags2idxs_globals.
  cbn [set_tag2idx idx2tag]. apply getitems_fmap. intros t _.
  apply (decode_view _ special_tags "O"); [apply NoDup_special_tags|done].
Qed.

(** X11.  With the dictionaries of the notebook, [idxs2tags] returns exactly
    when every id is below the number of tags; otherwise it raises
    [KeyError]. *)
Theorem idxs2tags_ok_iff (train_tokens validation_tokens train_tags
    : list (list string)) (idxs : list nat) :
  is_ok (idxs2tags idxs (make_globals train_tokens validation_tokens
                                      train_tags)) = true
  ↔ Forall (λ i, i < size (tag2idx (make_globals train_tokens validation_tokens
                                                 train_tags))) idxs.
Proof.
  unfold idxs2tags. rewrite getitems_ok_iff.
  rewrite make_globals_idx2tag, make_globals_tag2idx.
  destruct (VocabMore.dense_build train_tags special_tags NoDup_special_tags)
    as [Hsize Hids].
  apply Forall_iff. intros i. unfold Vocab.build_dict. cbn [fst snd].
  rewrite <- Hsize. apply Hids.
Qed.

Example idxs2tags_key_error :
  idxs2tags [0; 7] (make_globals [["hello"]] [] [["B-PER"; "O"]])
  = Raise (KeyError "7").
Proof. vm_compute. reflexivity. Qed.

(** ** More on the batch generator *)

Module BatchMore.

Lemma ceil_div n bs :
  0 < bs →
  n / bs + (if negb (n mod bs =? 0) then 1 else 0) = (n + bs - 1) / bs.
Proof.
  intros Hpos. pose proof (Nat.div_mod_eq n bs) as Hdm.
  pose proof (Nat.mod_upper_bound n bs ltac:(lia)) as Hmod.
  destruct (n mod bs =? 0) eqn:E; cbn [negb].
  - apply Nat.eqb_eq in E. rewrite Nat.add_0_r.
    apply (Nat.div_unique _ bs (n / bs) (bs - 1)); lia.
  - apply Nat.eqb_neq in E.
    apply (Nat.div_unique _ bs (n / bs + 1) (n mod bs - 1)); lia.
Qed.

Lemma n_batches_value bs n allow :
  0 < bs →
  Batching.n_batches_of bs n allow
  = Ok (if allow then (n + bs - 1) / bs else n / bs).
Proof.
  intros Hpos. unfold Batching.n_batches_of.
  destruct (bs =? 0) eqn:E; [apply Nat.eqb_eq in E; lia|].
  destruct allow; cbn [andb]; [|done].
  rewrite <- ceil_div by done. destruct (negb _); f_equal; lia.
Qed.

(** every batch starts inside the data *)
Lemma batch_starts bs n allow nb k :
  0 < bs → Batching.n_batches_of bs n allow = Ok nb → k < nb → k * bs < n.
Proof.
  intros Hpos. unfold Batching.n_batches_of.
  destruct (bs =? 0) eqn:E; [apply Nat.eqb_eq in E; lia|].
  pose proof (Nat.div_mod_eq n bs) as Hdm.
  pose proof (Nat.mod_upper_bound n bs ltac:(lia)) as Hmod.
  destruct (allow && negb (n mod bs =? 0)) eqn:Ea; intros [= <-] Hk.
  - apply andb_true_iff in Ea as [_ Ea]. apply negb_true_iff, Nat.eqb_neq in Ea.
    nia.
  - nia.
Qed.

(** without a smaller last batch, every batch is whole *)
Lemma batch_whole bs n nb k :
  0 < bs → Batching.n_batches_of bs n false = Ok nb → k < nb →
  (k + 1) * bs ≤ n.
Proof.
  intros Hpos. unfold Batching.n_batches_of.
  destruct (bs =? 0) eqn:E; [apply Nat.eqb_eq in E; lia|].
  pose proof (Nat.div_mod_eq n bs) as Hdm. cbn [andb]. intros [= <-] Hk. nia.
Qed.

Lemma concat_batch_indices bs n order m :
  length order = n →
  concat ((λ k, batch_indices bs n order k) <$> seq 0 m)
  = take ((m * bs) `min` n) order.
Proof.
  intros Hlen. induction m as [|m IH]; [done|].
  rewrite seq_S, fmap_app, concat_app, IH. cbn [fmap list_fmap concat plus].
  rewrite app_nil_r. unfold batch_indices.
  destruct (decide (m * bs ≤ n)) as [Hle|Hgt].
  - rewrite (Nat.min_l (m * bs) n) by done. rewrite take_take_drop.
    f_equal. lia.
  - rewrite drop_ge by lia. rewrite take_nil, app_nil_r. f_equal. lia.
Qed.

Lemma concat_fmap_inner {A B C} (f : B → C) (I : A → list B) (ks : list A) :
  concat ((λ k, f <$> I k) <$> ks) = f <$> concat (I <$> ks).
Proof.
  induction ks as [|k ks IH]; [done|].
  rewrite !fmap_cons. cbn [concat]. by rewrite fmap_app, IH.
Qed.

Lemma view_lt seqs specials unk k :
  NoDup specials → specials !! 0 = Some unk →
  Vocab.view (Vocab.build_dict seqs specials).1 k
  < size (Vocab.build_dict seqs specials).1.
Proof.
  intros Hnd Hunk.
  destruct (VocabMore.dense_build seqs specials Hnd) as [Hsize _].
  destruct (VocabFacts.consistent_build seqs specials Hnd) as [Hmirror Hbound].
  unfold Vocab.build_dict. cbn [fst]. rewrite <- Hsize.
  assert (∀ s i, Vocab.tok2idx (Vocab.build_state seqs specials) !! s = Some i →
                 i < Vocab.index (Vocab.build_state seqs specials)) as Hlt.
  { intros s i Hs. apply Hmirror in Hs. by apply Hbound in Hs. }
  unfold Vocab.view.
  destruct (Vocab.tok2idx (Vocab.build_state seqs specials) !! k) as [i|] eqn:E.
  - by apply (Hlt k).
  - cbn. apply (Hlt unk). by apply VocabMore.reserved_id.
Qed.

Lemma batch_of_ids_below tokens tags idxs g nx ny :
  (∀ k, Vocab.view (token2idx g) k < nx) →
  (∀ k, Vocab.view (tag2idx g) k < ny) →
  Forall (λ v, v < nx) (data (batch_of tokens tags idxs g).1.1)
  ∧ Forall (λ v, v < ny) (data (batch_of tokens tags idxs g).1.2).
Proof.
  intros Hx Hy. unfold batch_of. cbn [fst snd data].
  split; apply Forall_concat, Forall_fmap, Forall_fmap, Forall_forall;
    intros idx _; cbn; unfold padded, ids_of; apply Forall_app;
    (split; [apply Forall_fmap, Forall_forall; intros; cbn; done
            |by apply Forall_replicate]).
Qed.

End BatchMore.

(** X12.  With a positive batch size the generator yields ⌈N / batch_size⌉
    batches when a smaller last batch is allowed and ⌊N / batch_size⌋
    otherwise. *)
Theorem batches_generator_count (batch_size : nat)
    (tokens tags : list (list string)) (shuffle allow_smaller_last_batch : bool)
    (perm : list nat) (g : globals) :
  0 < batch_size →
  Forall2 (λ t s, length t = length s) tokens tags →
  perm ≡ₚ seq 0 (length tokens) →
  ∃ bs g',
    Batching.batches_generator batch_size tokens tags shuffle
                               allow_smaller_last_batch perm g = Ok (bs, g')
    ∧ length bs = if allow_smaller_last_batch
                  then (length tokens + batch_size - 1) / batch_size
                  else length tokens / batch_size.
Proof.
  intros Hpos Hsame Hperm.
  destruct (batches_generator_spec batch_size tokens tags shuffle
              allow_smaller_last_batch perm g Hpos Hsame Hperm)
    as (nb & g' & Hnb & Hgen & _).
  rewrite BatchMore.n_batches_value in Hnb by done. injection Hnb as <-.
  eexists _, _. split; [exact Hgen|]. by rewrite length_fmap, length_seq.
Qed.

Lemma batches_generator_count_witness :
  ∃ bs g',
    Batching.batches_generator 2 tokens3 tags3 true true [1; 0; 2]
                               example_globals = Ok (bs, g')
    ∧ length bs = if true then (length tokens3 + 2 - 1) / 2
                  else length tokens3 / 2.
Proof.
  apply (batches_generator_count 2 tokens3 tags3 true true [1; 0; 2]
                                 example_globals).
  - lia.
  - repeat constructor.
  - apply perm_swap.
Defined.

(** X13.  Batch [k] has [min batch_size (N - k * batch_size)] rows, at least
    one; when no smaller last batch is allowed every batch has exactly
    [batch_size] rows. *)
Theorem batches_generator_rows (batch_size : nat)
    (tokens tags : list (list string)) (shuffle allow_smaller_last_batch : bool)
    (perm : list nat) (g : globals) :
  0 < batch_size →
  Forall2 (λ t s, length t = length s) tokens tags →
  perm ≡ₚ seq 0 (length tokens) →
  ∃ bs g',
    Batching.batches_generator batch_size tokens tags shuffle
                               allow_smaller_last_batch perm g = Ok (bs, g')
    ∧ ∀ k x y lengths, bs !! k = Some (x, y, lengths) →
        let rows := batch_size `min` (length tokens - k * batch_size) in
        0 < rows
        ∧ shape lengths = [rows]
        ∧ length (data lengths) = rows
        ∧ shape x !! 0 = Some rows ∧ shape y !! 0 = Some rows
        ∧ (allow_smaller_last_batch = false → rows = batch_size).
Proof.
  intros Hpos Hsame Hperm.
  destruct (batches_generator_spec batch_size tokens tags shuffle
              allow_smaller_last_batch perm g Hpos Hsame Hperm)
    as (nb & g' & Hnb & Hgen & _).
  destruct (order_of_valid shuffle perm _ Hperm) as [_ Hlen].
  eexists _, _. split; [exact Hgen|]. intros k x y lengths Hk rows.
  rewrite list_lookup_fmap in Hk.
  destruct (seq 0 nb !! k) as [k'|] eqn:Ek; [|done].
  apply lookup_seq in Ek as [-> Hknb].
  set (idxs := batch_indices batch_size (length tokens)
                 (Batching.order_of shuffle perm (length tokens)) k).
  change (Some (batch_of tokens tags idxs g) = Some (x, y, lengths)) in Hk.
  pose proof (BatchMore.batch_starts _ _ _ _ _ Hpos Hnb Hknb) as Hstart.
  pose proof (batch_indices_length batch_size (length tokens) _ k Hlen) as Hrows.
  fold idxs in Hrows.
  assert (length idxs = rows) as Hr by (subst rows; lia).
  assert (batch_of tokens tags idxs g = (x, y, lengths)) as Hb by congruence.
  assert (x = (batch_of tokens tags idxs g).1.1) as -> by (by rewrite Hb).
  assert (y = (batch_of tokens tags idxs g).1.2) as -> by (by rewrite Hb).
  assert (lengths = (batch_of tokens tags idxs g).2) as -> by (by rewrite Hb).
  unfold batch_of. cbn [fst snd shape data lookup list_lookup].
  rewrite length_fmap, Hr.
  split; [subst rows; lia|]. split; [done|]. split; [done|].
  split; [done|]. split; [done|].
  intros ->. pose proof (BatchMore.batch_whole _ _ _ _ Hpos Hnb Hknb).
  subst rows. lia.
Qed.

Lemma batches_generator_rows_witness :
  ∃ bs g',
    Batching.batches_generator 2 tokens3 tags3 true false [1; 0; 2]
                               example_globals = Ok (bs, g')
    ∧ ∀ k x y lengths, bs !! k = Some (x, y, lengths) →
        let rows := 2 `min` (length tokens3 - k * 2) in
        0 < rows
        ∧ shape lengths = [rows]
        ∧ length (data lengths) = rows
        ∧ shape x !! 0 = Some rows ∧ shape y !! 0 = Some rows
        ∧ (false = false → rows = 2).
Proof.
  apply (batches_generator_rows 2 tokens3 tags3 true false [1; 0; 2]
                                example_globals).
  - lia.
  - repeat constructor.
  - apply perm_swap.
Defined.

(** X14.  Read batch after batch, the [lengths] vectors are the lengths of
    the sequences in the drawn order: of all of them when a smaller last
    batch is allowed, and otherwise of all but the last [N mod batch_size],
    which are in no batch. *)
Theorem batches_generator_order (batch_size : nat)
    (tokens tags : list (list string)) (shuffle allow_smaller_last_batch : bool)
    (perm : list nat) (g : globals) :
  0 < batch_size →
  Forall2 (λ t s, length t = length s) tokens tags →
  perm ≡ₚ seq 0 (length tokens) →
  ∃ bs g',
    Batching.batches_generator batch_size tokens tags shuffle
                               allow_smaller_last_batch perm g = Ok (bs, g')
    ∧ concat ((λ b : Batching.batch, data b.2) <$> bs)
      = (λ idx, length (tokens !!! idx))
        <$> take (if allow_smaller_last_batch then length tokens
                  else length tokens - length tokens mod batch_size)
                 (Batching.order_of shuffle perm (length tokens)).
Proof.
  intros Hpos Hsame Hperm.
  destruct (batches_generator_spec batch_size tokens tags shuffle
              allow_smaller_last_batch perm g Hpos Hsame Hperm)
    as (nb & g' & Hnb & Hgen & _).
  destruct (order_of_valid shuffle perm _ Hperm) as [_ Hlen].
  eexists _, _. split; [exact Hgen|].
  rewrite <- list_fmap_compose.
  transitivity (concat ((λ k, (λ idx, length (tokens !!! idx))
                                <$> batch_indices batch_size (length tokens)
                                      (Batching.order_of shuffle perm
                                         (length tokens)) k) <$> seq 0 nb)).
  { done. }
  rewrite BatchMore.concat_fmap_inner.
  rewrite BatchMore.concat_batch_indices by done. f_equal. f_equal.
  rewrite BatchMore.n_batches_value in Hnb by done. injection Hnb as <-.
  pose proof (Nat.div_mod_eq (length tokens) batch_size) as Hdm.
  destruct allow_smaller_last_batch.
  - rewrite <- BatchMore.ceil_div by done.
    pose proof (Nat.mod_upper_bound (length tokens) batch_size ltac:(lia)).
    destruct (length tokens mod batch_size =? 0) eqn:E; cbn [negb];
      [apply Nat.eqb_eq in E|apply Nat.eqb_neq in E]; nia.
  - nia.
Qed.

Lemma batches_generator_order_witness :
  ∃ bs g',
    Batching.batches_generator 2 tokens3 tags3 true false [1; 0; 2]
                               example_globals = Ok (bs, g')
    ∧ concat ((λ b : Batching.batch, data b.2) <$> bs)
      = (λ idx, length (tokens3 !!! idx))
        <$> take (if false then length tokens3
                  else length tokens3 - length tokens3 mod 2)
                 (Batching.order_of true [1; 0; 2] (length tokens3)).
Proof.
  apply (batches_generator_order 2 tokens3 tags3 true false [1; 0; 2]
                                 example_globals).
  - lia.
  - repeat constructor.
  - apply perm_swap.
Defined.

(** X15.  Generating the batches again, from the dictionaries as the first
    pass left them and with the same order, yields the same batches: the
    entries that failed lookups add to the dictionaries change no id. *)
Theorem batches_generator_again (batch_size : nat)
    (tokens tags : list (list string)) (shuffle allow_smaller_last_batch : bool)
    (perm : list nat) (g : globals) :
  0 < batch_size →
  Forall2 (λ t s, length t = length s) tokens tags →
  perm ≡ₚ seq 0 (length tokens) →
  ∃ bs g' g'',
    Batching.batches_generator batch_size tokens tags shuffle
                               allow_smaller_last_batch perm g = Ok (bs, g')
    ∧ Batching.batches_generator batch_size tokens tags shuffle
                                 allow_smaller_last_batch perm g' = Ok (bs, g'').
Proof.
  intros Hpos Hsame Hperm.
  destruct (batches_generator_spec batch_size tokens tags shuffle
              allow_smaller_last_batch perm g Hpos Hsame Hperm)
    as (nb & g' & Hnb & Hgen & Hv).
  destruct (batches_generator_spec batch_size tokens tags shuffle
              allow_smaller_last_batch perm g' Hpos Hsame Hperm)
    as (nb' & g'' & Hnb' & Hgen' & _).
  assert (nb' = nb) as -> by congruence.
  eexists _, g', g''. split; [exact Hgen|]. rewrite Hgen'. do 2 f_equal.
  apply list_fmap_ext. intros. by apply batch_of_views.
Qed.

Lemma batches_generator_again_witness :
  ∃ bs g' g'',
    Batching.batches_generator 2 tokens3 tags3 true true [1; 0; 2]
                               example_globals = Ok (bs, g')
    ∧ Batching.batches_generator 2 tokens3 tags3 true true [1; 0; 2] g'
      = Ok (bs, g'').
Proof.
  apply (batches_generator_again 2 tokens3 tags3 true true [1; 0; 2]
                                 example_globals).
  - lia.
  - repeat constructor.
  - apply perm_swap.
Defined.

(** X16.  With the dictionaries of the notebook, every entry of a token
    matrix is below the number of tokens of the vocabulary and every entry of
    a tag matrix below the number of tags, whatever tokens and tags the
    batched data holds: each is a row of the embedding, or a class of the
    loss. *)
Theorem batch_ids_in_range (train_tokens validation_tokens train_tags
    : list (list string)) (batch_size : nat)
    (tokens tags : list (list string)) (shuffle allow_smaller_last_batch : bool)
    (perm : list nat) :
  0 < batch_size →
  Forall2 (λ t s, length t = length s) tokens tags →
  perm ≡ₚ seq 0 (length tokens) →
  ∃ bs g',
    Batching.batches_generator batch_size tokens tags shuffle
      allow_smaller_last_batch perm
      (make_globals train_tokens validation_tokens train_tags) = Ok (bs, g')
    ∧ ∀ k x y lengths, bs !! k = Some (x, y, lengths) →
        Forall (λ v, v < size (token2idx (make_globals train_tokens
                                            validation_tokens train_tags)))
               (data x)
        ∧ Forall (λ v, v < size (tag2idx (make_globals train_tokens
                                            validation_tokens train_tags)))
                 (data y).
Proof.
  intros Hpos Hsame Hperm.
  set (g := make_globals train_tokens validation_tokens train_tags).
  destruct (batches_generator_spec batch_size tokens tags shuffle
              allow_smaller_last_batch perm g Hpos Hsame Hperm)
    as (nb & g' & Hnb & Hgen & _).
  eexists _, _. split; [exact Hgen|]. intros k x y lengths Hk.
  rewrite list_lookup_fmap in Hk.
  destruct (seq 0 nb !! k) as [k'|] eqn:Ek; [|done].
  set (idxs := batch_indices batch_size (length tokens)
                 (Batching.order_of shuffle perm (length tokens)) k').
  change (Some (batch_of tokens tags idxs g) = Some (x, y, lengths)) in Hk.
  assert (batch_of tokens tags idxs g = (x, y, lengths)) as Hb by congruence.
  assert (x = (batch_of tokens tags idxs g).1.1) as -> by (by rewrite Hb).
  assert (y = (batch_of tokens tags idxs g).1.2) as -> by (by rewrite Hb).
  apply BatchMore.batch_of_ids_below.
  - intros w. apply (BatchMore.view_lt _ special_tokens "<UNK>");
      [apply NoDup_special_tokens|done].
  - intros w. apply (BatchMore.view_lt _ special_tags "O");
      [apply NoDup_special_tags|done].
Qed.

Lemma batch_ids_in_range_witness :
  ∃ bs g',
    Batching.batches_generator 2 tokens3 tags3 true true [1; 0; 2]
      (make_globals [["hello"; "world"]] [] [["B-PER"; "O"]]) = Ok (bs, g')
    ∧ ∀ k x y lengths, bs !! k = Some (x, y, lengths) →
        Forall (λ v, v < size (token2idx (make_globals [["hello"; "world"]] []
                                            [["B-PER"; "O"]])))
               (data x)
        ∧ Forall (λ v, v < size (tag2idx (make_globals [["hello"; "world"]] []
                                            [["B-PER"; "O"]])))
                 (data y).
Proof.
  apply (batch_ids_in_range [["hello"; "world"]] [] [["B-PER"; "O"]] 2
                            tokens3 tags3 true true [1; 0; 2]).
  - lia.
  - repeat constructor.
  - apply perm_swap.
Defined.

(** * More on the predictor and the cells that call it *)

(** ** More on the predictor *)

Section PredictMore.
Context {num : Type} `{Scalar num}.

(** The ids [predict_sentence] decodes, for a sentence of two or more tokens
    and two or more tags: at each position, the first tag with the greatest
    score. *)
Lemma decoded_ids (ner_tagger : tagger num) (ids : list nat) :
  2 ≤ length ids → 2 ≤ n_tags ner_tagger →
  (forward ner_tagger (unsqueeze0 (of_list ids))
   ≫= λ y_pred, max_indices num_ltb 1 (squeeze y_pred))
  = Ok (Tensor Int64 [length ids]
          (predicted_tag ner_tagger (unsqueeze0 (of_list ids)) 0
           <$> seq 0 (length ids))).
Proof.
  intros Hlen Htags. destruct ids as [|v ids]; [cbn in Hlen; lia|].
  set (X := unsqueeze0 (of_list (v :: ids))).
  assert (forward ner_tagger X
          = Ok (tabulate Float32 [1; length (v :: ids); n_tags ner_tagger]
                  (score_at ner_tagger X))) as ->.
  { apply forward_matrix; [done|done|cbn; lia]. }
  cbn [mbind result_bind rbind].
  unfold max_indices, squeeze. cbn [shape tabulate dtype_of data].
  rewrite !filter_cons, filter_nil.
  rewrite decide_False by (intros Hn; by apply Hn).
  rewrite decide_True by lia. rewrite decide_True by lia.
  cbn [lookup list_lookup].
  destruct (n_tags ner_tagger) as [|t'] eqn:ET; [lia|]. rewrite <- ET.
  cbn [delete list_delete]. unfold tabulate at 1. f_equal.
  replace (numel [length (v :: ids)]) with (length (v :: ids))
    by (cbn [numel foldr]; lia).
  f_equal. apply list_fmap_ext. intros i j Hj. apply lookup_seq in Hj as [-> Hj].
  cbn [plus unravel numel foldr take drop app]. rewrite Nat.div_1_r.
  unfold predicted_tag. f_equal.
  apply list_fmap_ext. intros i' k Hk. apply lookup_seq in Hk as [-> Hk].
  cbn [plus].
  transitivity (get (tabulate Float32 [1; length (v :: ids); n_tags ner_tagger]
                       (score_at ner_tagger X)) [0; i; i']).
  { reflexivity. }
  apply get_tabulate. unfold in_range.
  repeat (constructor; [lia|]). constructor.
Qed.

End PredictMore.

(** X17.  For a sentence of two or more tokens, a tagger with two or more
    tags and no [tags] argument, [predict_sentence] prints nothing and
    returns the decoding by [idxs2tags] of, at each position, the first tag
    with the greatest score: one tag per token. *)
Theorem predict_sentence_argmax {num : Type} `{Scalar num}
    (ner_tagger : tagger num) (sentence : list string)
    (tags : option (list string)) (verbosity : nat) (g : globals) :
  2 ≤ length sentence →
  2 ≤ n_tags ner_tagger →
  (∀ i, i < n_tags ner_tagger → is_Some (idx2tag g !! i)) →
  tags_given tags = false →
  ∃ res g',
    predict_sentence ner_tagger sentence tags verbosity g = Ok (res, [], g')
    ∧ length res = length sentence
    ∧ idxs2tags
        (predicted_tag ner_tagger
           (unsqueeze0 (of_list (words2idxs sentence g).1)) 0
         <$> seq 0 (length sentence)) g
      = Ok res.
Proof.
  intros Hlen Htags Hdict Hgiven. unfold predict_sentence.
  pose proof (words2idxs_length sentence g) as Hids.
  pose proof (words2idxs_globals sentence g) as Hg.
  destruct (words2idxs sentence g) as [ids g1]. cbn [fst snd] in *.
  assert (idx2tag g1 = idx2tag g) as Hi2t by (by subst g1).
  pose proof (decoded_ids ner_tagger ids ltac:(lia) Htags) as Hdec.
  destruct (forward ner_tagger (unsqueeze0 (of_list ids))) as [y0|]; [|done].
  cbn [mbind result_bind rbind] in Hdec |- *. rewrite Hdec.
  cbn [mbind result_bind rbind to_list shape data].
  unfold idxs2tags. rewrite Hi2t, Hgiven, Hids.
  destruct (getitems_ok (idx2tag g)
              (predicted_tag ner_tagger (unsqueeze0 (of_list ids)) 0
               <$> seq 0 (length sentence))) as (res & Hres & Hl).
  { apply Forall_fmap, Forall_forall. intros j _. cbn. apply Hdict.
    unfold predicted_tag. eapply Nat.lt_le_trans; [apply argmax_lt|].
    - destruct (n_tags ner_tagger); [lia|done].
    - rewrite length_fmap, length_seq. lia. }
  rewrite Hres. cbn [mbind result_bind rbind]. eexists _, _.
  split; [reflexivity|]. split; [|done].
  by rewrite Hl, length_fmap, length_seq.
Qed.

Lemma predict_sentence_argmax_witness :
  ∃ res g',
    predict_sentence always_outside ["hello"; "there"] None 1 example_globals
    = Ok (res, [], g')
    ∧ length res = length ["hello"; "there"]
    ∧ idxs2tags
        (predicted_tag always_outside
           (unsqueeze0 (of_list (words2idxs ["hello"; "there"]
                                            example_globals).1)) 0
         <$> seq 0 (length ["hello"; "there"])) example_globals
      = Ok res.
Proof.
  apply (predict_sentence_argmax always_outside ["hello"; "there"] None 1
                                 example_globals).
  - cbn. lia.
  - cbn. lia.
  - intros i Hi. cbn in Hi.
    destruct i as [|[|i]]; [vm_compute; eauto|vm_compute; eauto|lia].
  - reflexivity.
Defined.

Section PredictMore2.
Context {num : Type} `{Scalar num}.

Lemma decoded_below (ner_tagger : tagger num) sentence g :
  n_tags ner_tagger ≠ 0 →
  Forall (λ i, i < n_tags ner_tagger) (decoded ner_tagger sentence g).
Proof.
  intros Ht. apply Forall_fmap, Forall_forall. intros j _. cbn.
  unfold predicted_tag. eapply Nat.lt_le_trans; [apply argmax_lt|].
  - destruct (n_tags ner_tagger); [lia|done].
  - rewrite length_fmap, length_seq. lia.
Qed.

(** [predict_sentence] up to the test of [tags]. *)
Lemma predict_sentence_prefix (ner_tagger : tagger num) sentence tags verbosity g :
  2 ≤ length sentence → 2 ≤ n_tags ner_tagger →
  predict_sentence ner_tagger sentence tags verbosity g
  = (res ← idxs2tags (decoded ner_tagger sentence g) g;
     let g1 := (words2idxs sentence g).2 in
     if tags_given tags then
       match true_tags g1 with
       | None => Raise (NameError "name 'true_tags' is not defined")
       | Some gold =>
           let '(ids, g2) := tags2idxs gold g1 in
           c ← Tensor.eq (Tensor Int64 [length sentence]
                            (decoded ner_tagger sentence g)) (of_list ids);
           if verbosity =? 0 then Ok (res, [], g2)
           else Ok (res, [CorrectTags (Tensor.sum c) (length res)], g2)
       end
     else Ok (res, [], g1)).
Proof.
  intros Hlen Htags. unfold predict_sentence, decoded.
  pose proof (words2idxs_length sentence g) as Hids.
  pose proof (words2idxs_globals sentence g) as Hg.
  destruct (words2idxs sentence g) as [ids g1]. cbn [fst snd] in *.
  assert (idx2tag g1 = idx2tag g) as Hi2t by (by subst g1).
  pose proof (decoded_ids ner_tagger ids ltac:(lia) Htags) as Hdec.
  destruct (forward ner_tagger (unsqueeze0 (of_list ids))) as [y0|]; [|done].
  cbn [mbind result_bind rbind] in Hdec |- *. rewrite Hdec.
  cbn [mbind result_bind rbind to_list shape data].
  unfold idxs2tags. rewrite Hi2t, Hids. done.
Qed.

End PredictMore2.

Lemma agree_fmap_zip (a : list nat) : ∀ b, length a = length b →
  (λ i, bool_decide (a !!! i = b !!! i)) <$> seq 0 (length a)
  = (λ p, bool_decide (p.1 = p.2)) <$> zip a b.
Proof.
  induction a as [|x a IH]; intros [|y b] Hl; try done.
  cbn [length seq fmap list_fmap zip zip_with]. f_equal.
  rewrite <- fmap_S_seq, <- list_fmap_compose.
  rewrite <- (IH b) by (cbn in Hl; lia). done.
Qed.

Lemma count_bool_decide {A} (P : A → Prop) `{∀ x, Decision (P x)} (l : list A) :
  length (filter (λ b, b = true) ((λ x, bool_decide (P x)) <$> l))
  = length (filter P l).
Proof.
  induction l as [|x l IH]; [done|]. cbn [fmap list_fmap].
  rewrite !filter_cons. destruct (decide (P x)) as [Hp|Hp].
  - rewrite (bool_decide_eq_true_2 _ Hp). rewrite decide_True by done.
    cbn. by rewrite IH.
  - rewrite (bool_decide_eq_false_2 _ Hp). rewrite decide_False by done. done.
Qed.

(** [a.eq(b).sum()] on two vectors of one length. *)
Lemma eq_vectors dt1 dt2 (a b : list nat) :
  length a = length b →
  ∃ c, Tensor.eq (Tensor dt1 [length a] a) (Tensor dt2 [length b] b) = Ok c
       ∧ Tensor.sum c = matching_ids a b.
Proof.
  intros Hl. unfold Tensor.eq. cbn [shape]. rewrite <- Hl, broadcast_same.
  eexists; split; [done|]. unfold Tensor.sum, matching_ids, tabulate.
  cbn [data]. rewrite <- (count_bool_decide (λ p : nat * nat, p.1 = p.2)).
  rewrite <- agree_fmap_zip by done. f_equal. f_equal.
  replace (numel [length a]) with (length a) by (cbn; lia).
  apply list_fmap_ext. intros i j Hj. apply lookup_seq in Hj as [-> Hj].
  assert (unravel [length a] (0 + i) = [i]) as ->.
  { cbn [unravel numel foldr]. by rewrite Nat.div_1_r. }
  rewrite bidx_in_range by (repeat constructor; done).
  unfold get. cbn [shape data ravel numel foldr].
  by replace (i * 1 + 0) with i by lia.
Qed.

Section PredictMore3.
Context {num : Type} `{Scalar num}.

Lemma idxs2tags_decoded (ner_tagger : tagger num) sentence g :
  n_tags ner_tagger ≠ 0 →
  (∀ i, i < n_tags ner_tagger → is_Some (idx2tag g !! i)) →
  ∃ res, idxs2tags (decoded ner_tagger sentence g) g = Ok res
         ∧ length res = length sentence.
Proof.
  intros Ht Hcov. pose proof (decoded_below ner_tagger sentence g Ht) as Hb.
  destruct (getitems_ok (idx2tag g) (decoded ner_tagger sentence g))
    as [res [Hres Hlen]].
  { eapply Forall_impl; [exact Hb|]. cbn. intros i Hi. by apply Hcov. }
  exists res. split; [exact Hres|].
  rewrite Hlen. unfold decoded. by rewrite length_fmap, length_seq.
Qed.

Lemma tags2idxs_length gold g : length (tags2idxs gold g).1 = length gold.
Proof. by rewrite tags2idxs_ids, length_fmap. Qed.

End PredictMore3.

(** X18.  With a non-empty [tags] argument and a non-zero verbosity,
    [predict_sentence] reports, out of the sentence length, the number of
    positions at which the decoded tag id equals the id that [tag2idx]
    holds for the tag of the module-level [true_tags] at that position
    (0 for a tag it does not hold), whenever [true_tags] is bound to a list
    as long as the sentence. *)
Theorem predict_sentence_count {num : Type} `{Scalar num}
    (ner_tagger : tagger num) (sentence : list string)
    (tags : option (list string)) (verbosity : nat) (g : globals)
    (gold : list string) :
  2 ≤ length sentence →
  2 ≤ n_tags ner_tagger →
  (∀ i, i < n_tags ner_tagger → is_Some (idx2tag g !! i)) →
  tags_given tags = true →
  verbosity ≠ 0 →
  true_tags g = Some gold →
  length gold = length sentence →
  ∃ res g',
    predict_sentence ner_tagger sentence tags verbosity g
    = Ok (res,
          [CorrectTags
             (matching_ids (decoded ner_tagger sentence g)
                           (Vocab.view (tag2idx g) <$> gold))
             (length sentence)],
          g').
Proof.
  intros Hlen Htags Hcov Hgiven Hv Hgold Hgl.
  rewrite predict_sentence_prefix by done.
  destruct (idxs2tags_decoded ner_tagger sentence g) as [res [-> Hres]];
    [lia|done|].
  cbn [mbind result_bind rbind]. rewrite Hgiven.
  pose proof (words2idxs_globals sentence g) as Hg.
  assert (true_tags (words2idxs sentence g).2 = Some gold) as ->.
  { rewrite Hg. exact Hgold. }
  pose proof (tags2idxs_length gold (words2idxs sentence g).2) as Hil.
  pose proof (tags2idxs_ids gold (words2idxs sentence g).2) as Hids.
  rewrite Hg in Hids at 2. cbn [tag2idx set_token2idx] in Hids.
  destruct (tags2idxs gold (words2idxs sentence g).2) as [ids g2].
  cbn [fst] in *. unfold of_list.
  assert (length (decoded ner_tagger sentence g) = length sentence) as Hd.
  { unfold decoded. by rewrite length_fmap, length_seq. }
  destruct (eq_vectors Int64 (match ids with [] => Float32 | _ => Int64 end)
              (decoded ner_tagger sentence g) ids) as [c [Hc Hs]]; [lia|].
  rewrite Hd in Hc. rewrite Hc. cbn [mbind result_bind rbind].
  destruct (verbosity =? 0) eqn:Hv0; [apply Nat.eqb_eq in Hv0; lia|].
  rewrite Hs, Hres, Hids. eauto.
Qed.

Lemma predict_sentence_count_witness :
  ∃ res g',
    predict_sentence always_outside ["hello"; "world"]
                     (Some ["B-PER"; "B-PER"]) 1 example_globals
    = Ok (res,
          [CorrectTags
             (matching_ids (decoded always_outside ["hello"; "world"]
                                    example_globals)
                           (Vocab.view (tag2idx example_globals)
                            <$> ["O"; "O"]))
             (length ["hello"; "world"])],
          g').
Proof.
  apply (predict_sentence_count always_outside ["hello"; "world"]
           (Some ["B-PER"; "B-PER"]) 1 example_globals ["O"; "O"]).
  - cbn. lia.
  - cbn. lia.
  - intros i Hi. cbn in Hi.
    destruct i as [|[|i]]; [vm_compute; eauto|vm_compute; eauto|lia].
  - reflexivity.
  - lia.
  - reflexivity.
  - reflexivity.
Defined.

Section CellFacts.
Context {num : Type} `{Scalar num}.
Context (ner_tagger : tagger num) (test_tags : list (list string)).
Hypothesis Htags : 2 ≤ n_tags ner_tagger.

Lemma predict_sentence_plain sentence g :
  2 ≤ length sentence →
  (∀ i, i < n_tags ner_tagger → is_Some (idx2tag g !! i)) →
  ∃ res, predict_sentence ner_tagger sentence None 0 g
         = Ok (res, [], (words2idxs sentence g).2)
         ∧ length res = length sentence.
Proof.
  intros Hlen Hcov. rewrite predict_sentence_prefix by done.
  destruct (idxs2tags_decoded ner_tagger sentence g) as [res [-> Hres]];
    [lia|done|].
  by exists res.
Qed.

Lemma collect_predictions_spec sents : ∀ ii y_pred y_test g,
  ii + length sents ≤ length test_tags →
  (∀ i, i < n_tags ner_tagger → is_Some (idx2tag g !! i)) →
  ∃ new g',
    collect_predictions ner_tagger test_tags ii sents y_pred y_test g
    = Ok (y_pred ++ new,
          y_test ++ (snd <$> filter (λ p, 1 < length p.1)
                                    (zip sents (drop ii test_tags))),
          g')
    ∧ Forall2 (λ res sent, length res = length sent)
              new (filter (λ sent, 1 < length sent) sents).
Proof.
  induction sents as [|sent rest IH]; intros ii y_pred y_test g Hn Hcov.
  - exists [], g. cbn. rewrite !app_nil_r. by split.
  - cbn [length] in Hn.
    destruct (lookup_lt_is_Some_2 test_tags ii) as [gold Hgold]; [lia|].
    rewrite (drop_S _ _ _ Hgold). cbn [zip zip_with collect_predictions].
    rewrite !filter_cons. cbn [fst].
    destruct (1 <? length sent) eqn:Hl.
    + apply Nat.ltb_lt in Hl.
      destruct (predict_sentence_plain sent g) as [res [-> Hres]]; [lia|done|].
      cbn [mbind result_bind rbind]. unfold Batching.getitem. rewrite Hgold.
      cbn [mbind result_bind rbind].
      destruct (IH (S ii) (y_pred ++ [res]) (y_test ++ [gold])
                  (words2idxs sent g).2) as [new [g' [-> Hall]]]; [lia| |].
      { by rewrite words2idxs_globals. }
      exists (res :: new), g'. rewrite !decide_True by done.
      cbn [fmap list_fmap snd]. rewrite <- !app_assoc. cbn [app].
      split; [done|]. by constructor.
    + apply Nat.ltb_ge in Hl.
      destruct (IH (S ii) y_pred y_test g) as [new [g' [-> Hall]]];
        [lia|done|].
      exists new, g'. rewrite !decide_False by lia. by split.
Qed.

End CellFacts.

(** X19.  The evaluation cell keeps exactly the test sentences of more than
    one token: for those, in order, [y_test] holds the gold tags and
    [y_pred] a prediction as long as the sentence; a sentence of one token
    or none reaches neither list. *)
Theorem collect_predictions_aligned {num : Type} `{Scalar num}
    (ner_tagger : tagger num) (test_tokens test_tags : list (list string))
    (g : globals) :
  2 ≤ n_tags ner_tagger →
  (∀ i, i < n_tags ner_tagger → is_Some (idx2tag g !! i)) →
  length test_tokens ≤ length test_tags →
  ∃ y_pred y_test g',
    collect_predictions ner_tagger test_tags 0 test_tokens [] [] g
    = Ok (y_pred, y_test, g')
    ∧ y_test = (snd <$> filter (λ p, 1 < length p.1)
                               (zip test_tokens test_tags))
    ∧ Forall2 (λ res sent, length res = length sent)
              y_pred (filter (λ sent, 1 < length sent) test_tokens).
Proof.
  intros Htags Hcov Hlen.
  destruct (collect_predictions_spec ner_tagger test_tags Htags test_tokens
              0 [] [] g) as [new [g' [Hrun Hall]]]; [lia|done|].
  rewrite drop_0 in Hrun. cbn [app] in Hrun.
  eexists new, _, g'. split; [exact Hrun|]. by split.
Qed.

Lemma collect_predictions_aligned_witness :
  ∃ y_pred y_test g',
    collect_predictions always_outside tags3 0
      [["hello"; "world"]; ["a"]; ["hello"; "a"; "world"]] [] []
      example_globals
    = Ok (y_pred, y_test, g')
    ∧ y_test = (snd <$> filter (λ p, 1 < length p.1)
                  (zip [["hello"; "world"]; ["a"]; ["hello"; "a"; "world"]]
                       tags3))
    ∧ Forall2 (λ res sent, length res = length sent)
              y_pred
              (filter (λ sent, 1 < length sent)
                 [["hello"; "world"]; ["a"]; ["hello"; "a"; "world"]]).
Proof.
  apply (collect_predictions_aligned always_outside
           [["hello"; "world"]; ["a"]; ["hello"; "a"; "world"]] tags3
           example_globals).
  - cbn. lia.
  - intros i Hi. cbn in Hi.
    destruct i as [|[|i]]; [vm_compute; eauto|vm_compute; eauto|lia].
  - cbn. lia.
Defined.

(** X20.  In the examples cell the list bound to [true_tags] is the one
    passed as [tags], so for a drawn sentence of two tokens or more the
    count printed is the number of positions at which the decoded id equals
    the id of that sentence's own gold tag. *)
Theorem show_example_count {num : Type} `{Scalar num}
    (ner_tagger : tagger num) (test_tokens test_tags : list (list string))
    (idx : nat) (g : globals) (sentence gold : list string) :
  2 ≤ n_tags ner_tagger →
  (∀ i, i < n_tags ner_tagger → is_Some (idx2tag g !! i)) →
  test_tokens !! idx = Some sentence →
  test_tags !! idx = Some gold →
  2 ≤ length sentence →
  length gold = length sentence →
  ∃ res g',
    show_example ner_tagger test_tokens test_tags idx g
    = Ok (res,
          [CorrectTags
             (matching_ids (decoded ner_tagger sentence g)
                           (Vocab.view (tag2idx g) <$> gold))
             (length sentence)],
          g').
Proof.
  intros Htags Hcov Hs Hg Hlen Hgl. unfold show_example, Batching.getitem.
  rewrite Hs, Hg. cbn [mbind result_bind rbind].
  rewrite predict_sentence_prefix by done.
  set (g0 := Globals _ _ _ _ _).
  assert (decoded ner_tagger sentence g0 = decoded ner_tagger sentence g)
    as Hdec.
  { unfold decoded. by rewrite !words2idxs_ids. }
  rewrite Hdec.
  destruct (idxs2tags_decoded ner_tagger sentence g) as [res [Hres Hrl]];
    [lia|done|].
  change (idxs2tags (decoded ner_tagger sentence g) g0)
    with (idxs2tags (decoded ner_tagger sentence g) g).
  rewrite Hres. cbn [mbind result_bind rbind].
  assert (tags_given (Some gold) = true) as ->.
  { destruct gold; [cbn in Hgl; lia|done]. }
  pose proof (words2idxs_globals sentence g0) as Hg1.
  assert (true_tags (words2idxs sentence g0).2 = Some gold) as ->.
  { by rewrite Hg1. }
  pose proof (tags2idxs_length gold (words2idxs sentence g0).2) as Hil.
  pose proof (tags2idxs_ids gold (words2idxs sentence g0).2) as Hids.
  rewrite Hg1 in Hids at 2. cbn [tag2idx set_token2idx g0] in Hids.
  destruct (tags2idxs gold (words2idxs sentence g0).2) as [ids g2].
  cbn [fst] in *. unfold of_list.
  assert (length (decoded ner_tagger sentence g) = length sentence) as Hd.
  { unfold decoded. by rewrite length_fmap, length_seq. }
  destruct (eq_vectors Int64 (match ids with [] => Float32 | _ => Int64 end)
              (decoded ner_tagger sentence g) ids) as [c [Hc Hsum]]; [lia|].
  rewrite Hd in Hc. rewrite Hc. cbn [mbind result_bind rbind Nat.eqb].
  rewrite Hsum, Hrl, Hids. eauto.
Qed.

Lemma show_example_count_witness :
  ∃ res g',
    show_example always_outside tokens3 tags3 2 example_globals
    = Ok (res,
          [CorrectTags
             (matching_ids (decoded always_outside ["hello"; "a"; "world"]
                                    example_globals)
                           (Vocab.view (tag2idx example_globals)
                            <$> ["O"; "O"; "B-PER"]))
             (length ["hello"; "a"; "world"])],
          g').
Proof.
  apply (show_example_count always_outside tokens3 tags3 2 example_globals
           ["hello"; "a"; "world"] ["O"; "O"; "B-PER"]).
  - cbn. lia.
  - intros i Hi. cbn in Hi.
    destruct i as [|[|i]]; [vm_compute; eauto|vm_compute; eauto|lia].
  - reflexivity.
  - reflexivity.
  - cbn. lia.
  - reflexivity.
Defined.
(** * More on evaluation *)

(** X21.  On an empty dataset [test_model] raises [ZeroDivisionError]: no
    batch is produced, and [loss /= n] divides by the number of batches. *)
Theorem test_model_empty_dataset {num : Type} `{Scalar num} (batch_size : nat)
    (perm : list nat) (model : tagger num) (tags : list (list string))
    (criterion : tensor num → tensor nat → result num)
    (writer : bool) (epoch : nat) (g : globals) :
  batch_size ≠ 0 →
  test_model batch_size perm model [] tags criterion writer epoch g
  = Raise (ZeroDivisionError "division by zero").
Proof.
  intros Hbs. unfold test_model, Batching.n_batches_of. cbn [length].
  destruct (batch_size =? 0) eqn:E; [apply Nat.eqb_eq in E; lia|].
  rewrite Nat.Div0.div_0_l, Nat.Div0.mod_0_l.
  cbn [Nat.eqb negb andb mbind result_bind rbind seq test_loop ts_n]. done.
Qed.

Lemma test_model_empty_dataset_witness :
  test_model 2 [] always_outside [] [] zero_loss true 0 example_globals
  = Raise (ZeroDivisionError "division by zero").
Proof.
  apply (test_model_empty_dataset 2 [] always_outside [] zero_loss true 0
                                  example_globals).
  lia.
Defined.

Section EvalMore.
Context {num : Type} `{Scalar num}.

(** [test_model] from any state with the views of [g]. *)
Lemma test_model_from batch_size perm (model : tagger num) tokens tags
    criterion writer epoch g g1 :
  0 < batch_size →
  tokens ≠ [] →
  Forall2 (λ t s, length t = length s) tokens tags →
  Forall (λ t : list string, t ≠ []) tokens →
  perm ≡ₚ seq 0 (length tokens) →
  n_tags model ≠ 0 →
  (∀ o y, is_ok (criterion o y) = true) →
  same_views g g1 →
  ∃ nb out g',
    Batching.n_batches_of batch_size (length tokens) true = Ok nb
    ∧ test_model batch_size perm model tokens tags criterion writer epoch g1
      = Ok (accuracy_of model
              (nth_batch batch_size tokens tags
                         (Batching.order_of true perm (length tokens)) g
               <$> seq 0 nb)
              (length tokens), out, g')
    ∧ same_views g g'.
Proof.
  intros Hpos Hne Hsame Hnonempty Hperm Htags Hcrit Hv.
  destruct (n_batches_of_pos batch_size (length tokens) true Hpos) as [nb Hnb].
  destruct (order_of_valid true perm _ Hperm) as [Hvalid Hlen].
  destruct (n_batches_cover batch_size (length tokens) nb Hpos Hnb)
    as (Hcover & Hstart & Hsome).
  exists nb. unfold test_model. rewrite Hnb. cbn [mbind result_bind rbind].
  edestruct (test_loop_spec batch_size
               (Batching.order_of true perm (length tokens))
               model tokens tags criterion g Hsame Hnonempty Hvalid Hlen Htags
               Hcrit (seq 0 nb)) as (st & -> & Hc & Hn & Hs & Hv').
  { apply Forall_forall. intros k Hk. apply elem_of_seq in Hk. apply Hstart. lia. }
  { done. }
  { exact Hv. }
  cbn [ts_correct ts_n ts_n_samples ts_globals plus] in Hc, Hn, Hs, Hv'.
  cbn [mbind result_bind rbind]. rewrite length_seq in Hn.
  assert (0 < length tokens) by (destruct tokens; [done|cbn; lia]).
  destruct (ts_n st =? 0) eqn:E; [apply Nat.eqb_eq in E; lia|].
  eexists _, _. split; [done|]. split; [|exact Hv'].
  do 3 f_equal. unfold accuracy_of. rewrite Hc. f_equal. f_equal. rewrite Hs.
  rewrite (list_fmap_ext _ (λ k, ((k + 1) * batch_size) `min` length tokens
                                 - k * batch_size) (seq 0 nb))
    by (intros; by apply batch_indices_length).
  rewrite sum_batch_sizes. lia.
Qed.

End EvalMore.

(** X22.  [test_model] may enlarge [token2idx] and [tag2idx], but every
    subscript on them reads the same afterwards, and a second evaluation
    from the state the first one leaves, with the same permutation, returns
    the same accuracy. *)
Theorem test_model_repeatable {num : Type} `{Scalar num} (batch_size : nat)
    (perm : list nat) (model : tagger num) (tokens tags : list (list string))
    (criterion : tensor num → tensor nat → result num)
    (writer : bool) (epoch : nat) (g : globals) :
  0 < batch_size →
  tokens ≠ [] →
  Forall2 (λ t s, length t = length s) tokens tags →
  Forall (λ t : list string, t ≠ []) tokens →
  perm ≡ₚ seq 0 (length tokens) →
  n_tags model ≠ 0 →
  (∀ o y, is_ok (criterion o y) = true) →
  ∃ accuracy out g',
    test_model batch_size perm model tokens tags criterion writer epoch g
    = Ok (accuracy, out, g')
    ∧ same_views g g'
    ∧ ∃ out' g'',
        test_model batch_size perm model tokens tags criterion writer epoch g'
        = Ok (accuracy, out', g'').
Proof.
  intros Hpos Hne Hsame Hnonempty Hperm Htags Hcrit.
  destruct (test_model_from batch_size perm model tokens tags criterion
              writer epoch g g Hpos Hne Hsame Hnonempty Hperm Htags Hcrit
              (same_views_refl g)) as (nb & out & g' & Hnb & Hrun & Hv).
  destruct (test_model_from batch_size perm model tokens tags criterion
              writer epoch g g' Hpos Hne Hsame Hnonempty Hperm Htags Hcrit Hv)
    as (nb' & out' & g'' & Hnb' & Hrun' & _).
  assert (nb' = nb) as -> by congruence.
  eexists _, out, g'. split; [exact Hrun|]. split; [exact Hv|].
  by exists out', g''.
Qed.

Lemma test_model_repeatable_witness :
  ∃ accuracy out g',
    test_model 2 [1; 0; 2] always_outside tokens3 tags3 zero_loss false 0
               example_globals
    = Ok (accuracy, out, g')
    ∧ same_views example_globals g'
    ∧ ∃ out' g'',
        test_model 2 [1; 0; 2] always_outside tokens3 tags3 zero_loss false 0
                   g'
        = Ok (accuracy, out', g'').
Proof.
  apply (test_model_repeatable 2 [1; 0; 2] always_outside tokens3 tags3
                               zero_loss false 0 example_globals).
  - lia.
  - discriminate.
  - repeat constructor.
  - repeat constructor; discriminate.
  - apply perm_swap.
  - discriminate.
  - reflexivity.
Defined.
(** * More on the training loop *)

Section TrainMore.
Context {num : Type} `{Scalar num}.
Context {P G S : Type}.
Context (ops : @torch_ops num P G S).
Context (ner_tagger optimizer : nat).
Context (batch_size : nat) (order : list nat)
  (train_tokens train_tags : list (list string))
  (criterion : tensor num → tensor nat → result num) (epoch : nat).

Lemma heap_frame_refl (h : gmap nat (@module_obj P G)) :
  heap_frame ner_tagger optimizer same_mode h h.
Proof. intros l. destruct (h !! l); by constructor. Qed.

Lemma heap_frame_trans (h1 h2 h3 : gmap nat (@module_obj P G)) mode :
  heap_frame ner_tagger optimizer mode h1 h2 →
  heap_frame ner_tagger optimizer same_mode h2 h3 →
  heap_frame ner_tagger optimizer mode h1 h3.
Proof.
  intros H12 H23 l. specialize (H12 l). specialize (H23 l).
  unfold same_mode in H23.
  destruct H12 as [o1 o2 (Hm & Hp & Hg)|]; inversion H23 as [? o3 (Hm' & Hp' & Hg')|];
    subst; constructor.
  split; [congruence|]. split.
  - intros Hl. rewrite Hp', Hp; done.
  - intros Hl1 Hl2. rewrite Hg', Hg; done.
Qed.

(** One iteration: the heap is framed, and the output grows by one forward
    call and telemetry. *)
Lemma train_step_frame st st' batch_id :
  train_step ops ner_tagger batch_size order train_tokens train_tags
             criterion optimizer epoch st batch_id = Ok st' →
  heap_frame ner_tagger optimizer same_mode
             (w_heap (tr_world st)) (w_heap (tr_world st'))
  ∧ is_Some (tr_loss st')
  ∧ ∃ new, w_log (tr_world st') = w_log (tr_world st) ++ new
           ∧ length (filter (λ e, is_forward_call e = true) new) = 1.
Proof.
  unfold train_step. intros Hstep.
  destruct (Batching.batch_at _ _ _ _ _ _) as [[[[x y] lens] g]|e]; [|done].
  cbn [mbind result_bind rbind] in Hstep.
  set (h0 := w_heap (tr_world st)) in *.
  set (h1 := alter _ optimizer h0) in *.
  destruct (h1 !! ner_tagger) as [tagger_obj|] eqn:Etag; [|done].
  destruct (forward _ _) as [o0|]; [|done].
  cbn [mbind result_bind rbind] in Hstep.
  destruct (permute021 o0) as [outputs|]; [|done].
  cbn [mbind result_bind rbind] in Hstep.
  destruct (criterion outputs (long y)) as [loss|]; [|done].
  cbn [mbind result_bind rbind] in Hstep.
  set (obj := set_grad _ tagger_obj) in *.
  set (h2 := <[ner_tagger := obj]> h1) in *.
  assert (heap_frame ner_tagger optimizer same_mode h0 h1) as F1.
  { intros l. subst h1. rewrite lookup_alter. case_decide as Hl.
    - subst l. destruct (h0 !! optimizer); constructor. by split.
    - destruct (h0 !! l); by constructor. }
  assert (heap_frame ner_tagger optimizer same_mode h1 h2) as F2.
  { intros l. subst h2. rewrite lookup_insert. case_decide as Hl.
    - subst l. rewrite Etag. constructor. by split.
    - destruct (h1 !! l); by constructor. }
  assert (∃ h3 s3,
    match h2 !! optimizer with
    | Some o => let '(p, s) := opt_step ops (w_opt (tr_world st))
                                 (mod_params o) (mod_grad o) in
                (<[optimizer := set_params p o]> h2, s)
    | None => (h2, w_opt (tr_world st))
    end = (h3, s3)
    ∧ heap_frame ner_tagger optimizer same_mode h2 h3)
    as (h3 & s3 & E3 & F3).
  { destruct (h2 !! optimizer) as [o|] eqn:Eo.
    - destruct (opt_step ops _ _ _) as [p s]. eexists _, _. split; [done|].
      intros l. rewrite lookup_insert. case_decide as Hl.
      + subst l. rewrite Eo. constructor. by split.
      + destruct (h2 !! l); by constructor.
    - eexists _, _. split; [done|]. apply heap_frame_refl. }
  rewrite E3 in Hstep.
  pose proof (heap_frame_trans _ _ _ _ (heap_frame_trans _ _ _ _ F1 F2) F3)
    as F.
  destruct (max_indices num_ltb 1 outputs) as [y_pred|]; [|done].
  cbn [mbind result_bind rbind] in Hstep.
  destruct (Tensor.eq y_pred (long y)) as [c|]; [|done].
  cbn [mbind result_bind rbind] in Hstep.
  destruct (shape_at (long y) 1) as [width|]; [|done].
  cbn [mbind result_bind rbind] in Hstep.
  destruct (batch_id mod 100 =? 99).
  - destruct (shape_at (long x) 0) as [b|]; [|done].
    cbn [mbind result_bind rbind] in Hstep.
    destruct (_ =? 0); [done|]. injection Hstep as <-.
    cbn [tr_world w_log w_heap tr_loss].
    split; [exact F|]. split; [by eexists|].
    rewrite <- !app_assoc. eexists. split; [reflexivity|]. done.
  - injection Hstep as <-. cbn [tr_world w_log w_heap tr_loss].
    split; [exact F|]. split; [by eexists|].
    eexists. split; [reflexivity|]. done.
Qed.

Lemma train_loop_frame ks : ∀ st st',
  train_loop ops ner_tagger batch_size order train_tokens train_tags
             criterion optimizer epoch st ks = Ok st' →
  heap_frame ner_tagger optimizer same_mode
             (w_heap (tr_world st)) (w_heap (tr_world st'))
  ∧ (ks ≠ [] → is_Some (tr_loss st'))
  ∧ (ks = [] → tr_loss st' = tr_loss st)
  ∧ ∃ new, w_log (tr_world st') = w_log (tr_world st) ++ new
           ∧ length (filter (λ e, is_forward_call e = true) new) = length ks.
Proof.
  induction ks as [|k ks IH]; intros st st' Hloop; cbn [train_loop] in Hloop.
  - injection Hloop as <-. split; [apply heap_frame_refl|].
    split; [done|]. split; [done|]. exists []. by rewrite app_nil_r.
  - destruct (train_step _ _ _ _ _ _ _ _ _ _ _) as [st1|] eqn:Hstep; [|done].
    cbn [mbind result_bind rbind] in Hloop.
    apply train_step_frame in Hstep as (F1 & L1 & new1 & Hl1 & Hc1).
    apply IH in Hloop as (F2 & L2 & L2' & new2 & Hl2 & Hc2).
    split; [by eapply heap_frame_trans|]. split.
    { intros _. destruct ks as [|k' ks]; [by rewrite L2'|by apply L2]. }
    split; [done|].
    exists (new1 ++ new2). split; [by rewrite Hl2, Hl1, app_assoc|].
    rewrite filter_app, length_app, Hc1, Hc2. done.
Qed.

End TrainMore.

Section TrainEpoch.
Context {num : Type} `{Scalar num}.
Context {P G S : Type}.
Context (ops : @torch_ops num P G S).
Context (ner_tagger optimizer : nat).
Context (batch_size : nat)
  (train_tokens train_tags : list (list string))
  (criterion : tensor num → tensor nat → result num) (epoch : nat).

(** A call of [train_one_epoch] that returns: the loop ran over every batch
    from the world with [model] in training mode, and bound [loss]. *)
Lemma train_one_epoch_inv perm model (w w' : @world num P G S) :
  train_one_epoch ops ner_tagger perm model train_tokens train_tags
                  batch_size criterion optimizer epoch w = Ok w' →
  ∃ o n_batches st loss,
    w_heap w !! model = Some o
    ∧ Batching.n_batches_of batch_size (length train_tokens) true
      = Ok n_batches
    ∧ train_loop ops ner_tagger batch_size
                 (Batching.order_of true perm (length train_tokens))
                 train_tokens train_tags criterion optimizer epoch
                 (TrainState (num_of_nat 0) (num_of_nat 0) None
                    (World (w_globals w)
                           (<[model := set_training true o]> (w_heap w))
                           (w_opt w) (w_log w)))
                 (seq 0 n_batches) = Ok st
    ∧ tr_loss st = Some loss
    ∧ w' = World (w_globals (tr_world st)) (w_heap (tr_world st))
                 (w_opt (tr_world st))
                 (w_log (tr_world st)
                  ++ [AddScalar "Train/Loss" loss epoch; Flush]).
Proof.
  intros Hrun. unfold train_one_epoch in Hrun.
  destruct (w_heap w !! model) as [o|] eqn:Ho; [|done].
  destruct (Batching.n_batches_of batch_size (length train_tokens) true)
    as [n_batches|]; [|done].
  cbn [mbind result_bind rbind] in Hrun.
  destruct (train_loop _ _ _ _ _ _ _ _ _ _ _) as [st|] eqn:Hloop; [|done].
  cbn [mbind result_bind rbind] in Hrun.
  destruct (tr_loss st) as [loss|] eqn:El; [|done]. injection Hrun as <-.
  by exists o, n_batches, st, loss.
Qed.

(** The heap after an epoch that returns. *)
Lemma train_one_epoch_heap perm model (w w' : @world num P G S) :
  train_one_epoch ops ner_tagger perm model train_tokens train_tags
                  batch_size criterion optimizer epoch w = Ok w' →
  heap_frame ner_tagger optimizer (mode_after model) (w_heap w) (w_heap w').
Proof.
  intros Hrun.
  apply train_one_epoch_inv in Hrun as (o & nb & st & loss & Ho & _ & Hloop & _ & ->).
  apply train_loop_frame in Hloop as (F & _).
  cbn [w_heap tr_world] in *.
  eapply heap_frame_trans; [|exact F].
  intros l. rewrite lookup_insert. unfold mode_after. case_decide as Hl.
  - subst l. rewrite Ho, decide_True by done. constructor. by split.
  - rewrite decide_False by done. destruct (w_heap w !! l); by constructor.
Qed.

End TrainEpoch.

(** X23.  On an empty training set [train_one_epoch] raises
    [UnboundLocalError]: the loop body never binds [loss], which the call
    of [writer.add_scalar] after the loop reads. *)
Theorem train_one_epoch_empty {num : Type} `{Scalar num} {P G S : Type}
    (ops : @torch_ops num P G S) (ner_tagger : nat) (perm : list nat)
    (model : nat) (train_tags : list (list string))
    (batch_size : nat) (criterion : tensor num → tensor nat → result num)
    (optimizer epoch : nat) (w : @world num P G S) :
  batch_size ≠ 0 →
  is_Some (w_heap w !! model) →
  train_one_epoch ops ner_tagger perm model [] train_tags batch_size
                  criterion optimizer epoch w
  = Raise (UnboundLocalError
             "local variable 'loss' referenced before assignment").
Proof.
  intros Hbs [o Ho]. unfold train_one_epoch, Batching.n_batches_of.
  rewrite Ho. cbn [length].
  destruct (batch_size =? 0) eqn:E; [apply Nat.eqb_eq in E; lia|].
  rewrite Nat.Div0.div_0_l, Nat.Div0.mod_0_l.
  cbn [Nat.eqb negb andb mbind result_bind rbind seq train_loop tr_loss]. done.
Qed.

Lemma train_one_epoch_empty_witness :
  train_one_epoch sample_ops 0 [] 1 [] [] 2 zero_loss 0 0 sample_world
  = Raise (UnboundLocalError
             "local variable 'loss' referenced before assignment").
Proof.
  apply (train_one_epoch_empty sample_ops 0 [] 1 [] 2 zero_loss 0 0
                               sample_world).
  - lia.
  - vm_compute. eauto.
Defined.

(** X24.  An epoch that returns leaves the same objects in the heap; it
    puts [model] in training mode and changes the mode of no other object;
    it changes parameters only of the module the optimizer holds, and
    gradients only of that module and of the module bound to
    [ner_tagger]. *)
Theorem train_one_epoch_frame {num : Type} `{Scalar num} {P G S : Type}
    (ops : @torch_ops num P G S) (ner_tagger : nat) (perm : list nat)
    (model : nat) (train_tokens train_tags : list (list string))
    (batch_size : nat) (criterion : tensor num → tensor nat → result num)
    (optimizer epoch : nat) (w w' : @world num P G S) :
  train_one_epoch ops ner_tagger perm model train_tokens train_tags
                  batch_size criterion optimizer epoch w = Ok w' →
  heap_frame ner_tagger optimizer (mode_after model) (w_heap w) (w_heap w').
Proof.
  apply train_one_epoch_heap.
Qed.

Lemma train_one_epoch_frame_witness :
  ∃ w', train_one_epoch sample_ops 0 [1; 0; 2] 1 tokens3 tags3 2 zero_loss
                        0 0 sample_world = Ok w'
        ∧ heap_frame 0 0 (mode_after 1) (w_heap sample_world) (w_heap w').
Proof.
  eexists. split; [vm_compute; reflexivity|].
  apply (train_one_epoch_frame sample_ops 0 [1; 0; 2] 1 tokens3 tags3 2
                               zero_loss 0 0 sample_world).
  vm_compute. reflexivity.
Defined.

(** X25.  An epoch that returns has run exactly one forward pass for each
    batch of the generator, and the last two things it sent to the writer
    are the scalar [Train/Loss] for the epoch and a flush. *)
Theorem train_one_epoch_forward_count {num : Type} `{Scalar num}
    {P G S : Type}
    (ops : @torch_ops num P G S) (ner_tagger : nat) (perm : list nat)
    (model : nat) (train_tokens train_tags : list (list string))
    (batch_size : nat) (criterion : tensor num → tensor nat → result num)
    (optimizer epoch : nat) (w w' : @world num P G S) :
  train_one_epoch ops ner_tagger perm model train_tokens train_tags
                  batch_size criterion optimizer epoch w = Ok w' →
  ∃ n_batches new loss,
    Batching.n_batches_of batch_size (length train_tokens) true = Ok n_batches
    ∧ n_batches ≠ 0
    ∧ w_log w' = w_log w ++ new ++ [AddScalar "Train/Loss" loss epoch; Flush]
    ∧ length (filter (λ e, is_forward_call e = true) new) = n_batches.
Proof.
  intros Hrun.
  apply train_one_epoch_inv in Hrun
    as (o & nb & st & loss & Ho & Hnb & Hloop & El & ->).
  apply train_loop_frame in Hloop as (_ & _ & Hnone & new & Hlog & Hcount).
  cbn [w_log tr_world tr_loss] in *. rewrite length_seq in Hcount.
  exists nb, new, loss. split; [done|]. split.
  - intros ->. cbn [seq] in Hnone. specialize (Hnone eq_refl). congruence.
  - split; [|done]. by rewrite Hlog, <- app_assoc.
Qed.

Lemma train_one_epoch_forward_count_witness :
  ∃ w', train_one_epoch sample_ops 0 [1; 0; 2] 1 tokens3 tags3 2 zero_loss
                        0 0 sample_world = Ok w'
  ∧ ∃ n_batches new loss,
    Batching.n_batches_of 2 (length tokens3) true = Ok n_batches
    ∧ n_batches ≠ 0
    ∧ w_log w' = w_log sample_world ++ new
                 ++ [AddScalar "Train/Loss" loss 0; Flush]
    ∧ length (filter (λ e, is_forward_call e = true) new) = n_batches.
Proof.
  eexists. split; [vm_compute; reflexivity|].
  apply (train_one_epoch_forward_count sample_ops 0 [1; 0; 2] 1 tokens3 tags3
                                       2 zero_loss 0 0 sample_world).
  vm_compute. reflexivity.
Defined.
(** * More on [train_model] *)

Section SessionFacts.
Context {num : Type} `{Scalar num}.
Context {P G S : Type}.
Context (ops : @torch_ops num P G S).
Context (ner_tagger eval_batch_size : nat)
  (perm_train perm_test : nat → list nat) (model : nat)
  (train_tokens train_tags validation_tokens validation_tags
     : list (list string))
  (batch_size : nat)
  (criterion : tensor num → tensor nat → result num)
  (optimizer : nat).

Lemma improving_app best (cks : list (@checkpoint num P G)) ck :
  improving best cks →
  num_ltb (last_accuracy best cks) (ck_accuracy ck) = true →
  improving best (cks ++ [ck]).
Proof.
  revert best. induction cks as [|c cks IH]; intros best Himp Hlt.
  - cbn in *. done.
  - destruct Himp as [H1 H2]. cbn [app improving]. split; [done|].
    apply IH; [done|]. unfold last_accuracy in *.
    destruct cks as [|c' cks]; [exact Hlt|].
    change (last (c :: c' :: cks)) with (last (c' :: cks)) in Hlt.
    destruct (last (c' :: cks)) as [c0|] eqn:E; [exact Hlt|].
    by apply last_None in E.
Qed.

Lemma ascending_app first (cks : list (@checkpoint num P G)) ck :
  ascending first cks →
  Forall (λ c, ck_epoch c < ck_epoch ck) cks →
  first ≤ ck_epoch ck →
  ascending first (cks ++ [ck]).
Proof.
  revert first. induction cks as [|c cks IH]; intros first Ha Hb Hf.
  - cbn. done.
  - destruct Ha as [H1 H2]. apply Forall_cons in Hb as [Hc Hb].
    cbn [app ascending]. split; [done|]. apply IH; [done|done|lia].
Qed.

Lemma last_accuracy_snoc best (cks : list (@checkpoint num P G)) ck :
  last_accuracy best (cks ++ [ck]) = ck_accuracy ck.
Proof. unfold last_accuracy. by rewrite last_snoc. Qed.

Lemma train_epoch_ok st st' epoch :
  session_ok epoch st →
  train_epoch ops ner_tagger eval_batch_size perm_train perm_test model
              train_tokens train_tags validation_tokens validation_tags
              batch_size criterion optimizer st epoch = Ok st' →
  session_ok (epoch + 1) st'.
Proof.
  intros (Hbest & Himp & Hbound & Hsorted). unfold train_epoch. intros Hrun.
  destruct (train_one_epoch _ _ _ _ _ _ _ _ _ _ _) as [w1|]; [|done].
  cbn [mbind result_bind rbind] in Hrun.
  destruct (test_model_at _ _ _ _ _ _ _ _ _ _) as [[acc w2]|]; [|done].
  cbn [mbind result_bind rbind] in Hrun.
  assert (Forall (λ ck : @checkpoint num P G, ck_epoch ck < epoch + 1) (saved st))
    as Hbound'.
  { eapply Forall_impl; [exact Hbound|]. cbn. lia. }
  destruct (num_ltb (best_acc st) acc) eqn:Hlt; injection Hrun as <-.
  - unfold session_ok. cbn [best_acc saved].
    split; [by rewrite last_accuracy_snoc|].
    split; [apply improving_app; [done|by rewrite <- Hbest]|].
    split.
    + apply Forall_app. split; [done|]. repeat constructor. cbn. lia.
    + apply ascending_app; [done|done|cbn; lia].
  - done.
Qed.

Lemma train_epochs_ok n : ∀ first st st',
  session_ok first st →
  train_epochs ops ner_tagger eval_batch_size perm_train perm_test model
               train_tokens train_tags validation_tokens validation_tags
               batch_size criterion optimizer st (seq first n) = Ok st' →
  session_ok (first + n) st'.
Proof.
  induction n as [|n IH]; intros first st st' Hok Hrun;
    cbn [seq train_epochs] in Hrun.
  - injection Hrun as <-. by rewrite Nat.add_0_r.
  - destruct (train_epoch _ _ _ _ _ _ _ _ _ _ _ _ _ _ _) as [st1|] eqn:E;
      [|done].
    cbn [mbind result_bind rbind] in Hrun.
    replace (first + Datatypes.S n) with (Datatypes.S first + n) by lia.
    eapply IH; [|exact Hrun]. replace (Datatypes.S first) with (first + 1) by lia.
    by eapply train_epoch_ok.
Qed.

End SessionFacts.

(** X26.  When [train_model] returns, the calls of [torch.save] it made
    were made in increasing epochs below [n_epochs], each for an accuracy
    greater than that of the call before, the first for an accuracy greater
    than 0; and [best_acc] is the accuracy of the last call, 0 without a
    call. *)
Theorem train_model_checkpoints {num : Type} `{Scalar num} {P G S : Type}
    (ops : @torch_ops num P G S) (ner_tagger eval_batch_size : nat)
    (perm_train perm_test : nat → list nat) (model : nat)
    (train_tokens train_tags validation_tokens validation_tags
       : list (list string))
    (batch_size : nat) (criterion : tensor num → tensor nat → result num)
    (optimizer n_epochs : nat) (w : @world num P G S)
    (st : @session num P G S) :
  train_model ops ner_tagger eval_batch_size perm_train perm_test model
              train_tokens train_tags validation_tokens validation_tags
              batch_size criterion optimizer n_epochs w = Ok st →
  improving (num_of_nat 0) (saved st)
  ∧ best_acc st = last_accuracy (num_of_nat 0) (saved st)
  ∧ Forall (λ ck, ck_epoch ck < n_epochs) (saved st)
  ∧ ascending 0 (saved st).
Proof.
  intros Hrun. unfold train_model in Hrun.
  apply train_epochs_ok in Hrun as (Hb & Hi & Hf & Hs).
  - done.
  - cbn. split; [done|]. split; [done|]. split; [constructor|done].
Qed.
Lemma train_model_checkpoints_witness :
  ∃ st,
    train_model sample_ops 0 2 (λ _, [1; 0; 2]) (λ _, [1; 0; 2]) 0
                tokens3 tags3 tokens3 tags3 2 zero_loss 0 2 sample_world
    = Ok st
    ∧ improving (num_of_nat 0) (saved st)
    ∧ best_acc st = last_accuracy (num_of_nat 0) (saved st)
    ∧ Forall (λ ck, ck_epoch ck < 2) (saved st)
    ∧ ascending 0 (saved st).
Proof.
  eexists. split; [vm_compute; reflexivity|].
  apply (train_model_checkpoints sample_ops 0 2 (λ _, [1; 0; 2])
           (λ _, [1; 0; 2]) 0 tokens3 tags3 tokens3 tags3 2 zero_loss 0 2
           sample_world).
  vm_compute. reflexivity.
Defined.

Section SessionFrame.
Context {num : Type} `{Scalar num}.
Context {P G S : Type}.
Context (ops : @torch_ops num P G S).
Context (ner_tagger eval_batch_size : nat)
  (perm_train perm_test : nat → list nat) (model : nat)
  (train_tokens train_tags validation_tokens validation_tags
     : list (list string))
  (batch_size : nat)
  (criterion : tensor num → tensor nat → result num)
  (optimizer : nat).





End SessionFrame.



(** X28.  With an empty validation set, a run of [train_model] over one
    epoch or more whose first epoch of training returns raises
    [ZeroDivisionError] in the evaluation that follows: no call of
    [torch.save] is reached. *)
Theorem train_model_no_validation {num : Type} `{Scalar num} {P G S : Type}
    (ops : @torch_ops num P G S) (ner_tagger eval_batch_size : nat)
    (perm_train perm_test : nat → list nat) (model : nat)
    (train_tokens train_tags validation_tags : list (list string))
    (batch_size : nat) (criterion : tensor num → tensor nat → result num)
    (optimizer n_epochs : nat) (w w1 : @world num P G S) :
  n_epochs ≠ 0 →
  eval_batch_size ≠ 0 →
  train_one_epoch ops ner_tagger (perm_train 0) model train_tokens train_tags
                  batch_size criterion optimizer 0 w = Ok w1 →
  train_model ops ner_tagger eval_batch_size perm_train perm_test model
              train_tokens train_tags [] validation_tags
              batch_size criterion optimizer n_epochs w
  = Raise (ZeroDivisionError "division by zero").
Proof.
  intros Hn Hbs Htrain. unfold train_model.
  destruct n_epochs as [|n]; [done|].
  cbn [seq train_epochs]. unfold train_epoch at 1. cbn [s_world].
  rewrite Htrain.
  cbn [mbind result_bind rbind].
  assert (is_Some (w_heap w1 !! model)) as [o1 Ho1].
  { pose proof (train_one_epoch_heap _ _ _ _ _ _ _ _ _ _ _ _ Htrain model)
      as F.
    apply train_one_epoch_inv in Htrain as (o & _ & _ & _ & Ho & _).
    rewrite Ho in F. inversion F; subst. by eexists. }
  unfold test_model_at. rewrite Ho1.
  unfold test_model, Batching.n_batches_of. cbn [length].
  destruct (eval_batch_size =? 0) eqn:E; [apply Nat.eqb_eq in E; lia|].
  rewrite Nat.Div0.div_0_l, Nat.Div0.mod_0_l.
  cbn [Nat.eqb negb andb mbind result_bind rbind seq test_loop ts_n]. done.
Qed.

Lemma train_model_no_validation_witness :
  train_model sample_ops 0 2 (λ _, [1; 0; 2]) (λ _, []) 0
              tokens3 tags3 [] [] 2 zero_loss 0 3 sample_world
  = Raise (ZeroDivisionError "division by zero").
Proof.
  eapply (train_model_no_validation sample_ops 0 2 (λ _, [1; 0; 2])
            (λ _, []) 0 tokens3 tags3 [] 2 zero_loss 0 3 sample_world).
  - lia.
  - lia.
  - vm_compute. reflexivity.
Defined.
